(** * calendar_bot: a shallow embedding of the calendar-feed pipeline

    The development follows [calendar_bot.py]: Python strings are lists of
    Unicode code points, dictionaries are finite maps, functions that may
    raise return a [result].  The regular expressions of the source are kept
    as syntax trees and run by a small backtracking matcher; the tables of
    the Python runtime the source relies on (case mappings beyond ASCII,
    decimal digits beyond ASCII, the time-zone database) are parameters.

    An aware [datetime] is a wall-clock time, a zone and the [fold]
    attribute.  Arithmetic on it raises when the result leaves the years 1
    to 9999, as the runtime does; datetimes of one zone are compared by
    wall-clock time and datetimes of different zones by instant, as the
    runtime does; and [list.sort] is the sort of the runtime, of which only
    the documented behaviour is used. *)

From Stdlib Require Import ZArith NArith Lia Bool List String Ascii Sorted.
From stdpp Require Import base decidable option list gmap.

Local Open Scope N_scope.

(** ** Text *)

(** A Python [str]: the sequence of its code points. *)
Abbreviation str := (list N).

Fixpoint bytes_of (s : string) : list N :=
  match s with
  | EmptyString => []
  | String a s' => N_of_ascii a :: bytes_of s'
  end.

(** UTF-8 decoding, used to write the literals of the source file. *)
Fixpoint utf8_decode (bs : list N) : str :=
  match bs with
  | [] => []
  | b0 :: t0 =>
    if b0 <? 128 then b0 :: utf8_decode t0
    else match t0 with
    | [] => []
    | b1 :: t1 =>
      if b0 <? 224 then ((b0 - 192) * 64 + (b1 - 128)) :: utf8_decode t1
      else match t1 with
      | [] => []
      | b2 :: t2 =>
        if b0 <? 240
        then ((b0 - 224) * 4096 + (b1 - 128) * 64 + (b2 - 128)) :: utf8_decode t2
        else match t2 with
        | [] => []
        | b3 :: t3 =>
          ((b0 - 240) * 262144 + (b1 - 128) * 4096 + (b2 - 128) * 64 + (b3 - 128))
            :: utf8_decode t3
        end
      end
    end
  end.

Definition u8 (s : string) : str := utf8_decode (bytes_of s).

(** [str.isspace] on one code point; this is also the set that [strip]
    removes and that [\s] matches. *)
Definition isspace (c : N) : bool :=
  ((9 <=? c) && (c <=? 13)) || ((28 <=? c) && (c <=? 32)) || (c =? 133)
  || (c =? 160) || (c =? 5760) || ((8192 <=? c) && (c <=? 8202))
  || (c =? 8232) || (c =? 8233) || (c =? 8239) || (c =? 8287) || (c =? 12288).

Fixpoint lstrip (s : str) : str :=
  match s with
  | c :: t => if isspace c then lstrip t else s
  | [] => []
  end.

Definition rstrip (s : str) : str := rev (lstrip (rev s)).

Definition strip (s : str) : str := rstrip (lstrip s).

Fixpoint startswith (p s : str) : bool :=
  match p, s with
  | [], _ => true
  | a :: p', b :: s' => (a =? b) && startswith p' s'
  | _ :: _, [] => false
  end.

Definition endswith (p s : str) : bool := startswith (rev p) (rev s).

(** [p in s] for strings. *)
Fixpoint contains (p s : str) : bool :=
  startswith p s || match s with [] => false | _ :: t => contains p t end.

(** [s.split(sep)] for a separator of one code point. *)
Fixpoint split (sep : N) (s : str) : list str :=
  match s with
  | [] => [[]]
  | c :: t =>
    if c =? sep then [] :: split sep t
    else match split sep t with
         | p :: ps => (c :: p) :: ps
         | [] => [[c]]
         end
  end.

(** [s.split(sep, 1)] when [sep] occurs in [s]: the text before the first
    separator and the text after it. *)
Fixpoint split1 (sep : N) (s : str) : option (str * str) :=
  match s with
  | [] => None
  | c :: t =>
    if c =? sep then Some ([], t)
    else match split1 sep t with
         | Some (l, r) => Some (c :: l, r)
         | None => None
         end
  end.

Fixpoint join (sep : str) (parts : list str) : str :=
  match parts with
  | [] => []
  | [p] => p
  | p :: ps => p ++ sep ++ join sep ps
  end.

(** [s.replace(old, new)] for a non-empty [old]: occurrences are replaced
    from the left and do not overlap. *)
Fixpoint replace_from (old new : str) (skip : nat) (s : str) : str :=
  match s with
  | [] => []
  | c :: t =>
    match skip with
    | S k => replace_from old new k t
    | O => if startswith old s
           then new ++ replace_from old new (length old - 1) t
           else c :: replace_from old new 0 t
    end
  end.

Definition replace (old new s : str) : str := replace_from old new 0 s.

(** A line boundary of [str.splitlines]. *)
Definition is_linebreak (c : N) : bool :=
  ((10 <=? c) && (c <=? 13)) || ((28 <=? c) && (c <=? 30)) || (c =? 133)
  || (c =? 8232) || (c =? 8233).

(** [splitlines_from cur s]: [cur] is the line being read, reversed.  A
    carriage return followed by a line feed is one boundary, and no empty
    line is produced after the last boundary. *)
Fixpoint splitlines_from (cur : str) (s : str) : list str :=
  match s with
  | [] => match cur with [] => [] | _ => [rev cur] end
  | c :: t =>
    if is_linebreak c then
      rev cur :: match c, t with
                 | 13, 10 :: t' => splitlines_from [] t'
                 | _, _ => splitlines_from [] t
                 end
    else splitlines_from (c :: cur) t
  end.

Definition splitlines (s : str) : list str := splitlines_from [] s.

(** ** Errors *)

Inductive error : Set :=
| ValueError          (* strptime, date and time constructors, ZoneInfo(key) *)
| ZoneInfoNotFound    (* ZoneInfo(key) for a key the database lacks *)
| KeyError            (* subscripting a dict with a missing key *)
| OverflowError.      (* datetime arithmetic that leaves the years 1 to 9999 *)

#[global] Instance error_eq_dec : EqDecision error.
Proof. solve_decision. Defined.

Inductive result (A : Type) : Type :=
| OK (a : A)
| Raise (e : error).
Arguments OK {A} a.
Arguments Raise {A} e.

#[global] Instance result_eq_dec {A : Type} `{EqDecision A} : EqDecision (result A).
Proof. solve_decision. Defined.

#[global] Instance result_ret : MRet result := fun A a => OK a.

#[global] Instance result_bind : MBind result := fun A B f r =>
  match r with
  | OK a => f a
  | Raise e => Raise e
  end.

(** ** Dedupe gate *)

(** [state.get(key)] is [state !! key]; [last != stamp] compares the
    optional stored stamp with the fresh one. *)
Definition should_post (state : gmap str str) (key stamp : str) : bool :=
  let last := state !! key in
  negb (bool_decide (last = Some stamp)).

Definition mark_posted (state : gmap str str) (key stamp : str) : gmap str str :=
  <[key := stamp]> state.

(** ** Sorting *)

(** A stable sort by an integer key: an item is put before the first item
    whose key is greater than its own. *)
Fixpoint insert_by {A : Type} (key : A -> Z) (x : A) (l : list A) : list A :=
  match l with
  | [] => [x]
  | y :: l' => if (key x <? key y)%Z then x :: l else y :: insert_by key x l'
  end.

Definition sort_by {A : Type} (key : A -> Z) (l : list A) : list A :=
  foldl (fun sorted x => insert_by key x sorted) [] l.

(** [list.sort] of the runtime, called with the comparison [<] of the keys.
    What the runtime promises is taken as it is documented: the list is
    rearranged, and when the comparison is that of some integer key on the
    items of the list, the result is the stable sort by that key.  Nothing
    is said of a comparison that is not consistent in this way. *)
Class Sorter := {
  list_sort : forall A : Type, (A -> A -> bool) -> list A -> list A;
  list_sort_permutation :
    forall (A : Type) (lt : A -> A -> bool) (l : list A), list_sort A lt l ≡ₚ l;
  list_sort_by_key :
    forall (A : Type) (lt : A -> A -> bool) (key : A -> Z) (l : list A),
      (forall a b, a ∈ l -> b ∈ l -> lt a b = (key a <? key b)%Z) ->
      list_sort A lt l = sort_by key l
}.

(** ** Folded-line reassembler *)

(** One turn of the loop of [_unfold_ics_lines] on the list [out]. *)
Definition unfold_step (out : list str) (line : str) : list str :=
  if bool_decide (line = []) then out ++ [line]
  else if startswith [32] line || startswith [9] line then
    match out with
    | _ :: _ => alter (fun prev => prev ++ drop 1 line) (length out - 1)%nat out
    | [] => out ++ [lstrip line]
    end
  else out ++ [line].

Definition _unfold_ics_lines (ics_text : str) : list str :=
  foldl unfold_step [] (splitlines ics_text).

(** The rule of the reassembler, one physical line at a time: [folds lines
    p lines'] says that the logical lines [lines] read so far become
    [lines'] once the physical line [p] is read. *)
Inductive folds : list str -> str -> list str -> Prop :=
| folds_continuation before prev c rest :
    c = 32 ∨ c = 9 ->
    folds (before ++ [prev]) (c :: rest) (before ++ [prev ++ rest])
| folds_orphan c rest :
    c = 32 ∨ c = 9 ->
    folds [] (c :: rest) [lstrip (c :: rest)]
| folds_empty lines :
    folds lines [] (lines ++ [[]])
| folds_new lines c rest :
    c <> 32 -> c <> 9 ->
    folds lines (c :: rest) (lines ++ [c :: rest]).

Inductive reassembles : list str -> list str -> list str -> Prop :=
| reassembles_done lines :
    reassembles lines [] lines
| reassembles_line lines p ps lines' lines'' :
    folds lines p lines' ->
    reassembles lines' ps lines'' ->
    reassembles lines (p :: ps) lines''.

(** ** Unicode tables of the runtime *)

(** The case mappings and decimal digits of ASCII are written out; beyond
    ASCII they come from the Unicode database of the interpreter, which is a
    parameter here. *)
Class Unicode := {
  tolower_ext : N -> N;          (* simple lowercase mapping, code points from 128 *)
  toupper_ext : N -> N;          (* simple uppercase mapping, code points from 128 *)
  decimal_ext : N -> option N;   (* value of a decimal digit beyond ASCII *)
  str_lower : str -> str;        (* [str.lower] *)
  str_upper : str -> str         (* [str.upper] *)
}.

Section Regex.
Context `{Unicode}.

Definition tolower (c : N) : N :=
  if c <? 128 then (if (65 <=? c) && (c <=? 90) then c + 32 else c)
  else tolower_ext c.

Definition toupper (c : N) : N :=
  if c <? 128 then (if (97 <=? c) && (c <=? 122) then c - 32 else c)
  else toupper_ext c.

(** [_sre.unicode_iscased] *)
Definition iscased (c : N) : bool :=
  negb (c =? tolower c) || negb (c =? toupper c).

Definition decimal (c : N) : option N :=
  if (48 <=? c) && (c <=? 57) then Some (c - 48)
  else if c <? 128 then None
  else decimal_ext c.

Definition isdecimal (c : N) : bool :=
  match decimal c with Some _ => true | None => false end.

(** [re._casefix._EXTRA_CASES]: the lower-case letters that match one
    another without sharing a lowercase form. *)
Definition EXTRA_CASES : list (N * list N) :=
  [ (0x69, [0x131]); (0x73, [0x17f]); (0xb5, [0x3bc]); (0x131, [0x69]);
    (0x17f, [0x73]); (0x345, [0x3b9; 0x1fbe]); (0x390, [0x1fd3]);
    (0x3b0, [0x1fe3]); (0x3b2, [0x3d0]); (0x3b5, [0x3f5]); (0x3b8, [0x3d1]);
    (0x3b9, [0x345; 0x1fbe]); (0x3ba, [0x3f0]); (0x3bc, [0xb5]);
    (0x3c0, [0x3d6]); (0x3c1, [0x3f1]); (0x3c2, [0x3c3]); (0x3c3, [0x3c2]);
    (0x3c6, [0x3d5]); (0x3d0, [0x3b2]); (0x3d1, [0x3b8]); (0x3d5, [0x3c6]);
    (0x3d6, [0x3c0]); (0x3f0, [0x3ba]); (0x3f1, [0x3c1]); (0x3f5, [0x3b5]);
    (0x432, [0x1c80]); (0x434, [0x1c81]); (0x43e, [0x1c82]); (0x441, [0x1c83]);
    (0x442, [0x1c84; 0x1c85]); (0x44a, [0x1c86]); (0x463, [0x1c87]);
    (0x1c80, [0x432]); (0x1c81, [0x434]); (0x1c82, [0x43e]); (0x1c83, [0x441]);
    (0x1c84, [0x442; 0x1c85]); (0x1c85, [0x442; 0x1c84]); (0x1c86, [0x44a]);
    (0x1c87, [0x463]); (0x1c88, [0xa64b]); (0x1e61, [0x1e9b]);
    (0x1e9b, [0x1e61]); (0x1fbe, [0x345; 0x3b9]); (0x1fd3, [0x390]);
    (0x1fe3, [0x3b0]); (0xa64b, [0x1c88]); (0xfb05, [0xfb06]);
    (0xfb06, [0xfb05]) ].

Fixpoint extra_cases_in (tbl : list (N * list N)) (lo : N) : list N :=
  match tbl with
  | [] => []
  | (k, v) :: tbl' => if k =? lo then v else extra_cases_in tbl' lo
  end.

Definition extra_cases (lo : N) : list N := extra_cases_in EXTRA_CASES lo.

Definition mem (c : N) (l : list N) : bool := existsb (N.eqb c) l.

(** *** Patterns *)

Inductive regex : Type :=
| Eps                          (* the empty pattern *)
| Chr (p : N -> bool)          (* one code point: a literal, a class, [.], [\s], [\d] *)
| Seq (r1 r2 : regex)
| Alt (r1 r2 : regex)          (* r1|r2 *)
| Opt (r : regex)              (* r? *)
| Star (r : regex)             (* r* *)
| Group (i : nat) (r : regex)  (* capturing group number i *)
| Bol                          (* ^ *)
| Eol.                         (* $ *)

Definition Plus (r : regex) : regex := Seq r (Star r).

Fixpoint Seqs (rs : list regex) : regex :=
  match rs with
  | [] => Eps
  | [r] => r
  | r :: rs' => Seq r (Seqs rs')
  end.

Fixpoint Alts (r : regex) (rs : list regex) : regex :=
  match rs with
  | [] => r
  | r' :: rs' => Alt r (Alts r' rs')
  end.

(** A literal of a pattern compiled without flags. *)
Definition lit (c : N) : regex := Chr (N.eqb c).

Definition lits (s : str) : regex := Seqs (map lit s).

(** A literal of a pattern compiled with [re.IGNORECASE]: an uncased
    literal matches itself; a cased one matches every code point whose
    lowercase form is the literal's, or one of its extra cases. *)
Definition lit_i (c : N) : regex :=
  if iscased c
  then let lo := tolower c in Chr (fun ch => mem (tolower ch) (lo :: extra_cases lo))
  else Chr (N.eqb c).

Definition lits_i (s : str) : regex := Seqs (map lit_i s).

(** The code points of a character class given by inclusive ranges. *)
Definition range_items (r : N * N) : list N :=
  map (fun k => fst r + N.of_nat k) (seq 0 (N.to_nat (snd r + 1 - fst r))).

Definition class_items (rs : list (N * N)) : list N := flat_map range_items rs.

Definition in_ranges (rs : list (N * N)) (c : N) : bool :=
  existsb (fun r => (fst r <=? c) && (c <=? snd r)) rs.

(** [[...]] compiled without flags, and its complement [[^...]]. *)
Definition cls (rs : list (N * N)) : regex := Chr (in_ranges rs).
Definition ncls (rs : list (N * N)) : regex := Chr (fun c => negb (in_ranges rs c)).

(** [[...]] compiled with [re.IGNORECASE]: the compiler stores the lowercase
    form of every item together with its extra cases; when some item is
    cased, the code point read is lowered before it is looked up. *)
Definition lowered_items (rs : list (N * N)) : list N :=
  flat_map (fun i => let lo := tolower i in lo :: extra_cases lo) (class_items rs).

Definition cls_i (rs : list (N * N)) : regex :=
  if existsb iscased (class_items rs)
  then Chr (fun ch => mem (tolower ch) (lowered_items rs))
  else Chr (fun ch => mem ch (lowered_items rs)).

Definition any : regex := Chr (fun c => negb (c =? 10)).  (* . *)
Definition space : regex := Chr isspace.                   (* \s *)
Definition digit : regex := Chr isdecimal.                 (* \d *)

(** *** Matching *)

Record mstate : Type := MState {
  m_pos : nat;                          (* offset of the next code point *)
  m_rest : str;                         (* the text from that offset on *)
  m_caps : list (nat * (nat * nat))     (* spans of the groups closed so far *)
}.

(** Backtracking matcher in continuation-passing style: [rmatch r s k] tries
    the ways [r] can match at [s], in the order of the engine of Python
    (left alternative first, longest repetition first), and returns the
    first answer the continuation [k] accepts.  An iteration of a starred
    pattern that reads nothing is not repeated. *)
Fixpoint rmatch {A : Type} (r : regex) (s : mstate) (k : mstate -> option A)
  {struct r} : option A :=
  match r with
  | Eps => k s
  | Chr p =>
    match m_rest s with
    | c :: t => if p c then k (MState (S (m_pos s)) t (m_caps s)) else None
    | [] => None
    end
  | Seq r1 r2 => rmatch r1 s (fun s' => rmatch r2 s' k)
  | Alt r1 r2 =>
    match rmatch r1 s k with
    | Some a => Some a
    | None => rmatch r2 s k
    end
  | Opt r1 =>
    match rmatch r1 s k with
    | Some a => Some a
    | None => k s
    end
  | Star r1 =>
    (fix loop (n : nat) (s : mstate) {struct n} : option A :=
       match n with
       | O => k s
       | S n' =>
         match rmatch r1 s (fun s' =>
                 if (length (m_rest s') <? length (m_rest s))%nat
                 then loop n' s' else None) with
         | Some a => Some a
         | None => k s
         end
       end) (length (m_rest s)) s
  | Group i r1 =>
    rmatch r1 s (fun s' =>
      k (MState (m_pos s') (m_rest s') ((i, (m_pos s, m_pos s')) :: m_caps s')))
  | Bol => if (m_pos s =? 0)%nat then k s else None
  | Eol =>
    match m_rest s with
    | [] => k s
    | [10] => k s
    | _ => None
    end
  end.

(** A match object: the span matched and the spans of the groups. *)
Record rmatch_obj : Type := MatchObj {
  mo_start : nat;
  mo_end : nat;
  mo_caps : list (nat * (nat * nat))
}.

Definition match_at (r : regex) (pos : nat) (rest : str) : option rmatch_obj :=
  rmatch r (MState pos rest [])
    (fun s' => Some (MatchObj pos (m_pos s') (m_caps s'))).

(** [re.match(r, s)] *)
Definition re_match (r : regex) (s : str) : option rmatch_obj := match_at r 0 s.

(** [re.fullmatch(r, s)] *)
Definition re_fullmatch (r : regex) (s : str) : option rmatch_obj :=
  rmatch r (MState 0 s [])
    (fun s' => match m_rest s' with
               | [] => Some (MatchObj 0 (m_pos s') (m_caps s'))
               | _ :: _ => None
               end).

(** [re.search(r, s)]: the match at the leftmost offset that has one. *)
Fixpoint search_from (r : regex) (pos : nat) (rest : str) : option rmatch_obj :=
  match match_at r pos rest with
  | Some m => Some m
  | None =>
    match rest with
    | [] => None
    | _ :: t => search_from r (S pos) t
    end
  end.

Definition re_search (r : regex) (s : str) : option rmatch_obj := search_from r 0 s.

Definition slice (s : str) (b e : nat) : str := take (e - b) (drop b s).

Fixpoint cap_lookup (caps : list (nat * (nat * nat))) (i : nat) : option (nat * nat) :=
  match caps with
  | [] => None
  | (j, span) :: caps' => if (j =? i)%nat then Some span else cap_lookup caps' i
  end.

(** [m.group(i)] for a group that took part in the match of [s]; a group
    that did not is read as the empty string. *)
Definition group (s : str) (m : rmatch_obj) (i : nat) : str :=
  match cap_lookup (mo_caps m) i with
  | Some (b, e) => slice s b e
  | None => []
  end.

(** [re.findall(r, s)] for a pattern without groups that cannot match the
    empty string: the matches from left to right, each search resuming
    where the last match ended.  [skip] counts the code points still covered
    by the last match. *)
Fixpoint findall_from (r : regex) (pos skip : nat) (rest : str) : list str :=
  match rest with
  | [] => []
  | _ :: t =>
    match skip with
    | S k => findall_from r (S pos) k t
    | O =>
      match match_at r pos rest with
      | Some m =>
        let n := (mo_end m - pos)%nat in
        take n rest :: findall_from r (S pos) (n - 1) t
      | None => findall_from r (S pos) 0 t
      end
    end
  end.

Definition re_findall (r : regex) (s : str) : list str := findall_from r 0 0 s.

End Regex.

(** ** Dates and times *)

(** A [date] is its proleptic Gregorian ordinal ([date.toordinal()]: day 1
    is 0001-01-01).  A wall-clock time (a naive [datetime]) is the number of
    seconds [86400 * ordinal + second of the day].  The runtime keeps both
    within the years 1 to 9999: the constructors check their arguments, and
    arithmetic raises when its result leaves them. *)

Local Open Scope Z_scope.

Definition is_leap (year : Z) : bool :=
  (year mod 4 =? 0) && (negb (year mod 100 =? 0) || (year mod 400 =? 0)).

Definition days_before_year (year : Z) : Z :=
  let y := year - 1 in y * 365 + y / 4 - y / 100 + y / 400.

Definition days_in_month (year month : Z) : Z :=
  if month =? 2 then (if is_leap year then 29 else 28)
  else if (month =? 4) || (month =? 6) || (month =? 9) || (month =? 11) then 30
  else 31.

Definition DAYS_BEFORE_MONTH (month : Z) : Z :=
  nth (Z.to_nat month) [0; 0; 31; 59; 90; 120; 151; 181; 212; 243; 273; 304; 334] 0.

Definition days_before_month (year month : Z) : Z :=
  DAYS_BEFORE_MONTH month + (if (2 <? month) && is_leap year then 1 else 0).

Definition ymd2ord (year month day : Z) : Z :=
  days_before_year year + days_before_month year month + day.

(** [_ord2ymd] of the runtime. *)
Definition ord2ymd (n : Z) : Z * Z * Z :=
  let n := n - 1 in
  let n400 := n / 146097 in
  let n := n mod 146097 in
  let year := n400 * 400 + 1 in
  let n100 := n / 36524 in
  let n := n mod 36524 in
  let n4 := n / 1461 in
  let n := n mod 1461 in
  let n1 := n / 365 in
  let n := n mod 365 in
  let year := year + n100 * 100 + n4 * 4 + n1 in
  if (n1 =? 4) || (n100 =? 4) then (year - 1, 12, 31)
  else
    let leapyear := (n1 =? 3) && (negb (n4 =? 24) || (n100 =? 3)) in
    let month := (n + 50) / 32 in
    let preceding :=
      DAYS_BEFORE_MONTH month + (if (2 <? month) && leapyear then 1 else 0) in
    if n <? preceding then
      let month := month - 1 in
      let dim := if (month =? 2) && leapyear then 29
                 else days_in_month 1 month in
      (year, month, n - (preceding - dim) + 1)
    else (year, month, n - preceding + 1).

(** [date(year, month, day)]: the constructor checks its arguments. *)
Definition mkdate (year month day : Z) : result Z :=
  if (1 <=? year) && (year <=? 9999) && (1 <=? month) && (month <=? 12)
     && (1 <=? day) && (day <=? days_in_month year month)
  then OK (ymd2ord year month day)
  else Raise ValueError.

(** [datetime(year, month, day, hour, minute, second)] without [tzinfo]. *)
Definition mknaive (year month day hour minute second : Z) : result Z :=
  d ← mkdate year month day;
  if (0 <=? hour) && (hour <=? 23) && (0 <=? minute) && (minute <=? 59)
     && (0 <=? second) && (second <=? 59)
  then OK (d * 86400 + hour * 3600 + minute * 60 + second)
  else Raise ValueError.

(** The date of a wall-clock time. *)
Definition naive_date (w : Z) : Z := w / 86400.

(** The wall-clock times of [datetime.min] and [datetime.max]:
    0001-01-01T00:00:00 and 9999-12-31T23:59:59. *)
Definition MIN_WALL : Z := 86400.
Definition MAX_WALL : Z := 3652059 * 86400 + 86399.

(** [d + timedelta(seconds=delta)] on a wall-clock time: the runtime raises
    when the result leaves the years 1 to 9999. *)
Definition add_seconds (w delta : Z) : result Z :=
  let r := w + delta in
  if (MIN_WALL <=? r) && (r <=? MAX_WALL) then OK r else Raise OverflowError.

Inductive tzinfo : Type :=
| Utc                  (* dt.timezone.utc *)
| Zone (key : str).    (* ZoneInfo(key) *)

#[global] Instance tzinfo_eq_dec : EqDecision tzinfo.
Proof. solve_decision. Defined.

(** The time-zone database.  [zone_missing key] is the error that
    [ZoneInfo(key)] raises, if it raises; [zone_utcoffset key w fold] is the
    offset from UTC, in seconds, that the zone gives to the wall-clock time
    [w] read with the attribute [fold]; [zone_offset_at key u] and
    [zone_fold_at key u] are the offset of the zone at the UTC time [u] and
    whether the wall-clock time it gives is the second of two equal ones. *)
Class TzDatabase := {
  zone_missing : str -> option error;
  zone_utcoffset : str -> Z -> bool -> Z;
  zone_offset_at : str -> Z -> Z;
  zone_fold_at : str -> Z -> bool
}.

(** An aware [datetime]: a wall-clock time, the zone it is read in, and the
    attribute [fold] that tells the second reading of a repeated wall-clock
    time from the first.  The zone objects of the runtime are unique per
    key, so two zones are the same object when they are equal here. *)
Record datetime : Type := mkDT { wall : Z; tz : tzinfo; fold : bool }.

#[global] Instance datetime_eq_dec : EqDecision datetime.
Proof. solve_decision. Defined.

(** A datetime as the constructor and [replace(tzinfo=...)] make it, with
    [fold] 0. *)
Definition DateTime (w : Z) (z : tzinfo) : datetime := mkDT w z false.

Definition KYIV_KEY : str := Eval vm_compute in u8 "Europe/Kyiv".

Definition KYIV_TZ : tzinfo := Zone KYIV_KEY.

Section Clock.
Context `{TzDatabase}.

Definition ZoneInfo (key : str) : result tzinfo :=
  match zone_missing key with
  | None => OK (Zone key)
  | Some e => Raise e
  end.

(** [d.utcoffset()] in seconds *)
Definition utcoffset (d : datetime) : Z :=
  match tz d with
  | Utc => 0
  | Zone key => zone_utcoffset key (wall d) (fold d)
  end.

(** [z.fromutc(u)]: the offset of the zone is added to the UTC time. *)
Definition fromutc (z : tzinfo) (u : Z) : result datetime :=
  match z with
  | Utc => w ← add_seconds u 0; OK (mkDT w Utc false)
  | Zone key =>
    w ← add_seconds u (zone_offset_at key u);
    OK (mkDT w z (zone_fold_at key u))
  end.

(** The instant an aware datetime denotes, in seconds on the UTC scale. *)
Definition instant (d : datetime) : Z := wall d - utcoffset d.

(** [d.astimezone(z)]: conversion to the zone a datetime already has
    returns it unchanged; otherwise the offset is taken off and the result
    is handed to [fromutc], and each of the two steps raises when it leaves
    the years 1 to 9999. *)
Definition astimezone (d : datetime) (z : tzinfo) : result datetime :=
  if decide (tz d = z) then OK d
  else
    u ← add_seconds (wall d) (- utcoffset d);
    fromutc z u.

(** [a < b] on aware datetimes: two datetimes of the same zone object are
    compared by their wall-clock times, [fold] and offset ignored; two
    datetimes of different zones by the instants they denote. *)
Definition datetime_lt (a b : datetime) : bool :=
  if decide (tz a = tz b) then wall a <? wall b
  else instant a <? instant b.

(** [d.date()] *)
Definition date_of (d : datetime) : Z := naive_date (wall d).

(** [d.astimezone(KYIV_TZ).date()] *)
Definition kyiv_date (d : datetime) : result Z :=
  k ← astimezone d KYIV_TZ; OK (date_of k).

End Clock.

(** [date.weekday()]: Monday is 0. *)
Definition weekday (d : Z) : Z := (d + 6) mod 7.

Local Open Scope N_scope.

(** Two decimal digits, as [%H], [%M], [%d] and [%m] print them. *)
Definition two_digits (n : Z) : str :=
  [48 + Z.to_N (n / 10 mod 10); 48 + Z.to_N (n mod 10)].

(** [t.strftime("%H:%M")] on a wall-clock time. *)
Definition strftime_HM (w : Z) : str :=
  let sod := (w mod 86400)%Z in
  two_digits (sod / 3600) ++ [58] ++ two_digits (sod mod 3600 / 60).

(** [d.strftime("%d.%m")] *)
Definition fmt_date_short (d : Z) : str :=
  let '(_, month, day) := ord2ymd d in
  two_digits day ++ [46] ++ two_digits month.

Section Bot.
Context `{Unicode} `{TzDatabase} `{Sorter}.

(** ** Temporal normalizer *)

(** [int(s)] for a string of decimal digits, blanks around them ignored. *)
Definition py_int (s : str) : result Z :=
  match strip s with
  | [] => Raise ValueError
  | ds =>
    foldl (fun acc c =>
             n ← acc;
             match decimal c with
             | Some v => OK (n * 10 + Z.of_N v)%Z
             | None => Raise ValueError
             end) (OK 0%Z) ds
  end.

(** The patterns of the directives of [strptime]; the format is compiled
    with [re.IGNORECASE]. *)
Definition RE_Y : regex := Seqs [digit; digit; digit; digit].
Definition RE_m : regex :=
  Alts (Seq (lit_i 49) (cls_i [(48, 50)]))
       [Seq (lit_i 48) (cls_i [(49, 57)]); cls_i [(49, 57)]].
Definition RE_d : regex :=
  Alts (Seq (lit_i 51) (cls_i [(48, 49)]))
       [Seq (cls_i [(49, 50)]) digit; Seq (lit_i 48) (cls_i [(49, 57)]);
        cls_i [(49, 57)]; Seq (lit_i 32) (cls_i [(49, 57)])].
Definition RE_H : regex :=
  Alts (Seq (lit_i 50) (cls_i [(48, 51)])) [Seq (cls_i [(48, 49)]) digit; digit].
Definition RE_M : regex := Alts (Seq (cls_i [(48, 53)]) digit) [digit].
Definition RE_S : regex :=
  Alts (Seq (lit_i 54) (cls_i [(48, 49)])) [Seq (cls_i [(48, 53)]) digit; digit].

(** "%Y%m%d", "%Y%m%dT%H%M%S" and "%Y%m%dT%H%M%SZ" *)
Definition FMT_DATE : regex :=
  Seqs [Group 1 RE_Y; Group 2 RE_m; Group 3 RE_d].
Definition FMT_LOCAL : regex :=
  Seqs [Group 1 RE_Y; Group 2 RE_m; Group 3 RE_d; lit_i 84;
        Group 4 RE_H; Group 5 RE_M; Group 6 RE_S].
Definition FMT_UTC : regex :=
  Seqs [Group 1 RE_Y; Group 2 RE_m; Group 3 RE_d; lit_i 84;
        Group 4 RE_H; Group 5 RE_M; Group 6 RE_S; lit_i 90].

(** [dt.datetime.strptime(s, format)] for these formats: the whole string
    must match, the fields are converted with [int], and the constructor of
    the result checks them.  [with_time] tells whether the format has the
    time directives; without them the time is midnight. *)
Definition strptime (fmt : regex) (with_time : bool) (s : str) : result Z :=
  match re_match fmt s with
  | None => Raise ValueError
  | Some found =>
    if negb (mo_end found =? length s)%nat then Raise ValueError
    else
      year ← py_int (group s found 1);
      month ← py_int (group s found 2);
      day ← py_int (group s found 3);
      if with_time then
        hour ← py_int (group s found 4);
        minute ← py_int (group s found 5);
        second ← py_int (group s found 6);
        mknaive year month day hour minute second
      else mknaive year month day 0 0 0
  end.

(** [ZoneInfo(tzid) if tzid else KYIV_TZ] *)
Definition zone_or_kyiv (tzid : option str) : result tzinfo :=
  match tzid with
  | Some (c :: k) => ZoneInfo (c :: k)
  | _ => OK KYIV_TZ
  end.

(** \d{8} *)
Definition RE_8DIGITS : regex :=
  Seqs [digit; digit; digit; digit; digit; digit; digit; digit].

Definition _parse_dt (value : str) (tzid : option str) : result datetime :=
  let value := strip value in
  match re_fullmatch RE_8DIGITS value with
  | Some _ =>
    parsed ← strptime FMT_DATE false value;
    let d := naive_date parsed in
    z ← zone_or_kyiv tzid;
    OK (DateTime (d * 86400) z)
  | None =>
    if endswith [90] value then
      base ← strptime FMT_UTC true value;
      astimezone (DateTime base Utc) KYIV_TZ
    else
      naive ← strptime FMT_LOCAL true value;
      z ← zone_or_kyiv tzid;
      astimezone (DateTime naive z) KYIV_TZ
  end.

(** ** Event block parser *)

Record Event : Type := mkEvent {
  start : datetime;
  end_ : datetime;
  summary : str;
  description : str;
  location : str
}.

Definition BEGIN_VEVENT : str := Eval vm_compute in u8 "BEGIN:VEVENT".
Definition END_VEVENT : str := Eval vm_compute in u8 "END:VEVENT".
Definition DTSTART : str := Eval vm_compute in u8 "DTSTART".
Definition DTEND : str := Eval vm_compute in u8 "DTEND".
Definition SUMMARY : str := Eval vm_compute in u8 "SUMMARY".
Definition DESCRIPTION : str := Eval vm_compute in u8 "DESCRIPTION".
Definition LOCATION : str := Eval vm_compute in u8 "LOCATION".

(** TZID=([^;]+) *)
Definition TZID_EQ : str := Eval vm_compute in u8 "TZID=".

Definition RE_TZID : regex :=
  Seq (lits TZID_EQ) (Group 1 (Plus (ncls [(59, 59)]))).

(** [cur.get(key, (None, ""))] *)
Definition field (cur : gmap str (option str * str)) (key : str) : option str * str :=
  default (None, []) (cur !! key).

(** The inner function [flush], with the variables [cur] and [events] it
    shares with the parser passed in and out. *)
Definition flush (cur : gmap str (option str * str)) (events : list Event)
  : result (gmap str (option str * str) * list Event) :=
  if decide (cur = ∅) then OK (cur, events)
  else
    let '(dtstart_tz, dtstart_val) := field cur DTSTART in
    let '(dtend_tz, dtend_val) := field cur DTEND in
    let summary := snd (field cur SUMMARY) in
    let description := snd (field cur DESCRIPTION) in
    let location := snd (field cur LOCATION) in
    if bool_decide (dtstart_val = []) || bool_decide (dtend_val = [])
    then OK (∅, events)
    else
      start ← _parse_dt dtstart_val dtstart_tz;
      end_ ← _parse_dt dtend_val dtend_tz;
      OK (∅, events ++ [mkEvent start end_ (strip summary) (strip description)
                                (strip location)]).

(** The variables of the loop of [parse_ics_events]. *)
Record pstate : Type := PState {
  in_event : bool;
  cur : gmap str (option str * str);
  events : list Event
}.

(** The key and the zone identifier of the text left of the colon. *)
Definition key_and_tzid (lhs : str) : str * option str :=
  if contains [59] lhs then
    match split1 59 lhs with
    | Some (key, params) =>
      (key, match re_search RE_TZID params with
            | Some m => Some (group params m 1)
            | None => None
            end)
    | None => (lhs, None)
    end
  else (lhs, None).

Definition is_field_key (key : str) : bool :=
  bool_decide (key ∈ [DTSTART; DTEND; SUMMARY; DESCRIPTION; LOCATION]).

(** The part of the loop body that reads a line [key(;params)?:value]
    inside a block and stores a recognized field in [cur]. *)
Definition store_field (cur : gmap str (option str * str)) (line : str)
  : gmap str (option str * str) :=
  if negb (contains [58] line) then cur
  else
    match split1 58 line with
    | None => cur
    | Some (lhs, value) =>
      let '(key, tzid) := key_and_tzid lhs in
      let key := str_upper (strip key) in
      let value := strip value in
      if is_field_key key then <[key := (tzid, value)]> cur else cur
    end.

(** One turn of the loop over the logical lines. *)
Definition parse_line (st : pstate) (line : str) : result pstate :=
  if bool_decide (line = BEGIN_VEVENT) then OK (PState true ∅ (events st))
  else if bool_decide (line = END_VEVENT) then
    if in_event st then
      '(cur', events') ← flush (cur st) (events st);
      OK (PState false cur' events')
    else OK (PState false (cur st) (events st))
  else if negb (in_event st) then OK st
  else OK (PState (in_event st) (store_field (cur st) line) (events st)).

Fixpoint run_lines (lines : list str) (st : pstate) : result pstate :=
  match lines with
  | [] => OK st
  | line :: lines' => st' ← parse_line st line; run_lines lines' st'
  end.

(** The events of the blocks, in the order the blocks are closed. *)
Definition collect_events (ics_text : str) : result (list Event) :=
  st ← run_lines (_unfold_ics_lines ics_text) (PState false ∅ []);
  OK (events st).

(** [events.sort(key=lambda e: e.start)] *)
Definition parse_ics_events (ics_text : str) : result (list Event) :=
  events ← collect_events ics_text;
  OK (list_sort Event (fun a b => datetime_lt (start a) (start b)) events).

(** The loop of [events_in_range]: the start of every event is converted,
    which may raise, before its date is compared. *)
Fixpoint events_in_range (events : list Event) (start_date end_date : Z)
  : result (list Event) :=
  match events with
  | [] => OK []
  | ev :: events' =>
    d ← kyiv_date (start ev);
    out ← events_in_range events' start_date end_date;
    OK (if (start_date <=? d)%Z && (d <=? end_date)%Z then ev :: out else out)
  end.

(** ** Semantic extractors *)

Definition UA_DOW_NAMES : list str := Eval vm_compute in
  map u8 [ "Понеділок"; "Вівторок"; "Середа"; "Четвер"; "Пʼятниця"; "Субота";
           "Неділя" ]%string.

(** [UA_DOW[d]] for a weekday number. *)
Definition UA_DOW (d : Z) : str := nth (Z.to_nat d) UA_DOW_NAMES [].

(** The dictionary [TYPE_WORDS], in the order it is written. *)
Definition TYPE_WORDS : list (str * str) := Eval vm_compute in
  map (fun kv => (u8 (fst kv), u8 (snd kv)))
    [ ("лекція", "Лекція"); ("практич", "Практичне"); ("лаб", "Лабораторна");
      ("семінар", "Семінар") ]%string.

Definition EM_DASH : N := 8212.
Definition HYPHEN : N := 45.

(** [for k, v in words: if k in tail: return v] *)
Fixpoint type_of_tail (words : list (str * str)) (tail : str) : option str :=
  match words with
  | [] => None
  | (k, v) :: words' => if contains k tail then Some v else type_of_tail words' tail
  end.

(** [parts[-1]] and [parts[:-1]] *)
Definition last_part (parts : list str) : str := List.last parts [].
Definition left_parts (parts : list str) : list str := removelast parts.

Definition split_summary (summary : str) : str * option str :=
  let s := strip summary in
  let parts := map strip (split EM_DASH s) in
  match (if (2 <=? length parts)%nat
         then type_of_tail TYPE_WORDS (str_lower (last_part parts))
         else None) with
  | Some v => (strip (join [EM_DASH] (left_parts parts)), Some v)
  | None =>
    let parts2 := map strip (split HYPHEN s) in
    match (if (2 <=? length parts2)%nat
           then type_of_tail TYPE_WORDS (str_lower (last_part parts2))
           else None) with
    | Some v => (strip (join [HYPHEN] (left_parts parts2)), Some v)
    | None => (s, None)
    end
  end.

(** The two code points of a backslash followed by the letter n, and a
    line feed. *)
Definition ESCAPED_NL : str := [92; 110].
Definition NL : str := [10].
Definition ZERO_WIDTH_SPACE : str := [8203].

Definition _normalize_for_links (text : str) : str :=
  match text with
  | [] => []
  | _ => replace ZERO_WIDTH_SPACE [] (replace ESCAPED_NL NL text)
  end.

(** The character class of [URL_RE]:
    A-Z a-z 0-9 - . _ ~ : / ? # [ ] @ ! $ & ' ( ) * + , ; = % *)
Definition URL_CLASS : list (N * N) :=
  [ (65, 90); (97, 122); (48, 57); (45, 45); (46, 46); (95, 95); (126, 126);
    (58, 58); (47, 47); (63, 63); (35, 35); (91, 91); (93, 93); (64, 64);
    (33, 33); (36, 36); (38, 38); (39, 39); (40, 40); (41, 41); (42, 42);
    (43, 43); (44, 44); (59, 59); (61, 61); (37, 37) ].

Definition HTTP : str := Eval vm_compute in u8 "http".
Definition COLON_SLASHES : str := Eval vm_compute in u8 "://".

(** https?://[...]+ compiled with [re.IGNORECASE] *)
Definition URL_RE : regex :=
  Seqs [lits_i HTTP; Opt (lit_i 115); lits_i COLON_SLASHES; Plus (cls_i URL_CLASS)].

Definition ZOOM_US : str := Eval vm_compute in u8 "zoom.us".

Definition extract_zoom_links (text : str) : list str :=
  let t := _normalize_for_links text in
  let links := re_findall URL_RE t in
  let zoom := filter (fun l => contains ZOOM_US (str_lower l) = true) links in
  let rest := filter (fun l => l ∉ zoom) links in
  zoom ++ rest.

(** ^(?:abbr\.?|full)\s*[:\-]?\s*(.+)$ compiled with [re.IGNORECASE] *)
Definition teacher_pattern (names : str * str) : regex :=
  Seqs [ Bol; Alt (Seq (lits_i (fst names)) (Opt (lit_i 46))) (lits_i (snd names));
         Star space; Opt (cls_i [(58, 58); (45, 45)]); Star space;
         Group 1 (Plus any); Eol ].

Definition TEACHER_TITLES : list (str * str) := Eval vm_compute in
  map (fun kv => (u8 (fst kv), u8 (snd kv)))
    [ ("доц", "доцент"); ("викл", "викладач"); ("проф", "професор");
      ("асист", "асистент"); ("Доц", "Доцент"); ("Викл", "Викладач");
      ("Проф", "Професор") ]%string.

Definition teacher_patterns : list regex := map teacher_pattern TEACHER_TITLES.

(** [for pat in patterns: m = re.match(pat, line); if m: return ...] *)
Fixpoint match_patterns (patterns : list regex) (line : str) : option str :=
  match patterns with
  | [] => None
  | pat :: patterns' =>
    match re_match pat line with
    | Some m => Some (strip (group line m 1))
    | None => match_patterns patterns' line
    end
  end.

(** [for line in lines: ...] *)
Fixpoint match_lines (patterns : list regex) (lines : list str) : option str :=
  match lines with
  | [] => None
  | line :: lines' =>
    match match_patterns patterns line with
    | Some t => Some t
    | None => match_lines patterns lines'
    end
  end.

(** [[l.strip() for l in text.splitlines() if l.strip()]] *)
Definition stripped_lines (text : str) : list str :=
  map strip (filter (fun l => strip l ≠ []) (splitlines text)).

Definition extract_teacher (description : str) : option str :=
  match description with
  | [] => None
  | _ =>
    let lines := stripped_lines (replace ESCAPED_NL NL description) in
    match_lines teacher_patterns lines
  end.

Definition PASSCODE_WORDS : list str := Eval vm_compute in
  map u8 [ "Код доступу"; "Код доступа"; "Passcode"; "Пароль" ]%string.

(** (?:Код доступу|Код доступа|Passcode|Пароль)\s*[:\-]?\s*([A-Za-zА-Яа-я0-9\-_]+)
    compiled with [re.IGNORECASE] *)
Definition PASSCODE_RE : regex :=
  Seqs [ Alts (lits_i (nth 0 PASSCODE_WORDS []))
              [lits_i (nth 1 PASSCODE_WORDS []); lits_i (nth 2 PASSCODE_WORDS []);
               lits_i (nth 3 PASSCODE_WORDS [])];
         Star space; Opt (cls_i [(58, 58); (45, 45)]); Star space;
         Group 1 (Plus (cls_i [(65, 90); (97, 122); (1040, 1071); (1072, 1103);
                               (48, 57); (45, 45); (95, 95)])) ].

Definition extract_passcode (description : str) : option str :=
  match description with
  | [] => None
  | _ =>
    let t := replace ESCAPED_NL NL description in
    match re_search PASSCODE_RE t with
    | Some m => Some (strip (group t m 1))
    | None => None
    end
  end.

Definition AUD : str := Eval vm_compute in u8 "ауд".
Definition AUD_DOT : str := Eval vm_compute in u8 "ауд.".
Definition ONLINE : str := Eval vm_compute in u8 "online".
Definition ZOOM : str := Eval vm_compute in u8 "zoom".

(** (ауд\.?\s*\d+) compiled with [re.IGNORECASE] *)
Definition ROOM_RE : regex :=
  Group 1 (Seqs [lits_i AUD; Opt (lit_i 46); Star space; Plus digit]).

Definition LABEL_ONLINE : str := Eval vm_compute in u8 "🌐 Online (Zoom)".
Definition LABEL_ONLINE_ROOM : str := Eval vm_compute in u8 "🌐 Online (Zoom) • 🏫 ".
Definition LABEL_ROOM : str := Eval vm_compute in u8 "🏫 ".
Definition LABEL_PLACE : str := Eval vm_compute in u8 "📍 ".
Definition LABEL_NO_PLACE : str := Eval vm_compute in u8 "📍 (місце не вказано)".

(** [m.group(1).replace('ауд', 'ауд.').strip()] *)
Definition room_text (blob : str) (m : rmatch_obj) : str :=
  strip (replace AUD AUD_DOT (group blob m 1)).

Definition classify_place (location description : str) : str :=
  let blob := str_lower (location ++ NL ++ description) in
  if contains ONLINE blob || contains ZOOM blob then
    match re_search ROOM_RE blob with
    | Some m => LABEL_ONLINE_ROOM ++ room_text blob m
    | None => LABEL_ONLINE
    end
  else
    match re_search ROOM_RE blob with
    | Some m2 => LABEL_ROOM ++ room_text blob m2
    | None =>
      match strip location with
      | _ :: _ => LABEL_PLACE ++ strip location
      | [] => LABEL_NO_PLACE
      end
    end.

(** ** Message composer *)

Definition hhmm (t : datetime) : result str :=
  k ← astimezone t KYIV_TZ; OK (strftime_HM (wall k)).

Definition DAY_HEADER_1 : str := Eval vm_compute in u8 "📅 <b>".
Definition DAY_HEADER_2 : str := Eval vm_compute in u8 "</b> • <b>".
Definition BOLD_END : str := Eval vm_compute in u8 "</b>".

Definition day_header (d : Z) : str :=
  let dow := UA_DOW (weekday d) in
  DAY_HEADER_1 ++ dow ++ DAY_HEADER_2 ++ fmt_date_short d ++ BOLD_END.

Definition separator : str := Eval vm_compute in u8 "━━━━━━━━━━━━━━━━━━━━".

Definition AMP : str := Eval vm_compute in u8 "&amp;".
Definition LT : str := Eval vm_compute in u8 "&lt;".
Definition GT : str := Eval vm_compute in u8 "&gt;".
Definition QUOT : str := Eval vm_compute in u8 "&quot;".

Definition escape_html (s : str) : str :=
  replace [62] GT (replace [60] LT (replace [38] AMP s)).

Definition escape_html_attr (s : str) : str := replace [34] QUOT (escape_html s).

Definition NO_PAIRS : str := Eval vm_compute in u8 "— (пар немає)".
Definition TIME_1 : str := Eval vm_compute in u8 "🕒 <b>".
Definition EN_DASH : str := Eval vm_compute in u8 "–".
Definition BOOK_1 : str := Eval vm_compute in u8 "📚 <b>".
Definition TYPE_1 : str := Eval vm_compute in u8 "🎓 ".
Definition TEACHER_1 : str := Eval vm_compute in u8 "👩‍🏫 ".
Definition LINK_1 : str := Eval vm_compute in u8 "🔗 <a href=".
Definition LINK_2 : str := Eval vm_compute in u8 ">Відкрити Zoom</a>".
Definition CODE_1 : str := Eval vm_compute in u8 "📎 <code>".
Definition CODE_2 : str := Eval vm_compute in u8 "</code>".
Definition PASS_1 : str := Eval vm_compute in u8 "🔑 Код доступу: <b>".

(** The lines [format_day] appends for one event; the two clock texts are
    the only parts that may raise. *)
Definition event_lines (ev : Event) : result (list str) :=
  let '(discipline, etype) := split_summary (summary ev) in
  let teacher := extract_teacher (description ev) in
  let passcode := extract_passcode (description ev) in
  let place := classify_place (location ev) (description ev) in
  let links := extract_zoom_links (description ev ++ NL ++ location ev) in
  let link := head links in
  t_start ← hhmm (start ev);
  t_end ← hhmm (end_ ev);
  OK (
  [TIME_1 ++ t_start ++ EN_DASH ++ t_end ++ BOLD_END]
  ++ [BOOK_1 ++ escape_html discipline ++ BOLD_END]
  ++ match etype with Some (c :: t) => [TYPE_1 ++ c :: t] | _ => [] end
  ++ match teacher with Some (c :: t) => [TEACHER_1 ++ escape_html (c :: t)] | _ => [] end
  ++ [escape_html place]
  ++ match link with
     | Some (c :: t) =>
       let href := escape_html_attr (c :: t) in
       [LINK_1 ++ [34] ++ href ++ [34] ++ LINK_2;
        CODE_1 ++ escape_html (c :: t) ++ CODE_2]
     | _ => []
     end
  ++ match passcode with
     | Some (c :: t) => [PASS_1 ++ escape_html (c :: t) ++ BOLD_END]
     | _ => []
     end
  ++ [[]]).

(** [for ev in events: ...]: the lines of the events one after another. *)
Fixpoint events_lines (events : list Event) : result (list str) :=
  match events with
  | [] => OK []
  | ev :: events' =>
    lines ← event_lines ev;
    more ← events_lines events';
    OK (lines ++ more)
  end.

(** [while lines and lines[-1] == "": lines.pop()] *)
Fixpoint drop_blank_head (lines : list str) : list str :=
  match lines with
  | [] :: lines' => drop_blank_head lines'
  | _ => lines
  end.

Definition pop_blank_lines (lines : list str) : list str :=
  rev (drop_blank_head (rev lines)).

Definition format_day (events : list Event) (day : Z) : result str :=
  let lines := [day_header day; []] in
  match events with
  | [] => OK (join NL (lines ++ [NO_PAIRS]))
  | _ =>
    more ← events_lines events;
    OK (join NL (pop_blank_lines (lines ++ more)))
  end.

Definition WEEK_1 : str := Eval vm_compute in u8 "🗓️ <b>Розклад на тиждень</b>".
Definition BOLD_START : str := Eval vm_compute in u8 "<b>".
Definition WEEK_DASH : str := Eval vm_compute in u8 " – ".
Definition UPDATED : str := Eval vm_compute in u8 "⏱️ Оновлено: ".

(** The calendar days [start_day + timedelta(days=i)] for [i] in
    [range((end_day - start_day).days + 1)]. *)
Definition week_days (start_day end_day : Z) : list Z :=
  map (fun i => (start_day + Z.of_nat i)%Z) (seq 0 (Z.to_nat (end_day - start_day + 1))).

(** [by_day[...].append(ev)]: the start is converted, which may raise, and
    subscripting raises for a missing key. *)
Definition bucket (by_day : gmap Z (list Event)) (ev : Event)
  : result (gmap Z (list Event)) :=
  d ← kyiv_date (start ev);
  match by_day !! d with
  | Some evs => OK (<[d := evs ++ [ev]]> by_day)
  | None => Raise KeyError
  end.

Fixpoint bucket_all (by_day : gmap Z (list Event)) (events : list Event)
  : result (gmap Z (list Event)) :=
  match events with
  | [] => OK by_day
  | ev :: events' => by_day' ← bucket by_day ev; bucket_all by_day' events'
  end.

(** [for d in by_day.keys(): blocks.append(separator());
    blocks.append(format_day(by_day[d], d))] *)
Fixpoint day_blocks (by_day : gmap Z (list Event)) (days : list Z)
  : result (list str) :=
  match days with
  | [] => OK []
  | d :: days' =>
    block ← format_day (default [] (by_day !! d)) d;
    more ← day_blocks by_day days';
    OK (separator :: block :: more)
  end.

(** [now] is the value of [now_kyiv()], the reading of the clock. *)
Definition format_week_message (now : datetime) (events : list Event)
  (start_day end_day : Z) : result str :=
  let header :=
    WEEK_1 ++ NL ++ BOLD_START ++ fmt_date_short start_day ++ WEEK_DASH
    ++ fmt_date_short end_day ++ BOLD_END ++ NL ++ NL in
  let days := week_days start_day end_day in
  let by_day : gmap Z (list Event) := list_to_map (map (fun d => (d, [])) days) in
  by_day ← bucket_all by_day events;
  days_blocks ← day_blocks by_day days;
  let blocks := days_blocks ++ [separator] in
  OK (header ++ join NL blocks ++ NL ++ NL ++ UPDATED
      ++ strftime_HM (wall now)).

End Bot.

(** ** Tables for evaluation *)

(** An excerpt of the Unicode database: Latin-1, the Cyrillic letters
    U+0400 to U+045F with U+0490 and U+0491, the Arabic-Indic digits, and
    the four letters beyond ASCII whose case forms are ASCII letters
    (U+0130, U+0131, U+017F, U+212A).  Other code points are left as they
    are. *)
Definition ucd_tolower_ext (c : N) : N :=
  if (0xC0 <=? c) && (c <=? 0xDE) && negb (c =? 0xD7) then c + 32
  else if c =? 0x130 then 0x69
  else if (0x400 <=? c) && (c <=? 0x40F) then c + 80
  else if (0x410 <=? c) && (c <=? 0x42F) then c + 32
  else if c =? 0x490 then 0x491
  else if c =? 0x212A then 0x6B
  else c.

Definition ucd_toupper_ext (c : N) : N :=
  if c =? 0xB5 then 0x39C
  else if (0xE0 <=? c) && (c <=? 0xFE) && negb (c =? 0xF7) then c - 32
  else if c =? 0xFF then 0x178
  else if c =? 0x131 then 0x49
  else if c =? 0x17F then 0x53
  else if (0x430 <=? c) && (c <=? 0x44F) then c - 32
  else if (0x450 <=? c) && (c <=? 0x45F) then c - 80
  else if c =? 0x491 then 0x490
  else c.

Definition ucd_decimal_ext (c : N) : option N :=
  if (0x660 <=? c) && (c <=? 0x669) then Some (c - 0x660) else None.

Definition ucd_str_lower (s : str) : str :=
  flat_map (fun c =>
    if c =? 0x130 then [0x69; 0x307]
    else if c <? 128 then [if (65 <=? c) && (c <=? 90) then c + 32 else c]
    else [ucd_tolower_ext c]) s.

Definition ucd_str_upper (s : str) : str :=
  flat_map (fun c =>
    if c =? 0xDF then [0x53; 0x53]
    else if c <? 128 then [if (97 <=? c) && (c <=? 122) then c - 32 else c]
    else [ucd_toupper_ext c]) s.

Definition ucd : Unicode := {|
  tolower_ext := ucd_tolower_ext;
  toupper_ext := ucd_toupper_ext;
  decimal_ext := ucd_decimal_ext;
  str_lower := ucd_str_lower;
  str_upper := ucd_str_upper
|}.

Definition WARSAW_KEY : str := Eval vm_compute in u8 "Europe/Warsaw".

(** An excerpt of the time-zone database: the zones of Kyiv and Warsaw.
    It is exact for local mean time, before 1880, and for the years from
    1997 on, in which both zones keep the summer time of the European
    Union; the years between are given the standard offset.  Both zones
    set their clocks at 01:00 UTC of the last Sunday of March and of
    October. *)
Local Open Scope Z_scope.

Definition last_sunday (year month : Z) : Z :=
  let d := ymd2ord year month 31 in d - (weekday d + 1) mod 7.

Definition summer_start (year : Z) : Z := last_sunday year 3 * 86400 + 3600.
Definition summer_end (year : Z) : Z := last_sunday year 10 * 86400 + 3600.

Definition year_of (w : Z) : Z := fst (fst (ord2ymd (w / 86400))).

(** Local mean time and standard time of a zone of the excerpt. *)
Definition zone_lmt (key : str) : Z :=
  if bool_decide (key = KYIV_KEY) then 7324 else 5040.

Definition zone_std (key : str) : Z :=
  if bool_decide (key = KYIV_KEY) then 7200 else 3600.

(** The offset at a UTC time. *)
Definition excerpt_offset_at (key : str) (u : Z) : Z :=
  let y := year_of u in
  if y <? 1880 then zone_lmt key
  else if (1997 <=? y) && (summer_start y <=? u) && (u <? summer_end y)
       then zone_std key + 3600
       else zone_std key.

(** The hour after the clocks are set back is read a second time. *)
Definition excerpt_fold_at (key : str) (u : Z) : bool :=
  let y := year_of u in
  (1997 <=? y) && (summer_end y <=? u) && (u <? summer_end y + 3600).

(** The offset of a wall-clock time.  In the hour that is skipped and in
    the hour that is repeated, [fold] 0 gives the offset in force before the
    clocks are set and [fold] 1 the offset in force after. *)
Definition excerpt_utcoffset (key : str) (w : Z) (fold : bool) : Z :=
  let y := year_of w in
  if y <? 1880 then zone_lmt key
  else
    let shift := zone_std key + (if fold then 0 else 3600) in
    if (1997 <=? y) && (summer_start y + shift <=? w) && (w <? summer_end y + shift)
    then zone_std key + 3600
    else zone_std key.

(** [ZoneInfo(key)] refuses a key with an empty component, [.] or [..]
    (an absolute or a non-normalized path), and does not find a key outside
    the excerpt. *)
Definition excerpt_missing (key : str) : option error :=
  if bool_decide (key = KYIV_KEY) || bool_decide (key = WARSAW_KEY) then None
  else if existsb (fun part => bool_decide (part ∈ [[]; [46%N]; [46%N; 46%N]]))
            (split 47 key)
       then Some ValueError
       else Some ZoneInfoNotFound.

Definition tzdata : TzDatabase := {|
  zone_missing := excerpt_missing;
  zone_utcoffset := excerpt_utcoffset;
  zone_offset_at := excerpt_offset_at;
  zone_fold_at := excerpt_fold_at
|}.

Local Open Scope N_scope.

(** A sort for evaluation: insertion from the left, each item put before
    the first item it is less than.  It keeps the promises of [Sorter]. *)
Fixpoint insert_lt {A : Type} (lt : A → A → bool) (x : A) (l : list A) : list A :=
  match l with
  | [] => [x]
  | y :: l' => if lt x y then x :: l else y :: insert_lt lt x l'
  end.

Definition insertion_sort (A : Type) (lt : A → A → bool) (l : list A) : list A :=
  foldl (λ sorted x, insert_lt lt x sorted) [] l.

Definition insertion : Sorter.
Proof.
  refine {| list_sort := insertion_sort |}.
  - intros A lt l. unfold insertion_sort.
    assert (Hins : ∀ x s, insert_lt lt x s ≡ₚ x :: s).
    { intros x s. induction s as [|y s IH]; cbn; [done|].
      destruct (lt x y); [done|]. rewrite IH. apply Permutation_swap. }
    assert (Hfold : ∀ l' acc,
      foldl (λ sorted x, insert_lt lt x sorted) acc l' ≡ₚ acc ++ l').
    { induction l' as [|x l' IH]; intros acc; cbn; [by rewrite app_nil_r|].
      rewrite IH, Hins. apply Permutation_middle. }
    apply (Hfold l []).
  - intros A lt key l Hkey. unfold insertion_sort, sort_by.
    assert (Hins : ∀ x s, (∀ y, y ∈ s → lt x y = (key x <? key y)%Z) →
                          insert_lt lt x s = insert_by key x s).
    { intros x s. induction s as [|y s IH]; intros Hx; cbn; [done|].
      rewrite (Hx y) by left. destruct (key x <? key y)%Z; [done|].
      rewrite IH; [done|]. intros z Hz. apply Hx. by right. }
    assert (Hperm : ∀ x s, insert_by key x s ≡ₚ x :: s).
    { intros x s. induction s as [|y s IH]; cbn; [done|].
      destruct (key x <? key y)%Z; [done|]. rewrite IH. apply Permutation_swap. }
    assert (Hfold : ∀ l' acc,
      (∀ a b, a ∈ acc ++ l' → b ∈ acc ++ l' → lt a b = (key a <? key b)%Z) →
      foldl (λ sorted x, insert_lt lt x sorted) acc l'
      = foldl (λ sorted x, insert_by key x sorted) acc l').
    { induction l' as [|x l' IH]; intros acc Hagree; cbn; [done|].
      rewrite Hins.
      - apply IH. intros a b Ha Hb.
        apply Hagree; rewrite elem_of_app, elem_of_cons;
          [apply elem_of_app in Ha as [Ha|Ha]|apply elem_of_app in Hb as [Hb|Hb]];
          try (rewrite Hperm in Ha); try (rewrite Hperm in Hb);
          try (apply elem_of_cons in Ha as [->|Ha]);
          try (apply elem_of_cons in Hb as [->|Hb]); tauto.
      - intros y Hy. apply Hagree; rewrite elem_of_app, elem_of_cons; tauto. }
    apply (Hfold l []). exact Hkey.
Defined.

(** ** Inputs for evaluation *)

(** A feed with two blocks that start at the same instant, written in two
    zones, followed by an earlier block. *)
Definition FEED_TIES : str := Eval vm_compute in u8
"BEGIN:VCALENDAR
BEGIN:VEVENT
DTSTART;TZID=Europe/Kyiv:20240304T090000
DTEND;TZID=Europe/Kyiv:20240304T103000
SUMMARY:Математика — Лекція
END:VEVENT
BEGIN:VEVENT
DTSTART;TZID=Europe/Warsaw:20240304T080000
DTEND;TZID=Europe/Warsaw:20240304T093000
SUMMARY:Фізика — Практичне
END:VEVENT
BEGIN:VEVENT
DTSTART:20240304T060000Z
DTEND:20240304T063000Z
SUMMARY:Історія
END:VEVENT
END:VCALENDAR
".

(** The lines of a block with a start, an end and a title. *)
Definition BODY_LECTURE : list str := Eval vm_compute in
  map u8 [ "DTSTART;TZID=Europe/Kyiv:20240304T090000";
           "DTEND;TZID=Europe/Kyiv:20240304T103000";
           "SUMMARY:Математика — Лекція" ]%string.

(** The lines of a block whose start value is not in a format of the feed. *)
Definition BODY_MALFORMED : list str := Eval vm_compute in
  map u8 [ "DTSTART:2024-03-04 09:00"; "DTEND:20240304T103000";
           "SUMMARY:Математика — Лекція" ]%string.

Definition TOKEN_ISO_UTC : str := Eval vm_compute in u8 "2024-03-05T10:00:00Z".
Definition TOKEN_FEB_30 : str := Eval vm_compute in u8 "20240230".
Definition TOKEN_DATE : str := Eval vm_compute in u8 "20240305".
Definition TOKEN_LOCAL_PADDED : str := Eval vm_compute in u8 " 20240304T080000 ".
Definition TOKEN_LAST_SECOND_UTC : str := Eval vm_compute in u8 "99991231T235959Z".
Definition UNKNOWN_KEY : str := Eval vm_compute in u8 "Mars/Olympus".

(** A link followed, without a blank, by a Turkish word that starts with the
    dotless i (U+0131). *)
Definition TEXT_LINK_TURKISH : str := Eval vm_compute in u8 "https://zoom.us/j/123ışık".
Definition LINK_WITH_DOTLESS_I : str := Eval vm_compute in u8 "https://zoom.us/j/123ı".

(** A description whose first line starts with a zero-width space. *)
Definition DESCRIPTION_ZERO_WIDTH : str := Eval vm_compute in
  8203 :: u8 "Доц. Іванов".
Definition TEACHER_IVANOV : str := Eval vm_compute in u8 "Іванов".

Definition LOCATION_PADDED : str := Eval vm_compute in u8 " каб. 5".

Definition SUMMARY_LECTURE : str := Eval vm_compute in u8 "Математика — Лекція".

(** What the parser returns for [FEED_TIES]. *)
Definition EVENTS_TIES : list Event := Eval vm_compute in
  match @parse_ics_events ucd tzdata insertion FEED_TIES with
  | OK out => out
  | Raise _ => []
  end.

(** A feed with two blocks in the order of their start instants, 00:45 UTC
    and 01:30 UTC of 27 October 2024: Kyiv sets its clocks back from 04:00
    to 03:00 at 01:00 UTC of that day, so the wall-clock times in Kyiv are
    03:45 and, read a second time, 03:30. *)
Definition FEED_REPEATED_HOUR : str := Eval vm_compute in u8
"BEGIN:VEVENT
DTSTART:20241027T004500Z
DTEND:20241027T005000Z
SUMMARY:A
END:VEVENT
BEGIN:VEVENT
DTSTART:20241027T013000Z
DTEND:20241027T013500Z
SUMMARY:B
END:VEVENT
".

Definition EVENTS_REPEATED_HOUR : list Event := Eval vm_compute in
  match @parse_ics_events ucd tzdata insertion FEED_REPEATED_HOUR with
  | OK out => out
  | Raise _ => []
  end.

(** A feed with one block that starts on Monday 4 March 2024 and whose end
    is the first day of the year 1 in Warsaw. *)
Definition FEED_END_YEAR_ONE : str := Eval vm_compute in u8
"BEGIN:VEVENT
DTSTART:20240304T090000
DTEND;TZID=Europe/Warsaw:00010101
SUMMARY:A
END:VEVENT
".

Definition EVENTS_END_YEAR_ONE : list Event := Eval vm_compute in
  match @parse_ics_events ucd tzdata insertion FEED_END_YEAR_ONE with
  | OK out => out
  | Raise _ => []
  end.

(** ** Vocabulary of the specification *)

(** The order on the sort key. *)
Definition key_le {A : Type} (key : A → Z) (a b : A) : Prop := (key a <= key b)%Z.

(** The three shapes of a date/time token, written from the numbers they
    stand for: YYYYMMDD, YYYYMMDDTHHMMSS and YYYYMMDDTHHMMSSZ in ASCII
    digits. *)
Definition four_digits (n : Z) : str :=
  [48 + Z.to_N (n / 1000 mod 10); 48 + Z.to_N (n / 100 mod 10);
   48 + Z.to_N (n / 10 mod 10); 48 + Z.to_N (n mod 10)].

Definition date_token (y m d : Z) : str :=
  four_digits y ++ two_digits m ++ two_digits d.

Definition local_token (y m d hh mm ss : Z) : str :=
  four_digits y ++ two_digits m ++ two_digits d ++ [84]
  ++ two_digits hh ++ two_digits mm ++ two_digits ss.

Definition utc_token (y m d hh mm ss : Z) : str :=
  four_digits y ++ two_digits m ++ two_digits d ++ [84]
  ++ two_digits hh ++ two_digits mm ++ two_digits ss ++ [90].

Definition valid_date (y m d : Z) : Prop :=
  (1 <= y <= 9999 ∧ 1 <= m <= 12 ∧ 1 <= d <= days_in_month y m)%Z.

Definition valid_time (hh mm ss : Z) : Prop :=
  (0 <= hh <= 23 ∧ 0 <= mm <= 59 ∧ 0 <= ss <= 59)%Z.

(** The wall-clock time of a calendar date and a time of day. *)
Definition wall_of (y m d hh mm ss : Z) : Z :=
  (ymd2ord y m d * 86400 + hh * 3600 + mm * 60 + ss)%Z.

Section NormalizerSpec.
Context `{TzDatabase}.

(** The zone a token is read in: the zone of the identifier given, which the
    database must find, or Kyiv when none is given. *)
Inductive given_zone : option str → tzinfo → Prop :=
| given_zone_none :
    given_zone None KYIV_TZ
| given_zone_empty :
    given_zone (Some []) KYIV_TZ
| given_zone_key key :
    key ≠ [] → zone_missing key = None → given_zone (Some key) (Zone key).

(** A wall-clock time of the years 1 to 9999. *)
Definition representable (w : Z) : bool := (MIN_WALL <=? w)%Z && (w <=? MAX_WALL)%Z.

(** The instant of a datetime read in Kyiv, as the specification has it:
    a datetime of the Kyiv zone is left as it is; of another, the UTC time
    of its instant is taken and the offset of Kyiv at that time added, and
    there is no result when the UTC time or the Kyiv time leaves the years
    1 to 9999. *)
Definition in_kyiv (d : datetime) : result datetime :=
  if decide (tz d = KYIV_TZ) then OK d
  else
    let u := instant d in
    let w := (u + zone_offset_at KYIV_KEY u)%Z in
    if representable u && representable w
    then OK (mkDT w KYIV_TZ (zone_fold_at KYIV_KEY u))
    else Raise OverflowError.

(** [normalizes token tzid r]: what the trimmed token [token], with the
    optional zone identifier [tzid], stands for. *)
Inductive normalizes : str → option str → result datetime → Prop :=
| normalizes_date y m d tzid z :
    valid_date y m d → given_zone tzid z →
    normalizes (date_token y m d) tzid (OK (DateTime (wall_of y m d 0 0 0) z))
| normalizes_utc y m d hh mm ss tzid :
    valid_date y m d → valid_time hh mm ss →
    normalizes (utc_token y m d hh mm ss) tzid
      (in_kyiv (DateTime (wall_of y m d hh mm ss) Utc))
| normalizes_local y m d hh mm ss tzid z :
    valid_date y m d → valid_time hh mm ss → given_zone tzid z →
    normalizes (local_token y m d hh mm ss) tzid
      (in_kyiv (DateTime (wall_of y m d hh mm ss) z)).

End NormalizerSpec.

Section ExtractorSpec.
Context `{Unicode}.

(** [first_stem words tail v]: [v] is the label of the first stem of the
    table, in its order, that occurs in [tail]. *)
Inductive first_stem : list (str * str) → str → str → Prop :=
| first_stem_here k v words tail :
    contains k tail = true →
    first_stem ((k, v) :: words) tail v
| first_stem_later k v words tail v' :
    contains k tail = false →
    first_stem words tail v' →
    first_stem ((k, v) :: words) tail v'.

Definition no_stem (words : list (str * str)) (tail : str) : Prop :=
  Forall (λ kv, contains (fst kv) tail = false) words.

(** [splits_at sep s o]: the outcome [o] of trying the separator [sep] on
    the trimmed title [s].  The parts are trimmed; the attempt succeeds when
    there are at least two of them and the last one, lowercased, contains a
    stem. *)
Inductive splits_at (sep : N) (s : str) : option (str * str) → Prop :=
| splits_found v :
    (2 <= length (split sep s))%nat →
    first_stem TYPE_WORDS (str_lower (last_part (map strip (split sep s)))) v →
    splits_at sep s
      (Some (strip (join [sep] (left_parts (map strip (split sep s)))), v))
| splits_single :
    (length (split sep s) < 2)%nat →
    splits_at sep s None
| splits_no_stem :
    no_stem TYPE_WORDS (str_lower (last_part (map strip (split sep s)))) →
    splits_at sep s None.

(** The summary split as the specification words it: the title is split on
    the separator and the parts are used as they are. *)
Definition split_attempt_spec (sep : N) (title : str) : option (str * str) :=
  let parts := split sep title in
  if (2 <=? length parts)%nat then
    match type_of_tail TYPE_WORDS (str_lower (last_part parts)) with
    | Some v => Some (join [sep] (left_parts parts), v)
    | None => None
    end
  else None.

Definition split_summary_spec (title : str) : str * option str :=
  match split_attempt_spec EM_DASH title with
  | Some (discipline, v) => (discipline, Some v)
  | None =>
    match split_attempt_spec HYPHEN title with
    | Some (discipline, v) => (discipline, Some v)
    | None => (title, None)
    end
  end.

(** The strict character set of a link: the ASCII letters and digits and
    the ASCII punctuation of [URL_CLASS]. *)
Definition url_char (c : N) : bool := in_ranges URL_CLASS c.

(** Teacher detection as the specification words it: zero-width spaces are
    taken out of the description together with the escaped line breaks. *)
Definition extract_teacher_spec (description : str) : option str :=
  match description with
  | [] => None
  | _ =>
    match_lines teacher_patterns
      (stripped_lines (replace ZERO_WIDTH_SPACE [] (replace ESCAPED_NL NL description)))
  end.

(** The two tests of place classification on the lowercased text. *)
Definition online_hint (blob : str) : bool :=
  contains ONLINE blob || contains ZOOM blob.

Definition room_of (blob : str) : option str :=
  match re_search ROOM_RE blob with
  | Some m => Some (room_text blob m)
  | None => None
  end.

End ExtractorSpec.

(** ** Further inputs for evaluation *)

(** A title with two em-dashes, what the splitter returns for it, and what
    rejoining the parts as they are would give. *)
Definition TITLE_TWO_DASHES : str := Eval vm_compute in u8 "Фізика — 2 курс — Лекція".
Definition DISCIPLINE_TRIMMED : str := Eval vm_compute in u8 "Фізика—2 курс".
Definition DISCIPLINE_AS_WRITTEN : str := Eval vm_compute in u8 "Фізика — 2 курс ".

Definition DISCIPLINE_MATH : str := Eval vm_compute in u8 "Математика".
Definition TYPE_LECTURE : str := Eval vm_compute in u8 "Лекція".

(** A description with an online hint and a room number, and the room text
    the classifier makes of it. *)
Definition DESCRIPTION_ZOOM_ROOM : str := Eval vm_compute in u8 "Zoom (ауд. 207)".
Definition ROOM_207 : str := Eval vm_compute in u8 "ауд.. 207".

(** Sunday 3 March 2024, 18:00 in Kyiv, and the Monday and the Tuesday
    after it. *)
Definition NOW_SUNDAY : datetime := DateTime (wall_of 2024 3 3 18 0 0) KYIV_TZ.
Definition MONDAY : Z := Eval vm_compute in ymd2ord 2024 3 4.
Definition TUESDAY : Z := Eval vm_compute in ymd2ord 2024 3 5.

(** ** Vocabulary of the further properties *)

(** *** Feeds as they are written *)

Definition CRLF : str := [13; 10].

Definition no_linebreak (s : str) : Prop := Forall (λ c, is_linebreak c = false) s.

(** The test of the reassembler for a continuation line. *)
Definition is_continuation (line : str) : bool :=
  startswith [32] line || startswith [9] line.

(** A logical line written on several physical lines: the first chunk as it
    is, every further chunk behind the code point [lead]. *)
Definition fold_line (lead : N) (chunks : str * list str) : list str :=
  fst chunks :: map (cons lead) (snd chunks).

(** Physical lines written out, each followed by the line end [eol]. *)
Definition write_lines (eol : str) (lines : list str) : str :=
  flat_map (λ l, l ++ eol) lines.

(** A text that [strip] leaves as it is. *)
Definition trimmed (s : str) : Prop := strip s = s.

(** *** Escaping, one code point at a time *)

Definition escape_char (c : N) : str :=
  if c =? 38 then AMP else if c =? 60 then LT else if c =? 62 then GT else [c].

Definition escape_attr_char (c : N) : str :=
  if c =? 34 then QUOT else escape_char c.

(** *** What a pattern can read *)

(** [chars_in Q r]: every code point that [r] accepts satisfies [Q]. *)
Fixpoint chars_in (Q : N → Prop) (r : regex) : Prop :=
  match r with
  | Chr p => ∀ c, p c = true → Q c
  | Seq r1 r2 | Alt r1 r2 => chars_in Q r1 ∧ chars_in Q r2
  | Opt r1 | Star r1 | Group _ r1 => chars_in Q r1
  | Eps | Bol | Eol => True
  end.

(** [reads Q s s']: the matcher went from [s] to [s'] over code points that
    satisfy [Q]. *)
Definition reads (Q : N → Prop) (s s' : mstate) : Prop :=
  ∃ w, m_rest s = w ++ m_rest s' ∧ m_pos s' = (m_pos s + length w)%nat ∧ Forall Q w.

(** A code point of the class of [URL_RE], or one of the two lowercase
    letters beyond ASCII that the class takes in when case is ignored. *)
Definition url_or_dotless (x : N) : Prop := url_char x = true ∨ x = 305 ∨ x = 383.

Section LinkSpec.
Context `{Unicode}.

Definition link_char (c : N) : Prop := url_or_dotless (tolower c).

(** The test of the comprehension that picks the Zoom links. *)
Definition is_zoom_link (l : str) : Prop := contains ZOOM_US (str_lower l) = true.

#[global] Instance is_zoom_link_dec (l : str) : Decision (is_zoom_link l).
Proof. unfold is_zoom_link. apply _. Defined.

End LinkSpec.

Section ComposerSpec.
Context `{TzDatabase}.

(** The events that start, in Kyiv time, on the day [d]. *)
Definition day_events (events : list Event) (d : Z) : list Event :=
  filter (λ ev, kyiv_date (start ev) = OK d) events.

(** An event whose start can be read in Kyiv time, and one whose start and
    end both can. *)
Definition start_converts (ev : Event) : Prop :=
  ∃ d, kyiv_date (start ev) = OK d.

Definition times_convert (ev : Event) : Prop :=
  (∃ k, astimezone (start ev) KYIV_TZ = OK k)
  ∧ (∃ k, astimezone (end_ ev) KYIV_TZ = OK k).

(** An event that starts, in Kyiv time, on a day from [start_day] to
    [end_day]. *)
Definition starts_within (start_day end_day : Z) (ev : Event) : Prop :=
  ∃ d, kyiv_date (start ev) = OK d ∧ (start_day <= d <= end_day)%Z.

#[global] Instance starts_within_dec (start_day end_day : Z) (ev : Event) :
  Decision (starts_within start_day end_day ev).
Proof.
  unfold starts_within. destruct (kyiv_date (start ev)) as [d|e].
  - destruct (decide (start_day <= d <= end_day)%Z) as [Hd|Hd].
    + left. by exists d.
    + right. intros (d' & [= <-] & Hd'). contradiction.
  - right. by intros (d' & [=] & _).
Defined.

End ComposerSpec.

(** An event whose three texts are trimmed. *)
Definition event_trimmed (ev : Event) : Prop :=
  trimmed (summary ev) ∧ trimmed (description ev) ∧ trimmed (location ev).

Section ComposerBlocks.
Context `{Unicode} `{TzDatabase}.

(** The first two lines of the week message. *)
Definition week_header (start_day end_day : Z) : str :=
  WEEK_1 ++ NL ++ BOLD_START ++ fmt_date_short start_day ++ WEEK_DASH
  ++ fmt_date_short end_day ++ BOLD_END ++ NL ++ NL.

End ComposerBlocks.

Section CaseSpec.
Context `{Unicode}.

(** An uppercase letter and its lowercase form, as the tables of Unicode
    pair them. *)
Definition case_pair (upper lower : N) : Prop :=
  upper ≠ lower ∧ tolower upper = lower ∧ tolower lower = lower
  ∧ toupper lower ≠ lower.

End CaseSpec.

(** ** Inputs for the further properties *)

(** Two logical lines, the first one written on three physical lines. *)
Definition FOLDED_LINES : list (str * list str) := Eval vm_compute in
  [ (u8 "SUMMARY:Мате", [u8 "матика"; u8 " — Лекція"]);
    (u8 "END:VEVENT", []) ].

(** A feed whose opening marker is followed by a blank. *)
Definition FEED_MARKER_BLANK : str := Eval vm_compute in u8
"BEGIN:VEVENT 
DTSTART:20240304T090000
DTEND:20240304T103000
SUMMARY:Математика — Лекція
END:VEVENT
".

(** A feed of one block, and the same feed followed by a block that is
    opened, holds a malformed start value and is not closed. *)
Definition FEED_LECTURE : str := Eval vm_compute in
  join NL (BEGIN_VEVENT :: BODY_LECTURE ++ [END_VEVENT]).

Definition FEED_OPEN_BLOCK : str := Eval vm_compute in
  FEED_LECTURE ++ NL ++ join NL (BEGIN_VEVENT :: BODY_MALFORMED).

(** A feed of two blocks in the order of their start instants, with blanks
    around the texts. *)
Definition FEED_TWO_DAYS : str := Eval vm_compute in u8
"BEGIN:VEVENT
DTSTART:20240304T090000
DTEND:20240304T103000
SUMMARY:  Математика — Лекція  
LOCATION: ауд. 207 
END:VEVENT
BEGIN:VEVENT
DTSTART:20240305T090000
DTEND:20240305T103000
SUMMARY:Фізика - лаб
END:VEVENT
".

Definition EVENTS_TWO_DAYS : list Event := Eval vm_compute in
  match @collect_events ucd tzdata FEED_TWO_DAYS with
  | OK out => out
  | Raise _ => []
  end.

Definition TOKEN_UTC : str := Eval vm_compute in u8 "20240305T100000Z".

(** A link with a zero-width space inside, and a link with ampersands. *)
Definition ZOOM_LINK_START : str := Eval vm_compute in u8 "see https://zoom.us/j/1".
Definition ZOOM_LINK_END : str := Eval vm_compute in u8 "23 today".

Definition TEXT_LINK_ZERO_WIDTH : str := Eval vm_compute in
  ZOOM_LINK_START ++ ZERO_WIDTH_SPACE ++ ZOOM_LINK_END.

Definition LINK_WITH_AMPERSAND : str := Eval vm_compute in
  u8 "https://zoom.us/j/123?pwd=abc&uname=x".

Definition DESCRIPTION_TEACHER : str := Eval vm_compute in
  u8 "Zoom: 123\nВикл.: Руденко А.В.".
Definition TEACHER_RUDENKO : str := Eval vm_compute in u8 "Руденко А.В.".

(** * Properties *)

(** ** Dedupe gate *)

Lemma should_post_true (state : gmap str str) (key stamp : str) :
  should_post state key stamp = true ↔ state !! key ≠ Some stamp.
Proof.
  unfold should_post. cbv zeta. rewrite negb_true_iff, bool_decide_eq_false. done.
Qed.

(** C1. The gate answers true exactly when the stamp stored under the key
    differs from the fresh stamp, a missing stamp included; so it answers
    true on the empty state, and false once the stamp has been marked as
    posted. *)
Theorem should_post_dedupe (state : gmap str str) (key stamp : str) :
  (should_post state key stamp = true ↔ state !! key ≠ Some stamp)
  ∧ (state !! key = None → should_post state key stamp = true)
  ∧ should_post ∅ key stamp = true
  ∧ should_post (mark_posted state key stamp) key stamp = false.
Proof.
  split; [apply should_post_true|]. split; [|split].
  - intros Hnone. apply should_post_true. rewrite Hnone. done.
  - apply should_post_true. rewrite lookup_empty. done.
  - apply not_true_is_false. rewrite should_post_true.
    unfold mark_posted. rewrite lookup_insert_eq. intros Hne. by apply Hne.
Qed.

(** ** Folded-line reassembler *)

Lemma nonempty_snoc {A : Type} (l : list A) :
  l ≠ [] → ∃ before x, l = before ++ [x].
Proof.
  destruct l as [|a l'] using rev_ind; [done|]. intros _. eauto.
Qed.

Lemma unfold_step_folds (out : list str) (line : str) :
  folds out line (unfold_step out line).
Proof.
  unfold unfold_step. destruct line as [|c rest].
  - rewrite bool_decide_eq_true_2 by done. constructor.
  - rewrite bool_decide_eq_false_2 by done. cbn [startswith].
    rewrite !andb_true_r.
    destruct (32 =? c) eqn:Hsp; [apply N.eqb_eq in Hsp; subst c|
      destruct (9 =? c) eqn:Htab; [apply N.eqb_eq in Htab; subst c|]]; cbn [orb].
    + destruct out as [|o out'] eqn:Hout; [apply folds_orphan; auto|].
      destruct (nonempty_snoc (o :: out')) as (before & prev & ->); [done|].
      replace (length (before ++ [prev]) - 1)%nat with (length before + 0)%nat
        by (rewrite length_app; cbn; lia).
      rewrite alter_app_r. cbn. apply folds_continuation; auto.
    + destruct out as [|o out'] eqn:Hout; [apply folds_orphan; auto|].
      destruct (nonempty_snoc (o :: out')) as (before & prev & ->); [done|].
      replace (length (before ++ [prev]) - 1)%nat with (length before + 0)%nat
        by (rewrite length_app; cbn; lia).
      rewrite alter_app_r. cbn. apply folds_continuation; auto.
    + apply N.eqb_neq in Hsp, Htab. apply folds_new; congruence.
Qed.

Lemma folds_deterministic (lines : list str) (p : str) (l1 l2 : list str) :
  folds lines p l1 → folds lines p l2 → l1 = l2.
Proof.
  intros H1 H2. inversion H1; subst; inversion H2; subst; try done;
    try (match goal with
         | Heq : _ ++ [_] = _ ++ [_] |- _ =>
           apply app_inj_tail in Heq; destruct Heq; by subst
         end);
    try (exfalso; match goal with
         | Heq : [] = _ ++ [_] |- _ => by destruct (app_cons_not_nil _ _ _ Heq)
         | Heq : _ ++ [_] = [] |- _ => symmetry in Heq; by destruct (app_cons_not_nil _ _ _ Heq)
         end);
    try (exfalso; intuition congruence).
Qed.

Lemma foldl_unfold_reassembles (raw : list str) (out : list str) :
  reassembles out raw (foldl unfold_step out raw).
Proof.
  revert out. induction raw as [|p raw IH]; intros out; cbn.
  - constructor.
  - econstructor; [apply unfold_step_folds|apply IH].
Qed.

Lemma reassembles_deterministic (raw : list str) (out l1 l2 : list str) :
  reassembles out raw l1 → reassembles out raw l2 → l1 = l2.
Proof.
  intros H1. revert l2. induction H1 as [|lines p ps lines' lines'' Hf _ IH];
    intros l2 H2; inversion H2; subst; [done|].
  apply IH.
  match goal with
  | Hf' : folds lines p ?l |- _ => by rewrite (folds_deterministic _ _ _ _ Hf Hf')
  end.
Qed.

(** C3. The logical lines returned for a text are the ones the folding rule
    yields on its physical lines read in order: a line starting with a space
    or a tab is appended, without that one code point, to the last logical
    line; any other line, an empty one included, starts a new logical line;
    a continuation with no logical line before it becomes a logical line
    with its leading blanks stripped.  The rule leaves no other outcome. *)
Theorem unfold_ics_lines_reassembles (ics_text : str) :
  reassembles [] (splitlines ics_text) (_unfold_ics_lines ics_text)
  ∧ ∀ lines, reassembles [] (splitlines ics_text) lines →
             lines = _unfold_ics_lines ics_text.
Proof.
  split.
  - apply foldl_unfold_reassembles.
  - intros lines Hl. eapply reassembles_deterministic; [exact Hl|].
    apply foldl_unfold_reassembles.
Qed.

(** ** Sorting by a key *)

Section Sorting.
Context {A : Type} (key : A → Z).

Lemma insert_by_Permutation (x : A) (l : list A) :
  insert_by key x l ≡ₚ x :: l.
Proof.
  induction l as [|y l IH]; cbn; [done|].
  destruct (key x <? key y)%Z; [done|].
  rewrite IH. apply Permutation_swap.
Qed.

Lemma insert_by_sorted (x : A) (l : list A) :
  StronglySorted (key_le key) l → StronglySorted (key_le key) (insert_by key x l).
Proof.
  induction 1 as [|y l Hs IH Hall]; cbn.
  - repeat constructor.
  - destruct (key x <? key y)%Z eqn:Hlt.
    + apply Z.ltb_lt in Hlt. constructor; [by constructor|].
      constructor; [unfold key_le; lia|].
      eapply Forall_impl; [exact Hall|]. unfold key_le. intros; cbn in *; lia.
    + apply Z.ltb_ge in Hlt. constructor; [exact IH|].
      rewrite insert_by_Permutation. by constructor.
Qed.

Lemma filter_key_none (l : list A) (k : Z) :
  Forall (λ a, key a ≠ k) l → filter (λ a, key a = k) l = [].
Proof.
  induction 1 as [|y l Hy _ IH]; [done|]. by rewrite filter_cons_False.
Qed.

(** Inserting into a sorted list puts the item after the items of its own
    key: the items of any one key keep their order. *)
Lemma insert_by_stable (x : A) (l : list A) (k : Z) :
  StronglySorted (key_le key) l →
  filter (λ a, key a = k) (insert_by key x l)
  = filter (λ a, key a = k) l ++ filter (λ a, key a = k) [x].
Proof.
  induction 1 as [|y l Hs IH Hall]; cbn [insert_by]; [done|].
  destruct (key x <? key y)%Z eqn:Hlt.
  - apply Z.ltb_lt in Hlt.
    rewrite (filter_cons _ x), (filter_cons _ y), (filter_cons _ x), filter_nil.
    destruct (decide (key x = k)) as [Hx|Hx]; [|by rewrite app_nil_r].
    destruct (decide (key y = k)) as [Hy|Hy]; [lia|].
    assert (filter (λ a, key a = k) l = []) as ->; [|done].
    apply filter_key_none. eapply Forall_impl; [exact Hall|].
    unfold key_le. intros; cbn in *; lia.
  - rewrite (filter_cons _ y), (filter_cons _ y), IH.
    by destruct (decide (key y = k)).
Qed.

Lemma foldl_insert_by_spec (l seen sorted : list A) :
  StronglySorted (key_le key) sorted →
  sorted ≡ₚ seen →
  (∀ k, filter (λ a, key a = k) sorted = filter (λ a, key a = k) seen) →
  let out := foldl (λ sorted x, insert_by key x sorted) sorted l in
  StronglySorted (key_le key) out
  ∧ out ≡ₚ seen ++ l
  ∧ ∀ k, filter (λ a, key a = k) out = filter (λ a, key a = k) (seen ++ l).
Proof.
  revert seen sorted. induction l as [|x l IH]; intros seen sorted Hs Hp Hf; cbn.
  - rewrite app_nil_r. done.
  - specialize (IH (seen ++ [x]) (insert_by key x sorted)).
    rewrite <- !(assoc_L (++)) in IH. cbn in IH. apply IH.
    + by apply insert_by_sorted.
    + rewrite insert_by_Permutation, Hp. apply Permutation_cons_append.
    + intros k. rewrite insert_by_stable, filter_app, Hf; done.
Qed.

Lemma sort_by_spec (l : list A) :
  StronglySorted (key_le key) (sort_by key l)
  ∧ sort_by key l ≡ₚ l
  ∧ ∀ k, filter (λ a, key a = k) (sort_by key l) = filter (λ a, key a = k) l.
Proof.
  apply (foldl_insert_by_spec l [] []); [constructor|done|done].
Qed.

End Sorting.

(** ** Event block parser *)

Section ParserProps.
Context `{Unicode} `{TzDatabase} `{Sorter}.

Lemma run_lines_app (l1 l2 : list str) (st : pstate) :
  run_lines (l1 ++ l2) st = st' ← run_lines l1 st; run_lines l2 st'.
Proof.
  revert st. induction l1 as [|l l1 IH]; intros st; cbn; [done|].
  destruct (parse_line st l) as [st'|e]; cbn; [apply IH|done].
Qed.

Lemma parse_line_begin (st : pstate) :
  parse_line st BEGIN_VEVENT = OK (PState true ∅ (events st)).
Proof. unfold parse_line. by rewrite bool_decide_eq_true_2. Qed.

Lemma parse_line_end (c : gmap str (option str * str)) (evs : list Event) :
  parse_line (PState true c evs) END_VEVENT
  = '(c', evs') ← flush c evs; OK (PState false c' evs').
Proof.
  unfold parse_line. rewrite bool_decide_eq_false_2 by done.
  by rewrite bool_decide_eq_true_2.
Qed.

Lemma parse_line_field (c : gmap str (option str * str)) (evs : list Event)
  (line : str) :
  line ≠ BEGIN_VEVENT → line ≠ END_VEVENT →
  parse_line (PState true c evs) line = OK (PState true (store_field c line) evs).
Proof.
  intros Hb He. unfold parse_line. by rewrite !bool_decide_eq_false_2.
Qed.

(** The lines between the markers of a block only fill the accumulator. *)
Lemma run_lines_body (body : list str) (c : gmap str (option str * str))
  (evs : list Event) :
  Forall (λ l, l ≠ BEGIN_VEVENT ∧ l ≠ END_VEVENT) body →
  run_lines body (PState true c evs) = OK (PState true (foldl store_field c body) evs).
Proof.
  intros Hbody. revert c. induction Hbody as [|l body [Hb He] _ IH]; intros c; cbn.
  - done.
  - rewrite parse_line_field by done. cbn. apply IH.
Qed.

Lemma run_lines_block (body : list str) (st : pstate) :
  Forall (λ l, l ≠ BEGIN_VEVENT ∧ l ≠ END_VEVENT) body →
  run_lines (BEGIN_VEVENT :: body ++ [END_VEVENT]) st
  = '(c', evs') ← flush (foldl store_field ∅ body) (events st);
    OK (PState false c' evs').
Proof.
  intros Hbody. cbn [run_lines]. rewrite parse_line_begin. cbn.
  rewrite run_lines_app, run_lines_body by done. cbn.
  rewrite parse_line_end. by destruct (flush _ _) as [[c' evs']|e].
Qed.

(** What [flush] does with the accumulator, case by case. *)
Lemma flush_missing (c : gmap str (option str * str)) (evs : list Event) :
  snd (field c DTSTART) = [] ∨ snd (field c DTEND) = [] →
  flush c evs = OK (∅, evs).
Proof.
  intros Hmiss. unfold flush. destruct (decide (c = ∅)) as [->|_]; [done|].
  destruct (field c DTSTART) as [tz1 v1], (field c DTEND) as [tz2 v2]. cbn in *.
  destruct Hmiss as [-> | ->]; cbn; [done|].
  by rewrite orb_true_r.
Qed.

Lemma flush_present (c : gmap str (option str * str)) (evs : list Event) :
  snd (field c DTSTART) ≠ [] → snd (field c DTEND) ≠ [] →
  flush c evs
  = s ← _parse_dt (snd (field c DTSTART)) (fst (field c DTSTART));
    e ← _parse_dt (snd (field c DTEND)) (fst (field c DTEND));
    OK (∅, evs ++ [mkEvent s e (strip (snd (field c SUMMARY)))
                           (strip (snd (field c DESCRIPTION)))
                           (strip (snd (field c LOCATION)))]).
Proof.
  intros Hs He. unfold flush. destruct (decide (c = ∅)) as [->|_].
  - exfalso. apply Hs. unfold field. by rewrite lookup_empty.
  - destruct (field c DTSTART) as [tz1 v1], (field c DTEND) as [tz2 v2]. cbn in *.
    by rewrite !bool_decide_eq_false_2.
Qed.

(** C4, as amended.  A block is the line BEGIN:VEVENT, lines that are
    neither marker, and the line END:VEVENT; its fields are what these lines
    store in an empty accumulator.  Whatever the parser has read before: a
    block that lacks a start value or an end value adds no event, raises
    nothing and leaves the accumulator empty; a block that has both, with
    values the normalizer accepts, adds exactly one event, built from the
    normalized values and the trimmed texts; and when the normalizer rejects
    the start value, or accepts it and rejects the end value, the parser
    raises that error. *)
Theorem block_yields_event_or_nothing (st : pstate) (body : list str) :
  Forall (λ l, l ≠ BEGIN_VEVENT ∧ l ≠ END_VEVENT) body →
  let fields := foldl store_field ∅ body in
  let block := BEGIN_VEVENT :: body ++ [END_VEVENT] in
  (snd (field fields DTSTART) = [] ∨ snd (field fields DTEND) = [] →
     run_lines block st = OK (PState false ∅ (events st)))
  ∧ (∀ s e,
       snd (field fields DTSTART) ≠ [] → snd (field fields DTEND) ≠ [] →
       _parse_dt (snd (field fields DTSTART)) (fst (field fields DTSTART)) = OK s →
       _parse_dt (snd (field fields DTEND)) (fst (field fields DTEND)) = OK e →
       run_lines block st
       = OK (PState false ∅
               (events st ++ [mkEvent s e (strip (snd (field fields SUMMARY)))
                                      (strip (snd (field fields DESCRIPTION)))
                                      (strip (snd (field fields LOCATION)))])))
  ∧ (∀ err,
       snd (field fields DTSTART) ≠ [] → snd (field fields DTEND) ≠ [] →
       _parse_dt (snd (field fields DTSTART)) (fst (field fields DTSTART)) = Raise err →
       run_lines block st = Raise err)
  ∧ (∀ s err,
       snd (field fields DTSTART) ≠ [] → snd (field fields DTEND) ≠ [] →
       _parse_dt (snd (field fields DTSTART)) (fst (field fields DTSTART)) = OK s →
       _parse_dt (snd (field fields DTEND)) (fst (field fields DTEND)) = Raise err →
       run_lines block st = Raise err).
Proof.
  intros Hbody fields block. unfold block. rewrite run_lines_block by done.
  fold fields. split; [|split; [|split]].
  - intros Hmiss. by rewrite flush_missing.
  - intros s e Hs He Hps Hpe. rewrite flush_present by done.
    rewrite Hps, Hpe. done.
  - intros err Hs He Hps. rewrite flush_present by done. by rewrite Hps.
  - intros s err Hs He Hps Hpe. rewrite flush_present by done.
    by rewrite Hps, Hpe.
Qed.

(** Events are only ever appended: what the parser holds after more lines
    extends what it held before. *)
Lemma flush_extends (c c' : gmap str (option str * str)) (evs evs' : list Event) :
  flush c evs = OK (c', evs') → evs `prefix_of` evs'.
Proof.
  unfold flush. destruct (decide (c = ∅)); [by intros [= _ <-]|].
  destruct (field c DTSTART) as [tz1 v1], (field c DTEND) as [tz2 v2].
  destruct (_ || _); [by intros [= _ <-]|].
  destruct (_parse_dt v1 tz1) as [s|]; cbn; [|done].
  destruct (_parse_dt v2 tz2) as [e|]; cbn; [|done].
  intros [= _ <-]. by apply prefix_app_r.
Qed.

Lemma parse_line_extends (st st' : pstate) (line : str) :
  parse_line st line = OK st' → events st `prefix_of` events st'.
Proof.
  unfold parse_line. repeat case_bool_decide.
  - by intros [= <-].
  - destruct (in_event st); [|by intros [= <-]].
    destruct (flush (cur st) (events st)) as [[c' evs']|] eqn:Hf; cbn; [|done].
    intros [= <-]. cbn. by eapply flush_extends.
  - destruct (in_event st); cbn; by intros [= <-].
Qed.

Lemma run_lines_extends (lines : list str) (st st' : pstate) :
  run_lines lines st = OK st' → events st `prefix_of` events st'.
Proof.
  revert st. induction lines as [|l lines IH]; intros st; cbn.
  - by intros [= <-].
  - destruct (parse_line st l) as [st1|] eqn:Hl; cbn; [|done].
    intros Hrun. etrans; [by eapply parse_line_extends|by apply IH].
Qed.

(** C5, as amended.  When the parser returns, its list is a rearrangement
    of the events of the blocks, sorted and stable under the comparison the
    runtime makes of the start datetimes: whenever that comparison is the
    order of an integer key on the events of the blocks, the list is
    ascending by the key and events of equal keys are in the order in which
    their blocks were closed.  When every start carries the Kyiv zone, as
    every start does but a date-only value with another zone identifier,
    the key is the wall-clock time of the start in Kyiv.  When, among the
    starts of one zone, the order of the wall-clock times is the order of
    the instants, as it is away from an hour that the zone reads twice, the
    key is the start instant. *)
Theorem parse_ics_events_sorted_stable (ics_text : str) (out : list Event) :
  parse_ics_events ics_text = OK out →
  ∃ blocks,
    collect_events ics_text = OK blocks
    ∧ out ≡ₚ blocks
    ∧ (∀ key : Event → Z,
         (∀ a b, a ∈ blocks → b ∈ blocks →
                 datetime_lt (start a) (start b) = (key a <? key b)%Z) →
         StronglySorted (λ a b, (key a <= key b)%Z) out
         ∧ ∀ t, filter (λ e, key e = t) out = filter (λ e, key e = t) blocks)
    ∧ (Forall (λ e, tz (start e) = KYIV_TZ) blocks →
       StronglySorted (λ a b, (wall (start a) <= wall (start b))%Z) out
       ∧ ∀ t, filter (λ e, wall (start e) = t) out
              = filter (λ e, wall (start e) = t) blocks)
    ∧ ((∀ a b, a ∈ blocks → b ∈ blocks → tz (start a) = tz (start b) →
               (wall (start a) <? wall (start b))%Z
               = (instant (start a) <? instant (start b))%Z) →
       StronglySorted (λ a b, (instant (start a) <= instant (start b))%Z) out
       ∧ ∀ t, filter (λ e, instant (start e) = t) out
              = filter (λ e, instant (start e) = t) blocks).
Proof.
  unfold parse_ics_events.
  destruct (collect_events ics_text) as [blocks|e]; cbn; [|done].
  intros [= <-]. exists blocks. split; [done|].
  split; [apply list_sort_permutation|].
  assert (Hkey : ∀ key : Event → Z,
    (∀ a b, a ∈ blocks → b ∈ blocks →
            datetime_lt (start a) (start b) = (key a <? key b)%Z) →
    StronglySorted (λ a b, (key a <= key b)%Z)
      (list_sort Event (λ a b, datetime_lt (start a) (start b)) blocks)
    ∧ ∀ t, filter (λ e, key e = t)
             (list_sort Event (λ a b, datetime_lt (start a) (start b)) blocks)
           = filter (λ e, key e = t) blocks).
  { intros key Hagree. rewrite (list_sort_by_key _ _ key blocks Hagree).
    destruct (sort_by_spec key blocks) as (Hs & _ & Hf). done. }
  split; [exact Hkey|]. split.
  - intros Hzone. apply (Hkey (λ e, wall (start e))).
    intros a b Ha Hb. rewrite Forall_forall in Hzone.
    unfold datetime_lt. by rewrite decide_True by (by rewrite !Hzone).
  - intros Hwall. apply (Hkey (λ e, instant (start e))).
    intros a b Ha Hb. unfold datetime_lt.
    destruct (decide (tz (start a) = tz (start b))); [by apply Hwall|done].
Qed.

End ParserProps.

(** ** Temporal normalizer *)

Section NormalizerProps.
Context `{Unicode} `{TzDatabase}.

Lemma rmatch_seq {A} (r1 r2 : regex) (s : mstate) (k : mstate → option A) :
  rmatch (Seq r1 r2) s k = rmatch r1 s (λ s', rmatch r2 s' k).
Proof. reflexivity. Qed.

Lemma rmatch_group {A} (i : nat) (r : regex) (s : mstate) (k : mstate → option A) :
  rmatch (Group i r) s k
  = rmatch r s (λ s', k (MState (m_pos s') (m_rest s') ((i, (m_pos s, m_pos s')) :: m_caps s'))).
Proof. reflexivity. Qed.

Lemma rmatch_chr {A} (p : N → bool) (pos : nat) (c : N) (t : str)
  (caps : list (nat * (nat * nat))) (k : mstate → option A) :
  rmatch (Chr p) (MState pos (c :: t) caps) k
  = if p c then k (MState (S pos) t caps) else None.
Proof. reflexivity. Qed.

Lemma digit_bounds (n : Z) : (0 <= n mod 10 <= 9)%Z.
Proof. pose proof (Z.mod_pos_bound n 10). lia. Qed.

Lemma decimal_digit (n : Z) :
  decimal (48 + Z.to_N (n mod 10)) = Some (Z.to_N (n mod 10)).
Proof.
  pose proof (digit_bounds n). unfold decimal.
  assert ((48 <=? 48 + Z.to_N (n mod 10)) && (48 + Z.to_N (n mod 10) <=? 57) = true) as ->.
  { apply andb_true_intro. split; apply N.leb_le; lia. }
  f_equal. lia.
Qed.

Lemma isdecimal_digit (n : Z) : isdecimal (48 + Z.to_N (n mod 10)) = true.
Proof. unfold isdecimal. by rewrite decimal_digit. Qed.

Ltac enum_Z v lo hi :=
  let rec go lo :=
    first
      [ assert (v = lo) by lia; subst v
      | let H := fresh in
        assert (H : v = lo ∨ (lo + 1 <= v)%Z) by lia;
        destruct H as [H|H];
        [ subst v | let lo' := eval compute in (lo + 1)%Z in cbn in H; go lo' ] ]
  in go lo.

Lemma isspace_digit (n : Z) : isspace (48 + Z.to_N (n mod 10)) = false.
Proof.
  pose proof (digit_bounds n) as Hd. remember (n mod 10)%Z as d eqn:Heq. clear Heq.
  enum_Z d 0%Z 9%Z; reflexivity.
Qed.

Lemma field_m {A} (m : Z) (pos : nat) (rest : str) caps (k : mstate → option A) x :
  (1 <= m <= 12)%Z →
  k (MState (S (S pos)) rest ((2%nat, (pos, S (S pos))) :: caps)) = Some x →
  rmatch (Group 2 RE_m) (MState pos (two_digits m ++ rest) caps) k = Some x.
Proof.
  intros Hm Hk. enum_Z m 1%Z 12%Z; cbv; rewrite Hk; reflexivity.
Qed.
Lemma field_d {A} (d : Z) (pos : nat) (rest : str) caps (k : mstate → option A) x :
  (1 <= d <= 31)%Z →
  k (MState (S (S pos)) rest ((3%nat, (pos, S (S pos))) :: caps)) = Some x →
  rmatch (Group 3 RE_d) (MState pos (two_digits d ++ rest) caps) k = Some x.
Proof.
  intros Hd Hk. enum_Z d 1%Z 31%Z; cbv; rewrite Hk; reflexivity.
Qed.

Lemma field_H {A} (hh : Z) (pos : nat) (rest : str) caps (k : mstate → option A) x :
  (0 <= hh <= 23)%Z →
  k (MState (S (S pos)) rest ((4%nat, (pos, S (S pos))) :: caps)) = Some x →
  rmatch (Group 4 RE_H) (MState pos (two_digits hh ++ rest) caps) k = Some x.
Proof.
  intros Hh Hk. enum_Z hh 0%Z 23%Z; cbv; rewrite Hk; reflexivity.
Qed.

Lemma field_M {A} (mm : Z) (pos : nat) (rest : str) caps (k : mstate → option A) x :
  (0 <= mm <= 59)%Z →
  k (MState (S (S pos)) rest ((5%nat, (pos, S (S pos))) :: caps)) = Some x →
  rmatch (Group 5 RE_M) (MState pos (two_digits mm ++ rest) caps) k = Some x.
Proof.
  intros Hm Hk. enum_Z mm 0%Z 59%Z; cbv; rewrite Hk; reflexivity.
Qed.

Lemma field_S {A} (ss : Z) (pos : nat) (rest : str) caps (k : mstate → option A) x :
  (0 <= ss <= 59)%Z →
  k (MState (S (S pos)) rest ((6%nat, (pos, S (S pos))) :: caps)) = Some x →
  rmatch (Group 6 RE_S) (MState pos (two_digits ss ++ rest) caps) k = Some x.
Proof.
  intros Hs Hk. enum_Z ss 0%Z 59%Z; cbv; rewrite Hk; reflexivity.
Qed.

Lemma field_Y {A} (y : Z) (pos : nat) (rest : str) caps (k : mstate → option A) x :
  k (MState (S (S (S (S pos)))) rest ((1%nat, (pos, S (S (S (S pos))))) :: caps)) = Some x →
  rmatch (Group 1 RE_Y) (MState pos (four_digits y ++ rest) caps) k = Some x.
Proof.
  intros Hk. unfold RE_Y, four_digits, digit. cbn [Seqs app].
  rewrite rmatch_group.
  do 4 (rewrite ?rmatch_seq, rmatch_chr, isdecimal_digit; cbn beta iota).
  exact Hk.
Qed.

Lemma lit_T {A} (pos : nat) (rest : str) caps (k : mstate → option A) :
  rmatch (lit_i 84) (MState pos (84 :: rest) caps) k = k (MState (S pos) rest caps).
Proof. reflexivity. Qed.

Lemma lit_Z {A} (pos : nat) (rest : str) caps (k : mstate → option A) :
  rmatch (lit_i 90) (MState pos (90 :: rest) caps) k = k (MState (S pos) rest caps).
Proof. reflexivity. Qed.

Lemma re_match_date (y m d : Z) :
  (1 <= m <= 12)%Z → (1 <= d <= 31)%Z →
  re_match FMT_DATE (date_token y m d)
  = Some (MatchObj 0 8 [(3, (6, 8)); (2, (4, 6)); (1, (0, 4))]%nat).
Proof.
  intros Hm Hd. unfold re_match, match_at, FMT_DATE, date_token. cbn [Seqs].
  rewrite rmatch_seq. apply field_Y. cbn beta. rewrite rmatch_seq.
  apply field_m; [done|]. cbn beta.
  apply (field_d d _ []); [done|]. reflexivity.
Qed.

Lemma re_match_local (y m d hh mm ss : Z) :
  (1 <= m <= 12)%Z → (1 <= d <= 31)%Z → valid_time hh mm ss →
  re_match FMT_LOCAL (local_token y m d hh mm ss)
  = Some (MatchObj 0 15 [(6, (13, 15)); (5, (11, 13)); (4, (9, 11));
                         (3, (6, 8)); (2, (4, 6)); (1, (0, 4))]%nat).
Proof.
  intros Hm Hd (Hh & Hmi & Hs). unfold re_match, match_at, FMT_LOCAL, local_token.
  cbn [Seqs]. rewrite rmatch_seq.
  apply field_Y. cbn beta. rewrite rmatch_seq. apply field_m; [done|].
  cbn beta. rewrite rmatch_seq. apply field_d; [done|].
  cbn beta. rewrite rmatch_seq. cbn [app]. rewrite lit_T, rmatch_seq.
  apply field_H; [done|]. cbn beta. rewrite rmatch_seq. apply field_M; [done|].
  cbn beta. apply (field_S ss _ []); [done|]. reflexivity.
Qed.

Lemma re_match_utc (y m d hh mm ss : Z) :
  (1 <= m <= 12)%Z → (1 <= d <= 31)%Z → valid_time hh mm ss →
  re_match FMT_UTC (utc_token y m d hh mm ss)
  = Some (MatchObj 0 16 [(6, (13, 15)); (5, (11, 13)); (4, (9, 11));
                         (3, (6, 8)); (2, (4, 6)); (1, (0, 4))]%nat).
Proof.
  intros Hm Hd (Hh & Hmi & Hs). unfold re_match, match_at, FMT_UTC, utc_token.
  cbn [Seqs]. rewrite rmatch_seq.
  apply field_Y. cbn beta. rewrite rmatch_seq. apply field_m; [done|].
  cbn beta. rewrite rmatch_seq. apply field_d; [done|].
  cbn beta. rewrite rmatch_seq. cbn [app]. rewrite lit_T, rmatch_seq.
  apply field_H; [done|]. cbn beta. rewrite rmatch_seq. apply field_M; [done|].
  cbn beta. rewrite rmatch_seq. apply field_S; [done|].
  cbn beta. cbn [app]. rewrite lit_Z. reflexivity.
Qed.
Lemma py_int_two_digits (n : Z) :
  (0 <= n <= 99)%Z → py_int (two_digits n) = OK n.
Proof. intros Hn. enum_Z n 0%Z 99%Z; reflexivity. Qed.

Lemma four_digits_value (y : Z) :
  (0 <= y <= 9999)%Z →
  ((((y / 1000 mod 10) * 10 + y / 100 mod 10) * 10 + y / 10 mod 10) * 10
   + y mod 10 = y)%Z.
Proof. intros Hy. Z.div_mod_to_equations. lia. Qed.

Lemma py_int_four_digits (y : Z) :
  (0 <= y <= 9999)%Z → py_int (four_digits y) = OK y.
Proof.
  intros Hy. unfold py_int, four_digits, strip, rstrip.
  cbn [lstrip rev app]. rewrite !isspace_digit. cbn [lstrip rev app].
  rewrite !isspace_digit. cbn [rev app foldl mbind result_bind].
  rewrite !decimal_digit. cbn [mbind result_bind]. f_equal.
  rewrite !Z2N.id by apply digit_bounds.
  rewrite <- (four_digits_value y) at 5 by done. lia.
Qed.

Lemma mknaive_valid (y m d hh mm ss : Z) :
  valid_date y m d → valid_time hh mm ss →
  mknaive y m d hh mm ss = OK (wall_of y m d hh mm ss).
Proof.
  intros (Hy & Hm & Hd) (Hh & Hmi & Hs). unfold mknaive, mkdate.
  assert ((1 <=? y) && (y <=? 9999) && (1 <=? m) && (m <=? 12) && (1 <=? d)
          && (d <=? days_in_month y m) = true)%Z as ->.
  { repeat (apply andb_true_intro; split); apply Z.leb_le; lia. }
  cbn [mbind result_bind].
  assert ((0 <=? hh) && (hh <=? 23) && (0 <=? mm) && (mm <=? 59) && (0 <=? ss)
          && (ss <=? 59) = true)%Z as ->.
  { repeat (apply andb_true_intro; split); apply Z.leb_le; lia. }
  done.
Qed.

Lemma days_in_month_le (y m : Z) : (days_in_month y m <= 31)%Z.
Proof.
  unfold days_in_month.
  repeat match goal with |- context [if ?b then _ else _] => destruct b end; lia.
Qed.

Lemma strptime_date (y m d : Z) :
  valid_date y m d →
  strptime FMT_DATE false (date_token y m d) = OK (wall_of y m d 0 0 0).
Proof.
  intros Hv. pose proof Hv as (Hy & Hm & Hd). pose proof (days_in_month_le y m).
  unfold strptime. rewrite re_match_date by lia.
  change (group (date_token y m d) _ 1) with (four_digits y).
  change (group (date_token y m d) _ 2) with (two_digits m).
  change (group (date_token y m d) _ 3) with (two_digits d).
  cbn [mo_end length date_token four_digits two_digits app Nat.eqb negb].
  change (four_digits y) with (four_digits y).
  rewrite py_int_four_digits, !py_int_two_digits by lia. cbn [mbind result_bind].
  apply mknaive_valid; [done|]. unfold valid_time. lia.
Qed.
Lemma strptime_local (y m d hh mm ss : Z) :
  valid_date y m d → valid_time hh mm ss →
  strptime FMT_LOCAL true (local_token y m d hh mm ss) = OK (wall_of y m d hh mm ss).
Proof.
  intros Hv Ht. pose proof Hv as (Hy & Hm & Hd). pose proof Ht as (Hh & Hmi & Hs).
  pose proof (days_in_month_le y m).
  unfold strptime. rewrite re_match_local by (done || lia).
  change (group (local_token y m d hh mm ss) _ 1) with (four_digits y).
  change (group (local_token y m d hh mm ss) _ 2) with (two_digits m).
  change (group (local_token y m d hh mm ss) _ 3) with (two_digits d).
  change (group (local_token y m d hh mm ss) _ 4) with (two_digits hh).
  change (group (local_token y m d hh mm ss) _ 5) with (two_digits mm).
  change (group (local_token y m d hh mm ss) _ 6) with (two_digits ss).
  change (negb (_ =? _)%nat) with false. cbv iota.
  rewrite py_int_four_digits, !py_int_two_digits by lia. cbn [mbind result_bind].
  by apply mknaive_valid.
Qed.

Lemma strptime_utc (y m d hh mm ss : Z) :
  valid_date y m d → valid_time hh mm ss →
  strptime FMT_UTC true (utc_token y m d hh mm ss) = OK (wall_of y m d hh mm ss).
Proof.
  intros Hv Ht. pose proof Hv as (Hy & Hm & Hd). pose proof Ht as (Hh & Hmi & Hs).
  pose proof (days_in_month_le y m).
  unfold strptime. rewrite re_match_utc by (done || lia).
  change (group (utc_token y m d hh mm ss) _ 1) with (four_digits y).
  change (group (utc_token y m d hh mm ss) _ 2) with (two_digits m).
  change (group (utc_token y m d hh mm ss) _ 3) with (two_digits d).
  change (group (utc_token y m d hh mm ss) _ 4) with (two_digits hh).
  change (group (utc_token y m d hh mm ss) _ 5) with (two_digits mm).
  change (group (utc_token y m d hh mm ss) _ 6) with (two_digits ss).
  change (negb (_ =? _)%nat) with false. cbv iota.
  rewrite py_int_four_digits, !py_int_two_digits by lia. cbn [mbind result_bind].
  by apply mknaive_valid.
Qed.

(** Which tokens are eight digits and nothing else. *)
Lemma fullmatch_date_token (y m d : Z) :
  re_fullmatch RE_8DIGITS (date_token y m d) = Some (MatchObj 0 8 []).
Proof.
  unfold re_fullmatch, RE_8DIGITS, date_token, four_digits, two_digits, digit.
  cbn [Seqs app].
  do 8 (rewrite ?rmatch_seq, rmatch_chr, isdecimal_digit; cbn beta iota).
  reflexivity.
Qed.

Lemma fullmatch_longer_token (y m d : Z) (rest : str) :
  re_fullmatch RE_8DIGITS (four_digits y ++ two_digits m ++ two_digits d ++ [84] ++ rest)
  = None.
Proof.
  unfold re_fullmatch, RE_8DIGITS, four_digits, two_digits, digit.
  cbn [Seqs app].
  do 7 (rewrite ?rmatch_seq, rmatch_chr, isdecimal_digit; cbn beta iota).
  rewrite rmatch_chr, isdecimal_digit. reflexivity.
Qed.

Lemma endswith_Z_utc (y m d hh mm ss : Z) :
  endswith [90] (utc_token y m d hh mm ss) = true.
Proof. reflexivity. Qed.

Lemma endswith_Z_local (y m d hh mm ss : Z) :
  endswith [90] (local_token y m d hh mm ss) = false.
Proof.
  unfold endswith, local_token, four_digits, two_digits. cbn [app rev startswith].
  pose proof (digit_bounds ss).
  rewrite andb_true_r. apply N.eqb_neq. lia.
Qed.

Lemma zone_or_kyiv_given (tzid : option str) (z : tzinfo) :
  given_zone tzid z → zone_or_kyiv tzid = OK z.
Proof.
  intros [| |key Hne Hk]; [done|done|].
  destruct key as [|c key]; [done|]. unfold zone_or_kyiv, ZoneInfo. by rewrite Hk.
Qed.

Lemma naive_date_midnight (y m d : Z) :
  (naive_date (wall_of y m d 0 0 0) * 86400 = wall_of y m d 0 0 0)%Z.
Proof.
  unfold naive_date, wall_of.
  replace (ymd2ord y m d * 86400 + 0 * 3600 + 0 * 60 + 0)%Z
    with (ymd2ord y m d * 86400)%Z by lia.
  rewrite Z.div_mul by done. done.
Qed.

(** Conversion to Kyiv is the reading in Kyiv of the specification. *)
Lemma astimezone_in_kyiv (d : datetime) : astimezone d KYIV_TZ = in_kyiv d.
Proof.
  unfold astimezone, in_kyiv. destruct (decide (tz d = KYIV_TZ)); [done|].
  unfold add_seconds, fromutc, KYIV_TZ, representable, instant. cbv zeta.
  rewrite Z.add_opp_r.
  destruct ((MIN_WALL <=? wall d - utcoffset d)%Z
            && (wall d - utcoffset d <=? MAX_WALL)%Z); cbn; [|done].
  unfold add_seconds. cbv zeta. by destruct (_ && _).
Qed.

Lemma in_kyiv_outcome (d : datetime) :
  match in_kyiv d with
  | OK t => tz t = KYIV_TZ
  | Raise e => e = OverflowError
  end.
Proof.
  unfold in_kyiv. destruct (decide (tz d = KYIV_TZ)); [done|].
  cbv zeta. by destruct (_ && _).
Qed.

(** C2, as amended.  A token whose trimmed text is YYYYMMDD,
    YYYYMMDDTHHMMSSZ or YYYYMMDDTHHMMSS in ASCII digits, with a date of the
    calendar and a time of the day, and with a zone identifier that is
    absent or found by the database, is normalized as follows.  Eight
    digits give, without error, midnight of that date in the zone given, or
    in Kyiv when none is given, and are not converted.  A trailing Z gives
    the UTC time, and the third shape the local time of the zone given, or
    of Kyiv, each read in Kyiv: the result is in the Kyiv zone, and the only
    error is the overflow error of a conversion that leaves the years 1 to
    9999. *)
Theorem parse_dt_normalizes (value : str) (tzid : option str)
  (r : result datetime) :
  normalizes (strip value) tzid r →
  _parse_dt value tzid = r
  ∧ (length (strip value) = 8%nat → ∃ t, r = OK t)
  ∧ (∀ t, r = OK t → length (strip value) ≠ 8%nat → tz t = KYIV_TZ)
  ∧ (∀ e, r = Raise e → e = OverflowError).
Proof.
  unfold _parse_dt. cbv zeta. intros Hn.
  remember (strip value) as token eqn:Htok. clear Htok value.
  destruct Hn as [y m d tzid z Hv Hz | y m d hh mm ss tzid Hv Ht
                 | y m d hh mm ss tzid z Hv Ht Hz].
  - split; [|split; [by eexists|split; [done|done]]].
    rewrite fullmatch_date_token, strptime_date by done.
    cbn [mbind result_bind]. rewrite (zone_or_kyiv_given _ _ Hz).
    cbn [mbind result_bind]. by rewrite naive_date_midnight.
  - pose proof (in_kyiv_outcome (DateTime (wall_of y m d hh mm ss) Utc)) as Hout.
    split; [|split; [done|split]].
    + unfold utc_token at 1.
      rewrite fullmatch_longer_token, endswith_Z_utc, strptime_utc by done.
      cbn [mbind result_bind]. apply astimezone_in_kyiv.
    + intros t Hr _. by rewrite Hr in Hout.
    + intros e Hr. by rewrite Hr in Hout.
  - pose proof (in_kyiv_outcome (DateTime (wall_of y m d hh mm ss) z)) as Hout.
    split; [|split; [done|split]].
    + unfold local_token at 1.
      rewrite fullmatch_longer_token, endswith_Z_local, strptime_local by done.
      cbn [mbind result_bind]. rewrite (zone_or_kyiv_given _ _ Hz).
      cbn [mbind result_bind]. apply astimezone_in_kyiv.
    + intros t Hr _. by rewrite Hr in Hout.
    + intros e Hr. by rewrite Hr in Hout.
Qed.

End NormalizerProps.

(** ** Semantic extractors *)

Section ExtractorProps.
Context `{Unicode}.

Lemma type_of_tail_first_stem (words : list (str * str)) (tail v : str) :
  first_stem words tail v → type_of_tail words tail = Some v.
Proof.
  induction 1 as [k v words tail Hk | k v words tail v' Hk _ IH]; cbn.
  - by rewrite Hk.
  - by rewrite Hk.
Qed.

Lemma type_of_tail_no_stem (words : list (str * str)) (tail : str) :
  no_stem words tail → type_of_tail words tail = None.
Proof.
  induction 1 as [|[k v] words Hk _ IH]; cbn in *; [done|]. by rewrite Hk.
Qed.

(** Whatever the title, an attempt has an outcome. *)
Lemma first_stem_or_none (words : list (str * str)) (tail : str) :
  (∃ v, first_stem words tail v) ∨ no_stem words tail.
Proof.
  induction words as [|[k v] words IH].
  - right. constructor.
  - destruct (contains k tail) eqn:Hk.
    + left. exists v. by constructor.
    + destruct IH as [[v' Hv']|Hno].
      * left. exists v'. by constructor.
      * right. by constructor.
Qed.

Lemma splits_at_total (sep : N) (s : str) : ∃ o, splits_at sep s o.
Proof.
  destruct (decide (2 <= length (split sep s))%nat) as [Hlen|Hlen].
  - destruct (first_stem_or_none TYPE_WORDS
                (str_lower (last_part (map strip (split sep s))))) as [[v Hv]|Hno].
    + eexists. by apply splits_found.
    + exists None. by apply splits_no_stem.
  - exists None. apply splits_single. lia.
Qed.

(** The attempt of the code with one separator computes that outcome. *)
Lemma attempt_splits_at (sep : N) (s : str) (o : option (str * str)) :
  splits_at sep s o →
  (if (2 <=? length (map strip (split sep s)))%nat
   then type_of_tail TYPE_WORDS (str_lower (last_part (map strip (split sep s))))
   else None)
  = snd <$> o
  ∧ ∀ disc v, o = Some (disc, v) →
              disc = strip (join [sep] (left_parts (map strip (split sep s)))).
Proof.
  rewrite length_map. intros [v Hlen Hv | Hlen | Hno].
  - split; [|by intros ?? [= <- _]].
    apply Nat.leb_le in Hlen. by rewrite Hlen, (type_of_tail_first_stem _ _ _ Hv).
  - split; [|done]. apply Nat.leb_gt in Hlen. by rewrite Hlen.
  - split; [|done]. rewrite type_of_tail_no_stem by done. by destruct (_ <=? _)%nat.
Qed.

(** C6, as amended.  The splitter trims the title and tries the em-dash
    first: when that split has at least two parts and its last part, trimmed
    and lowercased, contains a stem, the result is the trimmed left parts
    rejoined by the em-dash, with the label of the first such stem; only
    when that attempt fails is the same attempt made with the hyphen; when
    both fail the result is the trimmed title with no session type. *)
Theorem split_summary_priority (summary : str) :
  let s := strip summary in
  (∃ o, splits_at EM_DASH s o)
  ∧ (∃ o, splits_at HYPHEN s o)
  ∧ (∀ disc v, splits_at EM_DASH s (Some (disc, v)) →
               split_summary summary = (disc, Some v))
  ∧ (∀ disc v, splits_at EM_DASH s None → splits_at HYPHEN s (Some (disc, v)) →
               split_summary summary = (disc, Some v))
  ∧ (splits_at EM_DASH s None → splits_at HYPHEN s None →
     split_summary summary = (s, None)).
Proof.
  intros s. split; [apply splits_at_total|]. split; [apply splits_at_total|].
  unfold split_summary. fold s. repeat split.
  - intros disc v [He Hd]%attempt_splits_at. rewrite He. cbn.
    by rewrite (Hd disc v).
  - intros disc v [He _]%attempt_splits_at [Hh Hd]%attempt_splits_at.
    rewrite He, Hh. cbn. by rewrite (Hd disc v).
  - intros [He _]%attempt_splits_at [Hh _]%attempt_splits_at. by rewrite He, Hh.
Qed.

(** *** Teacher detection *)

Lemma match_patterns_some (patterns : list regex) (line t : str) :
  match_patterns patterns line = Some t →
  ∃ j pat m,
    patterns !! j = Some pat ∧ re_match pat line = Some m
    ∧ t = strip (group line m 1)
    ∧ ∀ j' pat', (j' < j)%nat → patterns !! j' = Some pat' →
                 re_match pat' line = None.
Proof.
  induction patterns as [|pat patterns IH]; cbn; [done|].
  destruct (re_match pat line) as [m|] eqn:Hm.
  - intros [= <-]. exists 0%nat, pat, m. repeat split; [done|]. intros; lia.
  - intros (j & pat' & m & Hj & Hm' & Ht & Hbefore)%IH.
    exists (S j), pat', m. repeat split; [done..|].
    intros [|j'] pat'' Hlt; cbn; [by intros [= <-]|].
    intros Hj'. eapply Hbefore; [|done]. lia.
Qed.

Lemma match_patterns_none (patterns : list regex) (line : str) :
  match_patterns patterns line = None →
  ∀ pat, pat ∈ patterns → re_match pat line = None.
Proof.
  induction patterns as [|pat patterns IH]; cbn; [by intros _ ? ?%elem_of_nil|].
  destruct (re_match pat line) as [m|] eqn:Hm; [done|].
  intros Hnone pat' [->|Hin]%elem_of_cons; [done|]. by apply IH.
Qed.

Lemma match_lines_some (patterns : list regex) (lines : list str) (t : str) :
  match_lines patterns lines = Some t →
  ∃ i line,
    lines !! i = Some line ∧ match_patterns patterns line = Some t
    ∧ ∀ i' line', (i' < i)%nat → lines !! i' = Some line' →
                  match_patterns patterns line' = None.
Proof.
  induction lines as [|line lines IH]; cbn; [done|].
  destruct (match_patterns patterns line) as [t'|] eqn:Hl.
  - intros [= <-]. exists 0%nat, line. repeat split; [done|]. intros; lia.
  - intros (i & line' & Hi & Hm & Hbefore)%IH.
    exists (S i), line'. repeat split; [done..|].
    intros [|i'] line'' Hlt; cbn; [by intros [= <-]|].
    intros Hi'. eapply Hbefore; [|done]. lia.
Qed.

Lemma match_lines_none (patterns : list regex) (lines : list str) :
  match_lines patterns lines = None →
  ∀ line, line ∈ lines → match_patterns patterns line = None.
Proof.
  induction lines as [|line lines IH]; cbn; [by intros _ ? ?%elem_of_nil|].
  destruct (match_patterns patterns line) as [t'|] eqn:Hl; [done|].
  intros Hnone line' [->|Hin]%elem_of_cons; [done|]. by apply IH.
Qed.

(** Replacing a code point that does not occur changes nothing, and a
    replacement brings in no code point other than those of the new text. *)
Lemma replace_from_absent (c : N) (new s : str) :
  c ∉ s → replace_from [c] new 0 s = s.
Proof.
  induction s as [|a s IH]; cbn; [done|].
  intros [Hne Hnot]%not_elem_of_cons.
  destruct (c =? a) eqn:Heq; [apply N.eqb_eq in Heq; congruence|].
  cbn. by rewrite IH.
Qed.

Lemma replace_from_elem_of (old new : str) (skip : nat) (s : str) (c : N) :
  c ∈ replace_from old new skip s → c ∈ s ∨ c ∈ new.
Proof.
  revert skip. induction s as [|a s IH]; intros skip; cbn; [by left|].
  destruct skip as [|k].
  - destruct (startswith old (a :: s)).
    + intros [Hnew|Hrest]%elem_of_app; [by right|].
      destruct (IH _ Hrest); [left; by right|by right].
    + intros [->|Hrest]%elem_of_cons; [left; by left|].
      destruct (IH _ Hrest); [left; by right|by right].
  - intros Hrest. destruct (IH _ Hrest); [left; by right|by right].
Qed.

(** C8, as amended.  Teacher detection turns the escaped line breaks of the
    description into line breaks, and takes nothing else out of it; it reads
    the non-empty trimmed lines in order, tries the patterns in order on
    each, and returns the trimmed remainder captured by the first match; it
    returns nothing when no line matches a pattern, and nothing on the empty
    description.  It agrees with the detection of the specification on every
    description without a zero-width space. *)
Theorem extract_teacher_first_match (description : str) :
  let lines := stripped_lines (replace ESCAPED_NL NL description) in
  extract_teacher [] = None
  ∧ match extract_teacher description with
    | Some t =>
      ∃ i j line pat m,
        lines !! i = Some line ∧ teacher_patterns !! j = Some pat
        ∧ re_match pat line = Some m ∧ t = strip (group line m 1)
        ∧ (∀ i' line' pat', (i' < i)%nat → lines !! i' = Some line' →
                            pat' ∈ teacher_patterns → re_match pat' line' = None)
        ∧ (∀ j' pat', (j' < j)%nat → teacher_patterns !! j' = Some pat' →
                      re_match pat' line = None)
    | None =>
      ∀ line pat, line ∈ lines → pat ∈ teacher_patterns → re_match pat line = None
    end
  ∧ (8203 ∉ description →
     extract_teacher_spec description = extract_teacher description).
Proof.
  intros lines. split; [done|]. split.
  - unfold extract_teacher. destruct description as [|c d].
    + intros line pat Hline. by apply elem_of_nil in Hline.
    + fold lines. destruct (match_lines teacher_patterns lines) as [t|] eqn:Hm.
      * apply match_lines_some in Hm as (i & line & Hi & Hp & Hbefore).
        apply match_patterns_some in Hp as (j & pat & m & Hj & Hm & Ht & Hpb).
        exists i, j, line, pat, m. repeat split; [done..| |done].
        intros i' line' pat' Hlt Hi' Hin.
        eapply match_patterns_none; [by eapply Hbefore|done].
      * intros line pat Hline Hpat.
        eapply match_patterns_none; [by eapply match_lines_none|done].
  - intros Hzw. unfold extract_teacher_spec, extract_teacher.
    destruct description as [|c d]; [done|].
    unfold replace at 1, ZERO_WIDTH_SPACE. rewrite replace_from_absent; [done|].
    intros [Hin|Hin]%replace_from_elem_of; [done|].
    apply list_elem_of_singleton in Hin. done.
Qed.

(** *** Place classification *)

Lemma online_room_not_online (r : str) : LABEL_ONLINE_ROOM ++ r ≠ LABEL_ONLINE.
Proof. intros Heq. apply (f_equal (drop 16)) in Heq. cbn in Heq. done. Qed.

Lemma online_room_not_room (r r' : str) : LABEL_ONLINE_ROOM ++ r ≠ LABEL_ROOM ++ r'.
Proof. intros Heq. cbn in Heq. by injection Heq. Qed.

(** C9, as amended.  With the lowercased text of the location and the
    description: an online hint and a room number give the label that has
    both, which is neither the online label nor a room label; an online
    hint alone gives the online label; without a hint a room number gives
    the room label; otherwise a location that is not blank gives the marker
    and the trimmed location, and a blank one the placeholder. *)
Theorem classify_place_priority (location description : str) :
  let blob := str_lower (location ++ NL ++ description) in
  (∀ r, online_hint blob = true → room_of blob = Some r →
        classify_place location description = LABEL_ONLINE_ROOM ++ r
        ∧ classify_place location description ≠ LABEL_ONLINE
        ∧ ∀ r', classify_place location description ≠ LABEL_ROOM ++ r')
  ∧ (online_hint blob = true → room_of blob = None →
     classify_place location description = LABEL_ONLINE)
  ∧ (∀ r, online_hint blob = false → room_of blob = Some r →
          classify_place location description = LABEL_ROOM ++ r)
  ∧ (online_hint blob = false → room_of blob = None → strip location ≠ [] →
     classify_place location description = LABEL_PLACE ++ strip location)
  ∧ (online_hint blob = false → room_of blob = None → strip location = [] →
     classify_place location description = LABEL_NO_PLACE).
Proof.
  intros blob. unfold classify_place, online_hint, room_of. fold blob.
  destruct (contains ONLINE blob || contains ZOOM blob);
    destruct (re_search ROOM_RE blob) as [m|];
    (split; [|split; [|split; [|split]]]); try (intros; discriminate).
  - intros r _ [= <-]. split; [done|]. split.
    + apply online_room_not_online.
    + intros r'. apply online_room_not_room.
  - done.
  - by intros r _ [= <-].
  - intros _ _ Hloc. by destruct (strip location).
  - by intros _ _ ->.
Qed.

End ExtractorProps.

(** ** Message composer *)

Section ComposerProps.
Context `{Unicode} `{TzDatabase}.

Lemma elem_of_week_days (start_day end_day d : Z) :
  d ∈ week_days start_day end_day ↔ (start_day <= d <= end_day)%Z.
Proof.
  unfold week_days. rewrite list_elem_of_In, in_map_iff. split.
  - intros (i & <- & [_ Hi]%in_seq). lia.
  - intros Hd. exists (Z.to_nat (d - start_day)). split; [lia|].
    apply in_seq. lia.
Qed.

(** The dictionary built by the comprehension has exactly the days as keys. *)
Lemma empty_buckets_lookup (days : list Z) (d : Z) :
  is_Some ((list_to_map (map (λ d, (d, [])) days) : gmap Z (list Event)) !! d)
  ↔ d ∈ days.
Proof.
  induction days as [|x days IH]; cbn.
  - rewrite lookup_empty, elem_of_nil. split; [by intros [? ?]|done].
  - rewrite lookup_insert_is_Some', elem_of_cons, IH.
    split; (intros [->|Hd]; [by left|by right]).
Qed.

Lemma bucket_keeps_keys (by_day by_day' : gmap Z (list Event)) (ev : Event) (d : Z) :
  bucket by_day ev = OK by_day' →
  is_Some (by_day' !! d) ↔ is_Some (by_day !! d).
Proof.
  unfold bucket. destruct (kyiv_date (start ev)) as [d0|e]; cbn; [|done].
  destruct (by_day !! d0) as [evs|] eqn:Hd; [|done].
  intros [= <-]. rewrite lookup_insert_is_Some'. split; [|by right].
  intros [<-|Hs]; [by rewrite Hd|done].
Qed.

Lemma bucket_all_in_range (events : list Event) (by_day : gmap Z (list Event)) :
  Forall (λ ev, ∃ d, kyiv_date (start ev) = OK d ∧ is_Some (by_day !! d)) events →
  ∃ by_day', bucket_all by_day events = OK by_day'.
Proof.
  revert by_day. induction events as [|ev events IH]; intros by_day Hall; cbn.
  - by eexists.
  - apply Forall_cons in Hall as [(d & Hd & [evs Hev]) Hall].
    unfold bucket at 1. rewrite Hd. cbn. rewrite Hev. cbn. apply IH.
    eapply Forall_impl; [exact Hall|]. intros ev' (d' & Hd' & Hev'). cbn.
    exists d'. split; [done|]. rewrite lookup_insert_is_Some'. by right.
Qed.

(** The first event that has no bucket decides: if its start can be read
    in Kyiv, the error is that of the missing key. *)
Lemma bucket_all_first_outside (pre post : list Event) (ev : Event) (d : Z)
  (by_day : gmap Z (list Event)) :
  Forall (λ ev, ∃ d, kyiv_date (start ev) = OK d ∧ is_Some (by_day !! d)) pre →
  kyiv_date (start ev) = OK d → by_day !! d = None →
  bucket_all by_day (pre ++ ev :: post) = Raise KeyError.
Proof.
  revert by_day. induction pre as [|ev' pre IH]; intros by_day Hpre Hd Hnone; cbn.
  - unfold bucket. rewrite Hd. cbn. by rewrite Hnone.
  - apply Forall_cons in Hpre as [(d' & Hd' & [evs Hev]) Hpre].
    destruct (bucket by_day ev') as [by_day'|e] eqn:Hb; cbn.
    + apply IH; [|done|].
      * eapply Forall_impl; [exact Hpre|]. intros ev'' (d'' & Hd'' & Hs). cbn.
        exists d''. split; [done|]. by rewrite (bucket_keeps_keys _ _ _ _ Hb).
      * apply eq_None_not_Some. rewrite (bucket_keeps_keys _ _ _ _ Hb).
        rewrite Hnone. by intros [? ?].
    + unfold bucket in Hb. rewrite Hd' in Hb. cbn in Hb. by rewrite Hev in Hb.
Qed.

Lemma astimezone_raises (d : datetime) (z : tzinfo) (e : error) :
  astimezone d z = Raise e → e = OverflowError.
Proof.
  unfold astimezone, add_seconds, fromutc. cbv zeta.
  destruct (decide (tz d = z)); [done|].
  destruct (_ && _); cbn; [|by intros [= <-]].
  destruct z; unfold add_seconds; cbv zeta; destruct (_ && _); cbn; by intros [= <-].
Qed.

Lemma kyiv_date_raises (d : datetime) (e : error) :
  kyiv_date d = Raise e → e = OverflowError.
Proof.
  unfold kyiv_date. destruct (astimezone d KYIV_TZ) eqn:Ha; cbn; [done|].
  intros [= <-]. by eapply astimezone_raises.
Qed.

Lemma bucket_all_raises (events : list Event) (by_day : gmap Z (list Event))
  (e : error) :
  bucket_all by_day events = Raise e → e = KeyError ∨ e = OverflowError.
Proof.
  revert by_day. induction events as [|ev events IH]; intros by_day; cbn; [done|].
  destruct (bucket by_day ev) as [by_day'|e'] eqn:Hb; cbn; [apply IH|].
  intros [= <-]. unfold bucket in Hb.
  destruct (kyiv_date (start ev)) as [d|e''] eqn:Hd; cbn in Hb.
  - destruct (by_day !! d); simplify_eq. by left.
  - simplify_eq. right. by eapply kyiv_date_raises.
Qed.

(** The clock text of a datetime exists exactly when the datetime can be
    converted. *)
Lemma hhmm_OK (t : datetime) :
  (∃ s, hhmm t = OK s) ↔ ∃ k, astimezone t KYIV_TZ = OK k.
Proof.
  unfold hhmm. destruct (astimezone t KYIV_TZ) as [k|e]; cbn.
  - split; intros _; by eexists.
  - split; by intros [? ?].
Qed.

Lemma hhmm_raises (t : datetime) (e : error) :
  hhmm t = Raise e → e = OverflowError.
Proof.
  unfold hhmm. destruct (astimezone t KYIV_TZ) as [k|e'] eqn:Ha; cbn; [done|].
  intros [= <-]. by eapply astimezone_raises.
Qed.

Lemma event_lines_OK (ev : Event) :
  (∃ lines, event_lines ev = OK lines) ↔ times_convert ev.
Proof.
  unfold event_lines, times_convert. rewrite <- !hhmm_OK.
  destruct (split_summary (summary ev)) as [discipline etype].
  destruct (hhmm (start ev)) as [s|e]; cbn; [|split; [by intros [? ?]|by intros [[? ?] _]]].
  destruct (hhmm (end_ ev)) as [s'|e]; cbn.
  - split; [intros _; split; by eexists|intros _; by eexists].
  - split; [by intros [? ?]|by intros [_ [? ?]]].
Qed.

Lemma event_lines_raises (ev : Event) (e : error) :
  event_lines ev = Raise e → e = OverflowError.
Proof.
  unfold event_lines. destruct (split_summary (summary ev)) as [discipline etype].
  destruct (hhmm (start ev)) as [s|e'] eqn:Hs; cbn;
    [|intros [= <-]; by eapply hhmm_raises].
  destruct (hhmm (end_ ev)) as [s'|e'] eqn:He; cbn; [done|].
  intros [= <-]. by eapply hhmm_raises.
Qed.

Lemma events_lines_OK (events : list Event) :
  (∃ lines, events_lines events = OK lines) ↔ Forall times_convert events.
Proof.
  induction events as [|ev events IH]; cbn.
  - split; [constructor|by eexists].
  - rewrite Forall_cons, <- IH, <- event_lines_OK.
    destruct (event_lines ev) as [lines|e]; cbn;
      [|split; [by intros [? ?]|by intros [[? ?] _]]].
    destruct (events_lines events) as [more|e]; cbn.
    + split; [intros _; split; by eexists|intros _; by eexists].
    + split; [by intros [? ?]|by intros [_ [? ?]]].
Qed.

Lemma events_lines_raises (events : list Event) (e : error) :
  events_lines events = Raise e → e = OverflowError.
Proof.
  induction events as [|ev events IH]; cbn; [done|].
  destruct (event_lines ev) as [lines|e'] eqn:Hl; cbn;
    [|intros [= <-]; by eapply event_lines_raises].
  destruct (events_lines events) as [more|e']; cbn; [done|].
  intros [= <-]. by apply IH.
Qed.

(** The block of a day exists exactly when the times of its events can be
    converted; otherwise the error is the overflow error. *)
Lemma format_day_OK (events : list Event) (day : Z) :
  (∃ text, format_day events day = OK text) ↔ Forall times_convert events.
Proof.
  unfold format_day. destruct events as [|ev events].
  - split; [constructor|by eexists].
  - rewrite <- events_lines_OK.
    destruct (events_lines (ev :: events)) as [more|e]; cbn.
    + split; intros _; by eexists.
    + split; by intros [? ?].
Qed.

Lemma format_day_raises (events : list Event) (day : Z) (e : error) :
  format_day events day = Raise e → e = OverflowError.
Proof.
  unfold format_day. destruct events as [|ev events]; [done|].
  destruct (events_lines (ev :: events)) as [more|e'] eqn:Hl; cbn; [done|].
  intros [= <-]. by eapply events_lines_raises.
Qed.

Lemma day_blocks_OK (by_day : gmap Z (list Event)) (days : list Z) :
  (∃ blocks, day_blocks by_day days = OK blocks)
  ↔ Forall (λ d, Forall times_convert (default [] (by_day !! d))) days.
Proof.
  induction days as [|d days IH]; cbn.
  - split; [constructor|by eexists].
  - rewrite Forall_cons, <- IH, <- (format_day_OK _ d).
    destruct (format_day (default [] (by_day !! d)) d) as [block|e]; cbn;
      [|split; [by intros [? ?]|by intros [[? ?] _]]].
    destruct (day_blocks by_day days) as [more|e]; cbn.
    + split; [intros _; split; by eexists|intros _; by eexists].
    + split; [by intros [? ?]|by intros [_ [? ?]]].
Qed.

Lemma day_blocks_raises (by_day : gmap Z (list Event)) (days : list Z) (e : error) :
  day_blocks by_day days = Raise e → e = OverflowError.
Proof.
  induction days as [|d days IH]; cbn; [done|].
  destruct (format_day (default [] (by_day !! d)) d) as [block|e'] eqn:Hf; cbn;
    [|intros [= <-]; by eapply format_day_raises].
  destruct (day_blocks by_day days) as [more|e']; cbn; [done|].
  intros [= <-]. by apply IH.
Qed.

(** Every bucket receives the events of its day, in the order given. *)
Lemma day_events_cons (ev : Event) (events : list Event) (d : Z) :
  day_events (ev :: events) d
  = (if decide (kyiv_date (start ev) = OK d) then [ev] else []) ++ day_events events d.
Proof. unfold day_events. rewrite filter_cons. by destruct (decide _). Qed.

Lemma empty_buckets_value (days : list Z) (d : Z) :
  d ∈ days →
  (list_to_map (map (λ d, (d, [])) days) : gmap Z (list Event)) !! d = Some [].
Proof.
  induction days as [|x days IH]; cbn; [by intros ?%elem_of_nil|].
  destruct (decide (x = d)) as [->|Hne].
  - by rewrite lookup_insert_eq.
  - rewrite lookup_insert_ne by done. intros [?|?]%elem_of_cons; [done|]. by apply IH.
Qed.

Lemma bucket_all_spec (events : list Event) (by_day by_day' : gmap Z (list Event)) :
  bucket_all by_day events = OK by_day' →
  ∀ d, by_day' !! d = (λ evs, evs ++ day_events events d) <$> (by_day !! d).
Proof.
  revert by_day. induction events as [|ev events IH]; intros by_day;
    cbn [bucket_all].
  - intros [= <-] d. destruct (by_day !! d); cbn; by rewrite ?app_nil_r.
  - unfold bucket at 1.
    destruct (kyiv_date (start ev)) as [d0|e] eqn:Hd0; cbn [mbind result_bind];
      [|done].
    destruct (by_day !! d0) as [evs0|] eqn:Hev; cbn [mbind result_bind]; [|done].
    intros Hall d. rewrite (IH _ Hall d), day_events_cons.
    destruct (decide (d0 = d)) as [<-|Hne].
    + rewrite lookup_insert_eq, Hev, decide_True by done. cbn.
      by rewrite <- (assoc_L (++)).
    + rewrite lookup_insert_ne by done.
      rewrite decide_False by congruence. done.
Qed.

(** After bucketing, the bucket of a day of the range holds the events of
    that day. *)
Lemma week_buckets (events : list Event) (start_day end_day : Z)
  (by_day : gmap Z (list Event)) :
  bucket_all (list_to_map (map (λ d, (d, [])) (week_days start_day end_day))) events
  = OK by_day →
  ∀ d, d ∈ week_days start_day end_day →
       default [] (by_day !! d) = day_events events d.
Proof.
  intros Hb d Hd. by rewrite (bucket_all_spec _ _ _ Hb d), empty_buckets_value.
Qed.

(** The range filter returns exactly when every start can be read in
    Kyiv, and then keeps the events that start in the range. *)
Lemma events_in_range_spec (events : list Event) (start_day end_day : Z) :
  match events_in_range events start_day end_day with
  | OK out =>
    Forall start_converts events
    ∧ out = filter (starts_within start_day end_day) events
  | Raise e => e = OverflowError ∧ ¬ Forall start_converts events
  end.
Proof.
  induction events as [|ev events IH]; [split; [constructor|done]|].
  cbn [events_in_range].
  destruct (kyiv_date (start ev)) as [d|e] eqn:Hd; cbn [mbind result_bind].
  - destruct (events_in_range events start_day end_day) as [out|e];
      cbn [mbind result_bind].
    + destruct IH as [Hall ->]. split; [constructor; [by exists d|done]|].
      rewrite filter_cons.
      destruct (decide (starts_within start_day end_day ev)) as [Hin|Hout].
      * destruct Hin as (d' & Hd' & Hr). rewrite Hd in Hd'. injection Hd' as <-.
        assert ((start_day <=? d)%Z && (d <=? end_day)%Z = true) as ->; [|done].
        apply andb_true_intro. split; apply Z.leb_le; lia.
      * assert ((start_day <=? d)%Z && (d <=? end_day)%Z = false) as ->; [|done].
        apply not_true_is_false. intros [H1 H2]%andb_true_iff.
        apply Hout. exists d. split; [done|]. split; by apply Z.leb_le.
    + destruct IH as [-> Hnot]. split; [done|].
      intros [_ Hall]%Forall_cons. contradiction.
  - split; [by eapply kyiv_date_raises|].
    intros [[d' Hd'] _]%Forall_cons. congruence.
Qed.

(** C10, as amended.  The week message is built from buckets for the days
    from [start_day] to [end_day] alone.  When the first event that does
    not start, in Kyiv time, on one of those days starts on a day outside
    them, the composer raises the missing-key error.  When every event
    starts on one of those days, as do the events that the range filter
    returns for the same days, the composer returns a message if the start
    and the end of every event can be converted to Kyiv, and raises the
    overflow error if one cannot.  It raises no other error. *)
Theorem format_week_message_needs_range (now : datetime) (events : list Event)
  (start_day end_day : Z) :
  (∀ pre ev post d,
     events = pre ++ ev :: post →
     Forall (starts_within start_day end_day) pre →
     kyiv_date (start ev) = OK d → ¬ (start_day <= d <= end_day)%Z →
     format_week_message now events start_day end_day = Raise KeyError)
  ∧ (Forall (starts_within start_day end_day) events →
     (Forall times_convert events →
      ∃ msg, format_week_message now events start_day end_day = OK msg)
     ∧ (¬ Forall times_convert events →
        format_week_message now events start_day end_day = Raise OverflowError))
  ∧ (∀ all_events,
       events_in_range all_events start_day end_day = OK events →
       Forall (starts_within start_day end_day) events)
  ∧ (∀ e, format_week_message now events start_day end_day = Raise e →
          e = KeyError ∨ e = OverflowError).
Proof.
  assert (Hkeys : ∀ evs,
    Forall (starts_within start_day end_day) evs →
    Forall (λ ev, ∃ d, kyiv_date (start ev) = OK d
                       ∧ is_Some ((list_to_map (map (λ d, (d, []))
                                     (week_days start_day end_day))
                                   : gmap Z (list Event)) !! d)) evs).
  { intros evs Hall. eapply Forall_impl; [exact Hall|].
    intros ev (d & Hd & Hr). exists d. split; [done|].
    by rewrite empty_buckets_lookup, elem_of_week_days. }
  assert (Hraise : ∀ e, format_week_message now events start_day end_day = Raise e →
                        e = KeyError ∨ e = OverflowError).
  { intros e. unfold format_week_message. cbv zeta.
    destruct (bucket_all _ events) as [by_day|e'] eqn:Hb; cbn.
    - destruct (day_blocks by_day _) as [blocks|e'] eqn:Hd; cbn; [done|].
      intros [= <-]. right. by eapply day_blocks_raises.
    - intros [= <-]. by eapply bucket_all_raises. }
  split; [|split; [|split; [|exact Hraise]]].
  - intros pre ev post d -> Hpre Hd Hout.
    unfold format_week_message. cbv zeta.
    rewrite (bucket_all_first_outside pre post ev d); [done|by apply Hkeys|done|].
    apply eq_None_not_Some. by rewrite empty_buckets_lookup, elem_of_week_days.
  - intros Hin.
    assert (Hblocks : ∀ by_day,
      bucket_all (list_to_map (map (λ d, (d, [])) (week_days start_day end_day)))
        events = OK by_day →
      (∃ blocks, day_blocks by_day (week_days start_day end_day) = OK blocks)
      ↔ Forall times_convert events).
    { intros by_day Hb. rewrite day_blocks_OK, !Forall_forall. split.
      - intros Hdays ev Hev.
        rewrite Forall_forall in Hin. destruct (Hin ev Hev) as (d & Hd & Hr).
        apply elem_of_week_days in Hr. specialize (Hdays d Hr).
        rewrite (week_buckets _ _ _ _ Hb d Hr), Forall_forall in Hdays.
        apply Hdays. unfold day_events. by apply list_elem_of_filter.
      - intros Hall d Hd. rewrite (week_buckets _ _ _ _ Hb d Hd).
        apply Forall_forall. intros ev [_ Hev]%list_elem_of_filter. by apply Hall. }
    destruct (bucket_all_in_range events _ (Hkeys events Hin)) as [by_day Hb].
    specialize (Hblocks by_day Hb). split.
    + intros Hall. apply Hblocks in Hall as [blocks Hd].
      unfold format_week_message. cbv zeta. rewrite Hb. cbn. rewrite Hd. cbn.
      by eexists.
    + intros Hnot.
      destruct (format_week_message now events start_day end_day) as [msg|e] eqn:Hm.
      * exfalso. apply Hnot, Hblocks. revert Hm.
        unfold format_week_message. cbv zeta. rewrite Hb. cbn.
        destruct (day_blocks by_day _) as [blocks|e]; cbn; [by eexists|done].
      * f_equal. revert Hm. unfold format_week_message. cbv zeta. rewrite Hb. cbn.
        destruct (day_blocks by_day _) as [blocks|e'] eqn:Hd; cbn; [done|].
        intros [= <-]. by eapply day_blocks_raises.
  - intros all_events Hr.
    pose proof (events_in_range_spec all_events start_day end_day) as Hspec.
    rewrite Hr in Hspec. destruct Hspec as [_ ->].
    apply Forall_forall. by intros ev [? _]%list_elem_of_filter.
Qed.

End ComposerProps.

(** * The claims on concrete inputs *)

(** Evaluation uses the excerpt [ucd] of the Unicode database and the
    time-zone database [tzdata]. *)

(** ** Temporal normalizer *)

(** C2 fails as stated: a token that ends in Z but is not in the format of
    the feed, eight digits that are not a date, a zone identifier that the
    database does not find, and the last second of the year 9999 in UTC,
    which is past the last time of the day in Kyiv, all make the normalizer
    raise. *)
Lemma parse_dt_raises :
  @_parse_dt ucd tzdata TOKEN_ISO_UTC None = Raise ValueError
  ∧ @_parse_dt ucd tzdata TOKEN_FEB_30 None = Raise ValueError
  ∧ @_parse_dt ucd tzdata TOKEN_DATE (Some UNKNOWN_KEY) = Raise ZoneInfoNotFound
  ∧ @_parse_dt ucd tzdata TOKEN_LAST_SECOND_UTC None = Raise OverflowError
  ∧ ¬ (∀ value tzid, ∃ t, @_parse_dt ucd tzdata value tzid = OK t).
Proof.
  assert (Hiso : @_parse_dt ucd tzdata TOKEN_ISO_UTC None = Raise ValueError)
    by (vm_compute; reflexivity).
  split; [exact Hiso|].
  split; [vm_compute; reflexivity|].
  split; [vm_compute; reflexivity|].
  split; [vm_compute; reflexivity|].
  intros Hall. destruct (Hall TOKEN_ISO_UTC None) as [t Ht].
  rewrite Hiso in Ht. discriminate.
Qed.

Lemma parse_dt_normalizes_witness :
  let r := OK (DateTime (wall_of 2024 3 4 9 0 0) KYIV_TZ) in
  @_parse_dt ucd tzdata TOKEN_LOCAL_PADDED (Some WARSAW_KEY) = r
  ∧ (length (strip TOKEN_LOCAL_PADDED) = 8%nat → ∃ t, r = OK t)
  ∧ (∀ t, r = OK t → length (strip TOKEN_LOCAL_PADDED) ≠ 8%nat → tz t = KYIV_TZ)
  ∧ (∀ e, r = Raise e → e = OverflowError).
Proof.
  cbv zeta.
  apply (@parse_dt_normalizes ucd tzdata).
  change (strip TOKEN_LOCAL_PADDED) with (local_token 2024 3 4 8 0 0).
  change (OK (DateTime (wall_of 2024 3 4 9 0 0) KYIV_TZ))
    with (@in_kyiv tzdata (DateTime (wall_of 2024 3 4 8 0 0) (Zone WARSAW_KEY))).
  apply (@normalizes_local tzdata).
  - unfold valid_date. change (days_in_month 2024 3) with 31%Z. lia.
  - unfold valid_time. lia.
  - apply (@given_zone_key tzdata); [discriminate|reflexivity].
Defined.

(** ** Event block parser *)

(** C4 fails as stated: this block holds a start value and an end value,
    and the parser raises instead of yielding an event. *)
Lemma block_with_malformed_start_raises :
  let fields := foldl (@store_field ucd) ∅ BODY_MALFORMED in
  let block := BEGIN_VEVENT :: BODY_MALFORMED ++ [END_VEVENT] in
  snd (field fields DTSTART) ≠ []
  ∧ snd (field fields DTEND) ≠ []
  ∧ @run_lines ucd tzdata block (PState false ∅ []) = Raise ValueError
  ∧ @parse_ics_events ucd tzdata insertion (join NL block) = Raise ValueError.
Proof.
  cbv zeta.
  split; [vm_compute; discriminate|].
  split; [vm_compute; discriminate|].
  split; vm_compute; reflexivity.
Qed.

Lemma block_yields_event_witness :
  @run_lines ucd tzdata (BEGIN_VEVENT :: BODY_LECTURE ++ [END_VEVENT])
    (PState false ∅ [])
  = OK (PState false ∅
          [mkEvent (DateTime (wall_of 2024 3 4 9 0 0) KYIV_TZ)
                   (DateTime (wall_of 2024 3 4 10 30 0) KYIV_TZ)
                   SUMMARY_LECTURE [] []]).
Proof.
  assert (Hbody : Forall (λ l, l ≠ BEGIN_VEVENT ∧ l ≠ END_VEVENT) BODY_LECTURE).
  { repeat constructor; discriminate. }
  refine (proj1 (proj2 (@block_yields_event_or_nothing ucd tzdata
            (PState false ∅ []) BODY_LECTURE Hbody))
            (DateTime (wall_of 2024 3 4 9 0 0) KYIV_TZ)
            (DateTime (wall_of 2024 3 4 10 30 0) KYIV_TZ) _ _ _ _).
  - vm_compute. discriminate.
  - vm_compute. discriminate.
  - vm_compute. reflexivity.
  - vm_compute. reflexivity.
Defined.

Lemma parse_ics_events_sorted_stable_witness :
  ∃ blocks,
    @collect_events ucd tzdata FEED_TIES = OK blocks
    ∧ EVENTS_TIES ≡ₚ blocks
    ∧ (∀ key : Event → Z,
         (∀ a b, a ∈ blocks → b ∈ blocks →
                 @datetime_lt tzdata (start a) (start b) = (key a <? key b)%Z) →
         StronglySorted (λ a b, (key a <= key b)%Z) EVENTS_TIES
         ∧ ∀ t, filter (λ e, key e = t) EVENTS_TIES = filter (λ e, key e = t) blocks)
    ∧ (Forall (λ e, tz (start e) = KYIV_TZ) blocks →
       StronglySorted (λ a b, (wall (start a) <= wall (start b))%Z) EVENTS_TIES
       ∧ ∀ t, filter (λ e, wall (start e) = t) EVENTS_TIES
              = filter (λ e, wall (start e) = t) blocks)
    ∧ ((∀ a b, a ∈ blocks → b ∈ blocks → tz (start a) = tz (start b) →
               (wall (start a) <? wall (start b))%Z
               = (@instant tzdata (start a) <? @instant tzdata (start b))%Z) →
       StronglySorted
         (λ a b, (@instant tzdata (start a) <= @instant tzdata (start b))%Z)
         EVENTS_TIES
       ∧ ∀ t, filter (λ e, @instant tzdata (start e) = t) EVENTS_TIES
              = filter (λ e, @instant tzdata (start e) = t) blocks).
Proof.
  apply (@parse_ics_events_sorted_stable ucd tzdata insertion FEED_TIES EVENTS_TIES).
  vm_compute. reflexivity.
Defined.

(** C5 fails as stated: the two blocks of this feed come in the order of
    their start instants, and the parser returns the later one first. Both
    starts are in the Kyiv zone, where the runtime compares wall-clock
    times: 03:30, read a second time, comes before 03:45. *)
Lemma parse_ics_events_repeated_hour :
  @parse_ics_events ucd tzdata insertion FEED_REPEATED_HOUR = OK EVENTS_REPEATED_HOUR
  ∧ map (λ e, @instant tzdata (start e)) EVENTS_REPEATED_HOUR
    = [wall_of 2024 10 27 1 30 0; wall_of 2024 10 27 0 45 0]
  ∧ map (λ e, (wall (start e), fold (start e))) EVENTS_REPEATED_HOUR
    = [(wall_of 2024 10 27 3 30 0, true); (wall_of 2024 10 27 3 45 0, false)]
  ∧ ¬ StronglySorted
        (λ a b, (@instant tzdata (start a) <= @instant tzdata (start b))%Z)
        EVENTS_REPEATED_HOUR
  ∧ ¬ (∀ ics_text out,
         @parse_ics_events ucd tzdata insertion ics_text = OK out →
         StronglySorted
           (λ a b, (@instant tzdata (start a) <= @instant tzdata (start b))%Z) out).
Proof.
  assert (Hparse : @parse_ics_events ucd tzdata insertion FEED_REPEATED_HOUR
                   = OK EVENTS_REPEATED_HOUR) by (vm_compute; reflexivity).
  assert (Hnot : ¬ StronglySorted
            (λ a b, (@instant tzdata (start a) <= @instant tzdata (start b))%Z)
            EVENTS_REPEATED_HOUR).
  { unfold EVENTS_REPEATED_HOUR. intros Hs.
    apply StronglySorted_inv in Hs as [_ Hall].
    apply Forall_cons in Hall as [Hle _]. vm_compute in Hle. by apply Hle. }
  split; [exact Hparse|]. split; [vm_compute; reflexivity|].
  split; [vm_compute; reflexivity|]. split; [exact Hnot|].
  intros Hall. exact (Hnot (Hall _ _ Hparse)).
Qed.

(** ** Semantic extractors *)

(** C7 fails on the code: the link returned for this text ends with the
    dotless i, a letter outside ASCII and outside the character set of a
    link, which the search that ignores case takes for the letter i. *)
Theorem extract_zoom_links_takes_dotless_i :
  @extract_zoom_links ucd TEXT_LINK_TURKISH = [LINK_WITH_DOTLESS_I]
  ∧ 305 ∈ LINK_WITH_DOTLESS_I
  ∧ url_char 305 = false
  ∧ ¬ (∀ text link, link ∈ @extract_zoom_links ucd text →
                    Forall (λ c, url_char c = true) link).
Proof.
  assert (Hlinks : @extract_zoom_links ucd TEXT_LINK_TURKISH = [LINK_WITH_DOTLESS_I])
    by (vm_compute; reflexivity).
  assert (Hin : 305 ∈ LINK_WITH_DOTLESS_I).
  { apply list_elem_of_In. unfold LINK_WITH_DOTLESS_I. cbn. tauto. }
  assert (Hout : url_char 305 = false) by reflexivity.
  split; [exact Hlinks|]. split; [exact Hin|]. split; [exact Hout|].
  intros Hall. specialize (Hall TEXT_LINK_TURKISH LINK_WITH_DOTLESS_I).
  rewrite Hlinks in Hall. specialize (Hall (list_elem_of_here _ _)).
  rewrite Forall_forall in Hall. specialize (Hall 305 Hin).
  rewrite Hout in Hall. discriminate.
Qed.

(** C8 fails as stated: a zero-width space before the title stays in the
    line, so no pattern matches it, while detection as the specification
    words it finds the teacher. *)
Lemma extract_teacher_keeps_zero_width :
  @extract_teacher ucd DESCRIPTION_ZERO_WIDTH = None
  ∧ @extract_teacher_spec ucd DESCRIPTION_ZERO_WIDTH = Some TEACHER_IVANOV.
Proof. split; vm_compute; reflexivity. Qed.

(** C9 fails as stated: a location that is not empty is neither kept
    verbatim when blanks surround it, nor kept at all when it is blank. *)
Lemma classify_place_trims_location :
  online_hint (@str_lower ucd (LOCATION_PADDED ++ NL ++ [])) = false
  ∧ @room_of ucd (@str_lower ucd (LOCATION_PADDED ++ NL ++ [])) = None
  ∧ LOCATION_PADDED ≠ []
  ∧ @classify_place ucd LOCATION_PADDED [] ≠ LABEL_PLACE ++ LOCATION_PADDED
  ∧ @classify_place ucd LOCATION_PADDED [] = LABEL_PLACE ++ strip LOCATION_PADDED
  ∧ @classify_place ucd [32; 32] [] = LABEL_NO_PLACE.
Proof.
  split; [vm_compute; reflexivity|].
  split; [vm_compute; reflexivity|].
  split; [discriminate|].
  split; [vm_compute; discriminate|].
  split; vm_compute; reflexivity.
Qed.

(** C6 fails as stated: the parts are trimmed before they are rejoined, so
    the blanks around an inner em-dash are lost, while rejoining the parts
    of the split keeps them. *)
Lemma split_summary_trims_parts :
  @split_summary ucd TITLE_TWO_DASHES = (DISCIPLINE_TRIMMED, Some TYPE_LECTURE)
  ∧ @split_summary_spec ucd TITLE_TWO_DASHES = (DISCIPLINE_AS_WRITTEN, Some TYPE_LECTURE)
  ∧ @split_summary ucd [32; 120] = ([120], None)
  ∧ @split_summary_spec ucd [32; 120] = ([32; 120], None).
Proof. repeat split; vm_compute; reflexivity. Qed.

Lemma split_summary_priority_witness :
  @split_summary ucd SUMMARY_LECTURE = (DISCIPLINE_MATH, Some TYPE_LECTURE).
Proof.
  refine (proj1 (proj2 (proj2 (@split_summary_priority ucd SUMMARY_LECTURE)))
            DISCIPLINE_MATH TYPE_LECTURE _).
  change DISCIPLINE_MATH
    with (strip (join [EM_DASH]
                   (left_parts (map strip (split EM_DASH (strip SUMMARY_LECTURE)))))).
  apply (@splits_found ucd).
  - vm_compute. lia.
  - apply first_stem_here. vm_compute. reflexivity.
Defined.

Lemma classify_place_priority_witness :
  @classify_place ucd [] DESCRIPTION_ZOOM_ROOM = LABEL_ONLINE_ROOM ++ ROOM_207
  ∧ @classify_place ucd [] DESCRIPTION_ZOOM_ROOM ≠ LABEL_ONLINE
  ∧ ∀ r', @classify_place ucd [] DESCRIPTION_ZOOM_ROOM ≠ LABEL_ROOM ++ r'.
Proof.
  refine (proj1 (@classify_place_priority ucd [] DESCRIPTION_ZOOM_ROOM) ROOM_207 _ _).
  - vm_compute. reflexivity.
  - vm_compute. reflexivity.
Defined.

Lemma format_week_message_needs_range_witness :
  @format_week_message ucd tzdata NOW_SUNDAY EVENTS_TIES TUESDAY (TUESDAY + 6)
  = Raise KeyError
  ∧ ∃ msg, @format_week_message ucd tzdata NOW_SUNDAY EVENTS_TIES MONDAY (MONDAY + 6)
           = OK msg.
Proof.
  split.
  - refine (proj1 (@format_week_message_needs_range ucd tzdata NOW_SUNDAY
                     EVENTS_TIES TUESDAY (TUESDAY + 6))
              [] _ _ MONDAY eq_refl _ _ _).
    + constructor.
    + vm_compute. reflexivity.
    + vm_compute. intros [Hle _]. apply Hle. reflexivity.
  - refine (proj1 (proj1 (proj2 (@format_week_message_needs_range ucd tzdata
                                   NOW_SUNDAY EVENTS_TIES MONDAY (MONDAY + 6))) _) _).
    + apply (bool_decide_unpack _). vm_compute. exact I.
    + repeat constructor; eexists; vm_compute; reflexivity.
Defined.

(** C10 fails as stated: the event of this feed starts on the Monday of the
    range and the range filter keeps it, but its end, the first day of the
    year 1 in Warsaw, is before the first time of the calendar at UTC, so
    the clock text of the end cannot be made and the composer raises the
    overflow error. *)
Lemma format_week_message_end_overflows :
  @parse_ics_events ucd tzdata insertion FEED_END_YEAR_ONE = OK EVENTS_END_YEAR_ONE
  ∧ @events_in_range tzdata EVENTS_END_YEAR_ONE MONDAY (MONDAY + 6)
    = OK EVENTS_END_YEAR_ONE
  ∧ Forall (@starts_within tzdata MONDAY (MONDAY + 6)) EVENTS_END_YEAR_ONE
  ∧ @format_week_message ucd tzdata NOW_SUNDAY EVENTS_END_YEAR_ONE MONDAY (MONDAY + 6)
    = Raise OverflowError
  ∧ ¬ (∀ events,
         Forall (@starts_within tzdata MONDAY (MONDAY + 6)) events →
         ∃ msg, @format_week_message ucd tzdata NOW_SUNDAY events MONDAY (MONDAY + 6)
                = OK msg).
Proof.
  assert (Hin : Forall (@starts_within tzdata MONDAY (MONDAY + 6)) EVENTS_END_YEAR_ONE).
  { apply (bool_decide_unpack _). vm_compute. exact I. }
  assert (Hmsg : @format_week_message ucd tzdata NOW_SUNDAY EVENTS_END_YEAR_ONE
                   MONDAY (MONDAY + 6) = Raise OverflowError)
    by (vm_compute; reflexivity).
  split; [vm_compute; reflexivity|]. split; [vm_compute; reflexivity|].
  split; [exact Hin|]. split; [exact Hmsg|].
  intros Hall. destruct (Hall _ Hin) as [msg Hok]. rewrite Hmsg in Hok. discriminate.
Qed.

(** * Further properties *)

(** ** Text *)

Lemma lstrip_idem (s : str) : lstrip (lstrip s) = lstrip s.
Proof.
  induction s as [|c s IH]; cbn; [done|].
  destruct (isspace c) eqn:Hc; [done|]. cbn. by rewrite Hc.
Qed.

Lemma lstrip_head (s : str) :
  lstrip s = [] ∨ ∃ c t, lstrip s = c :: t ∧ isspace c = false.
Proof.
  induction s as [|c s IH]; cbn; [by left|].
  destruct (isspace c) eqn:Hc; [done|]. right. by exists c, s.
Qed.

Lemma lstrip_snoc (s : str) (c : N) :
  isspace c = false → ∃ s', lstrip (s ++ [c]) = s' ++ [c].
Proof.
  intros Hc. induction s as [|a s IH]; cbn.
  - rewrite Hc. by exists [].
  - destruct (isspace a); [done|]. by exists (a :: s).
Qed.

Lemma rstrip_idem (s : str) : rstrip (rstrip s) = rstrip s.
Proof. unfold rstrip. by rewrite rev_involutive, lstrip_idem. Qed.

Lemma lstrip_rstrip_head (c : N) (t : str) :
  isspace c = false → lstrip (rstrip (c :: t)) = rstrip (c :: t).
Proof.
  intros Hc. unfold rstrip. cbn [rev].
  destruct (lstrip_snoc (rev t) c Hc) as [s' ->].
  rewrite rev_app_distr. cbn. by rewrite Hc.
Qed.

Lemma strip_idem (s : str) : strip (strip s) = strip s.
Proof.
  unfold strip. destruct (lstrip_head s) as [->|(c & t & -> & Hc)]; [done|].
  by rewrite lstrip_rstrip_head, rstrip_idem.
Qed.

(** Replacing one code point works code point by code point. *)
Lemma replace_char (c : N) (new s : str) :
  replace [c] new s = flat_map (λ x, if x =? c then new else [x]) s.
Proof.
  unfold replace. induction s as [|a s IH]; cbn; [done|].
  rewrite andb_true_r, (N.eqb_sym c a).
  destruct (a =? c); cbn; by rewrite IH.
Qed.

Lemma flat_map_flat_map {A B C : Type} (f : A → list B) (g : B → list C) (l : list A) :
  flat_map g (flat_map f l) = flat_map (λ x, flat_map g (f x)) l.
Proof.
  induction l as [|x l IH]; cbn; [done|]. by rewrite flat_map_app, IH.
Qed.

Lemma elem_of_flat_map {A B : Type} (f : A → list B) (l : list A) (y : B) :
  y ∈ flat_map f l ↔ ∃ x, x ∈ l ∧ y ∈ f x.
Proof.
  rewrite list_elem_of_In, in_flat_map. setoid_rewrite list_elem_of_In. done.
Qed.



(** ** Dedupe gate, once more *)

(** X1. Marking a key as posted with a stamp closes the gate for that key
    and that stamp only: the same key with any other stamp may post, and
    every other key is answered as before the marking.  Marking a key again
    overwrites the stamp it had. *)
Theorem mark_posted_suppresses_one_stamp (state : gmap str str) (key stamp key' stamp' : str) :
  should_post (mark_posted state key stamp) key' stamp'
  = (if decide (key' = key) then negb (bool_decide (stamp' = stamp))
     else should_post state key' stamp')
  ∧ mark_posted (mark_posted state key stamp) key stamp' = mark_posted state key stamp'.
Proof.
  unfold should_post, mark_posted. split; [|apply insert_insert_eq].
  cbv zeta. destruct (decide (key' = key)) as [->|Hne].
  - rewrite lookup_insert_eq. f_equal. apply bool_decide_ext. naive_solver.
  - by rewrite lookup_insert_ne.
Qed.

(** ** Escaping *)

Lemma escape_html_flat_map (s : str) : escape_html s = flat_map escape_char s.
Proof.
  unfold escape_html. rewrite !replace_char, !flat_map_flat_map.
  apply flat_map_ext. intros c. unfold escape_char.
  destruct (c =? 38) eqn:H38; [done|].
  cbn. destruct (c =? 60) eqn:H60; [done|].
  cbn. destruct (c =? 62) eqn:H62; [done|]. cbn. by rewrite ?app_nil_r.
Qed.

Lemma escape_char_safe (c x : N) : x ∈ escape_char c → x ≠ 60 ∧ x ≠ 62.
Proof.
  unfold escape_char.
  destruct (c =? 38) eqn:H38; [|destruct (c =? 60) eqn:H60; [|destruct (c =? 62) eqn:H62]].
  - intros Hx. apply list_elem_of_In in Hx. cbn in Hx. intuition subst; done.
  - intros Hx. apply list_elem_of_In in Hx. cbn in Hx. intuition subst; done.
  - intros Hx. apply list_elem_of_In in Hx. cbn in Hx. intuition subst; done.
  - intros ->%list_elem_of_singleton. apply N.eqb_neq in H60, H62. done.
Qed.

(** X18. Escaping works one code point at a time: the ampersand and the
    two angle brackets become their entities and every other code point
    stays.  The escaped text holds no angle bracket, and a text without
    these three code points is returned as it is. *)
Theorem escape_html_per_char (s : str) :
  escape_html s = flat_map escape_char s
  ∧ (60 ∉ escape_html s) ∧ (62 ∉ escape_html s)
  ∧ ((38 ∉ s) → (60 ∉ s) → (62 ∉ s) → escape_html s = s).
Proof.
  rewrite escape_html_flat_map. split; [done|]. split; [|split].
  - intros (c & _ & Hx)%elem_of_flat_map. by apply escape_char_safe in Hx as [? _].
  - intros (c & _ & Hx)%elem_of_flat_map. by apply escape_char_safe in Hx as [_ ?].
  - induction s as [|c s IH]; [done|].
    intros [H1 ?]%not_elem_of_cons [H2 ?]%not_elem_of_cons [H3 ?]%not_elem_of_cons.
    cbn. rewrite IH by done. unfold escape_char.
    apply not_eq_sym, N.eqb_neq in H1, H2, H3. by rewrite H1, H2, H3.
Qed.

Lemma escape_html_attr_flat_map (s : str) :
  escape_html_attr s = flat_map escape_attr_char s.
Proof.
  unfold escape_html_attr. rewrite escape_html_flat_map, replace_char, flat_map_flat_map.
  apply flat_map_ext. intros c. unfold escape_attr_char, escape_char.
  destruct (c =? 34) eqn:H34.
  - apply N.eqb_eq in H34. subst c. done.
  - destruct (c =? 38); [done|]. destruct (c =? 60); [done|].
    destruct (c =? 62); [done|]. cbn. by rewrite H34.
Qed.

(** X19. Escaping for an attribute also works one code point at a time, the
    double quote becoming its entity as well; the result holds no double
    quote and no angle bracket, so it cannot end the attribute or the tag
    it is written in. *)
Theorem escape_html_attr_no_quote (s : str) :
  escape_html_attr s = flat_map escape_attr_char s
  ∧ (34 ∉ escape_html_attr s) ∧ (60 ∉ escape_html_attr s)
  ∧ (62 ∉ escape_html_attr s).
Proof.
  rewrite escape_html_attr_flat_map. split; [done|].
  assert (Hsafe : ∀ c x, x ∈ escape_attr_char c → x ≠ 34 ∧ x ≠ 60 ∧ x ≠ 62).
  { intros c x. unfold escape_attr_char. destruct (c =? 34) eqn:H34.
    - intros Hx. apply list_elem_of_In in Hx. cbn in Hx. intuition subst; done.
    - intros Hx. split; [|by apply escape_char_safe in Hx].
      revert Hx. unfold escape_char.
      destruct (c =? 38); [|destruct (c =? 60); [|destruct (c =? 62)]];
        intros Hx; apply list_elem_of_In in Hx; cbn in Hx;
        apply N.eqb_neq in H34; intuition subst; done. }
  repeat split; intros (c & _ & Hx)%elem_of_flat_map; apply Hsafe in Hx; tauto.
Qed.

(** X20. Escaping loses nothing: two texts have the same escaped form only
    when they are the same text. *)
Theorem escape_html_inj (s1 s2 : str) :
  escape_html s1 = escape_html s2 ↔ s1 = s2.
Proof.
  split; [|by intros ->].
  rewrite !escape_html_flat_map. revert s2.
  induction s1 as [|c1 s1 IH]; intros [|c2 s2]; cbn; [done| | |].
  - unfold escape_char. repeat (destruct (_ =? _)); done.
  - unfold escape_char. repeat (destruct (_ =? _)); done.
  - unfold escape_char.
    destruct (c1 =? 38) eqn:A1; [|destruct (c1 =? 60) eqn:B1; [|destruct (c1 =? 62) eqn:C1]];
    (destruct (c2 =? 38) eqn:A2; [|destruct (c2 =? 60) eqn:B2; [|destruct (c2 =? 62) eqn:C2]]);
    rewrite ?N.eqb_eq, ?N.eqb_neq in *; unfold AMP, LT, GT; cbn;
    intros Heq; simplify_eq; try done; f_equal; by apply IH.
Qed.

(** ** Folded-line reassembler, once more *)

Lemma splitlines_from_line (eol cur l rest : str) :
  eol = NL ∨ eol = CRLF → no_linebreak l →
  splitlines_from cur (l ++ eol ++ rest) = (rev cur ++ l) :: splitlines_from [] rest.
Proof.
  intros Heol Hl. revert cur. induction Hl as [|c l Hc _ IH]; intros cur.
  - rewrite app_nil_r. destruct Heol as [-> | ->]; reflexivity.
  - cbn [app splitlines_from]. rewrite Hc, IH. cbn [rev].
    by rewrite <- app_assoc.
Qed.

Lemma splitlines_write_lines (eol : str) (lines : list str) :
  eol = NL ∨ eol = CRLF → Forall no_linebreak lines →
  splitlines (write_lines eol lines) = lines.
Proof.
  intros Heol Hlines. unfold splitlines, write_lines.
  induction Hlines as [|l lines Hl _ IH]; [done|].
  cbn [flat_map]. rewrite <- app_assoc, splitlines_from_line by done.
  cbn. by rewrite IH.
Qed.

Lemma unfold_step_new (out : list str) (line : str) :
  is_continuation line = false → unfold_step out line = out ++ [line].
Proof.
  unfold unfold_step, is_continuation. intros ->. by case_bool_decide.
Qed.

Lemma unfold_step_continuation (before : list str) (prev rest : str) (lead : N) :
  lead = 32 ∨ lead = 9 →
  unfold_step (before ++ [prev]) (lead :: rest) = before ++ [prev ++ rest].
Proof.
  intros Hlead. unfold unfold_step.
  rewrite bool_decide_eq_false_2 by done.
  replace (startswith [32] (lead :: rest) || startswith [9] (lead :: rest))
    with true by (destruct Hlead as [-> | ->]; reflexivity).
  destruct (before ++ [prev]) as [|o out'] eqn:Hout.
  { by destruct before. }
  rewrite <- Hout.
  replace (length (before ++ [prev]) - 1)%nat with (length before + 0)%nat
    by (rewrite length_app; cbn; lia).
  by rewrite alter_app_r.
Qed.

Lemma foldl_unfold_continuations (lead : N) (before : list str) (prev : str)
  (chunks : list str) (rest : list str) :
  lead = 32 ∨ lead = 9 →
  foldl unfold_step (before ++ [prev]) (map (cons lead) chunks ++ rest)
  = foldl unfold_step (before ++ [prev ++ concat chunks]) rest.
Proof.
  intros Hlead. revert prev.
  induction chunks as [|c chunks IH]; intros prev; cbn [map app foldl concat].
  - by rewrite app_nil_r.
  - rewrite unfold_step_continuation, IH by done. by rewrite <- app_assoc.
Qed.

Lemma foldl_unfold_folded (lead : N) (logical : list (str * list str))
  (out : list str) :
  lead = 32 ∨ lead = 9 →
  Forall (λ chunks, is_continuation (fst chunks) = false) logical →
  foldl unfold_step out (flat_map (fold_line lead) logical)
  = out ++ map (λ chunks, fst chunks ++ concat (snd chunks)) logical.
Proof.
  intros Hlead Hlog. revert out.
  induction Hlog as [|[first more] logical Hfirst _ IH]; intros out;
    cbn [flat_map fold_line map app foldl fst snd].
  - by rewrite app_nil_r.
  - cbn in Hfirst. rewrite unfold_step_new by done.
    rewrite foldl_unfold_continuations by done. rewrite IH.
    by rewrite <- app_assoc.
Qed.

(** X2. The reassembler undoes folding.  Take logical lines, each cut into
    a first chunk that does not start with a space or a tab and further
    chunks, none holding a line boundary; write the first chunk as it is and
    every further chunk behind one space (or one tab), each physical line
    ended by a line feed or by a carriage return and a line feed.  The
    reassembler returns the logical lines, chunks joined, and nothing
    else. *)
Theorem unfold_ics_lines_undoes_folding (lead : N) (eol : str)
  (logical : list (str * list str)) :
  lead = 32 ∨ lead = 9 →
  eol = NL ∨ eol = CRLF →
  Forall (λ chunks, is_continuation (fst chunks) = false
                    ∧ no_linebreak (fst chunks)
                    ∧ Forall no_linebreak (snd chunks)) logical →
  _unfold_ics_lines (write_lines eol (flat_map (fold_line lead) logical))
  = map (λ chunks, fst chunks ++ concat (snd chunks)) logical.
Proof.
  intros Hlead Heol Hlog. unfold _unfold_ics_lines.
  rewrite splitlines_write_lines; [|done|].
  - rewrite foldl_unfold_folded; [done|done|].
    eapply Forall_impl; [exact Hlog|]. by intros chunks (? & _).
  - apply Forall_forall. intros l Hl.
    apply list_elem_of_In, in_flat_map in Hl as (chunks & Hin & Hl).
    apply list_elem_of_In in Hin.
    rewrite Forall_forall in Hlog. destruct (Hlog chunks Hin) as (_ & Hf & Hm).
    destruct Hl as [<- | Hl]; [done|].
    apply in_map_iff in Hl as (c & <- & Hc).
    constructor; [destruct Hlead as [-> | ->]; reflexivity|].
    rewrite Forall_forall in Hm. apply Hm. by apply list_elem_of_In.
Qed.

Lemma unfold_step_length (out : list str) (line : str) :
  (length (unfold_step out line) <= S (length out))%nat
  ∧ (out ≠ [] → unfold_step out line ≠ []).
Proof.
  unfold unfold_step. case_bool_decide.
  - rewrite length_app. cbn. split; [lia|]. by destruct out.
  - destruct (_ || _).
    + destruct out as [|o out']; cbn; [split; [lia|done]|].
      rewrite length_alter. cbn. split; [lia|].
      intros _ Heq. apply (f_equal length) in Heq.
      rewrite length_alter in Heq. done.
    + rewrite length_app. cbn. split; [lia|]. by destruct out.
Qed.

Lemma foldl_unfold_length (raw out : list str) :
  (length (foldl unfold_step out raw) <= length out + length raw)%nat.
Proof.
  revert out. induction raw as [|l raw IH]; intros out; cbn; [lia|].
  etrans; [apply IH|]. pose proof (unfold_step_length out l) as [Hle _]. lia.
Qed.

Lemma foldl_unfold_no_continuation (raw out : list str) :
  Forall (λ l, is_continuation l = false) raw →
  foldl unfold_step out raw = out ++ raw.
Proof.
  intros Hraw. revert out. induction Hraw as [|l raw Hl _ IH]; intros out; cbn.
  - by rewrite app_nil_r.
  - rewrite unfold_step_new, IH by done. by rewrite <- app_assoc.
Qed.

Lemma lstrip_sublist (s : str) : lstrip s `sublist_of` s.
Proof.
  induction s as [|c s IH]; cbn; [done|].
  destruct (isspace c); [by apply sublist_cons|done].
Qed.

Lemma unfold_step_sublist (out : list str) (line : str) :
  concat (unfold_step out line) `sublist_of` concat out ++ line.
Proof.
  unfold unfold_step. case_bool_decide.
  - by rewrite concat_app; cbn; rewrite app_nil_r.
  - destruct (_ || _).
    + destruct out as [|o out'] eqn:Hout.
      * cbn. rewrite app_nil_r. apply lstrip_sublist.
      * destruct (nonempty_snoc (o :: out')) as (before & prev & ->); [done|].
        replace (length (before ++ [prev]) - 1)%nat with (length before + 0)%nat
          by (rewrite length_app; cbn; lia).
        rewrite alter_app_r. cbn [alter list_alter].
        rewrite !concat_app. cbn. rewrite !app_nil_r, <- !app_assoc.
        apply sublist_app; [done|]. apply sublist_app; [done|]. apply sublist_drop.
    + by rewrite concat_app; cbn; rewrite app_nil_r.
Qed.

Lemma foldl_unfold_sublist (raw out : list str) :
  concat (foldl unfold_step out raw) `sublist_of` concat out ++ concat raw.
Proof.
  revert out. induction raw as [|l raw IH]; intros out; cbn.
  - by rewrite app_nil_r.
  - etrans; [apply IH|]. rewrite app_assoc. apply sublist_app; [|done].
    apply unfold_step_sublist.
Qed.

(** X3. The reassembler only joins: it never returns more lines than the
    text has physical lines, the code points it returns are code points of
    those lines in their order, and a text none of whose lines starts with
    a space or a tab is returned line by line as it is. *)
Theorem unfold_ics_lines_joins_only (ics_text : str) :
  (length (_unfold_ics_lines ics_text) <= length (splitlines ics_text))%nat
  ∧ concat (_unfold_ics_lines ics_text) `sublist_of` concat (splitlines ics_text)
  ∧ (Forall (λ l, is_continuation l = false) (splitlines ics_text) →
     _unfold_ics_lines ics_text = splitlines ics_text).
Proof.
  unfold _unfold_ics_lines. split; [|split].
  - apply (foldl_unfold_length _ []).
  - apply (foldl_unfold_sublist _ []).
  - intros Hraw. by rewrite foldl_unfold_no_continuation.
Qed.

(** ** Patterns and links *)

Section RegexProps.
Context `{Unicode}.

Lemma reads_refl (Q : N → Prop) (s : mstate) : reads Q s s.
Proof. exists []. cbn. split; [done|]. split; [lia|constructor]. Qed.

Lemma reads_trans (Q : N → Prop) (s1 s2 s3 : mstate) :
  reads Q s1 s2 → reads Q s2 s3 → reads Q s1 s3.
Proof.
  intros (w1 & Hr1 & Hp1 & Hq1) (w2 & Hr2 & Hp2 & Hq2). exists (w1 ++ w2).
  rewrite Hr1, Hr2, Hp2, Hp1, length_app, Forall_app, (assoc_L (++)).
  repeat split; [lia|done..].
Qed.

Lemma rmatch_reads {A : Type} (Q : N → Prop) (r : regex) :
  chars_in Q r →
  ∀ (s : mstate) (k : mstate → option A) (a : A),
    rmatch r s k = Some a → ∃ s', reads Q s s' ∧ k s' = Some a.
Proof.
  induction r as [|p|r1 IH1 r2 IH2|r1 IH1 r2 IH2|r1 IH1|r1 IH1|i r1 IH1| |];
    cbn [chars_in]; intros Hq s k a.
  - cbn. intros Hk. exists s. split; [apply reads_refl|done].
  - cbn. destruct s as [pos [|c t] caps]; cbn; [done|].
    destruct (p c) eqn:Hp; [|done]. intros Hk.
    eexists. split; [|exact Hk]. exists [c]. cbn. repeat split; [lia|].
    constructor; [by apply Hq|constructor].
  - destruct Hq as [Hq1 Hq2]. cbn. intros Hm.
    apply (IH1 Hq1) in Hm as (s1 & Hr1 & Hm).
    apply (IH2 Hq2) in Hm as (s2 & Hr2 & Hk).
    exists s2. split; [by eapply reads_trans|done].
  - destruct Hq as [Hq1 Hq2]. cbn.
    destruct (rmatch r1 s k) as [a'|] eqn:Hm1.
    + intros [= <-]. by apply (IH1 Hq1) in Hm1.
    + intros Hm2. by apply (IH2 Hq2) in Hm2.
  - cbn. destruct (rmatch r1 s k) as [a'|] eqn:Hm1.
    + intros [= <-]. by apply (IH1 Hq) in Hm1.
    + intros Hk. exists s. split; [apply reads_refl|done].
  - cbn [rmatch]. generalize (length (m_rest s)). intros n. revert s.
    induction n as [|n IHn]; intros s.
    + intros Hk. exists s. split; [apply reads_refl|done].
    + destruct (rmatch r1 s _) as [a'|] eqn:Hm1.
      * intros [= <-]. apply (IH1 Hq) in Hm1 as (s1 & Hr1 & Hm1).
        destruct (length (m_rest s1) <? length (m_rest s))%nat; [|done].
        apply IHn in Hm1 as (s2 & Hr2 & Hk).
        exists s2. split; [by eapply reads_trans|done].
      * intros Hk. exists s. split; [apply reads_refl|done].
  - cbn. intros Hm. apply (IH1 Hq) in Hm as (s1 & Hr1 & Hk).
    eexists. split; [|exact Hk]. destruct Hr1 as (w & ? & ? & ?). by exists w.
  - cbn. destruct (_ =? _)%nat; [|done]. intros Hk.
    exists s. split; [apply reads_refl|done].
  - cbn. intros Hk. exists s. split; [apply reads_refl|].
    repeat case_match; simplify_eq; done.
Qed.

Lemma match_at_reads (Q : N → Prop) (r : regex) (pos : nat) (rest : str) (m : rmatch_obj) :
  chars_in Q r → match_at r pos rest = Some m →
  Forall Q (take (mo_end m - pos) rest) ∧ (pos <= mo_end m)%nat.
Proof.
  intros Hq Hm. unfold match_at in Hm.
  apply (rmatch_reads Q r Hq) in Hm as (s' & (w & Hr & Hp & Hw) & [= <-]).
  cbn in *. rewrite Hp, Hr.
  replace (m_pos s' - pos)%nat with (length w) by lia.
  replace (pos + length w - pos)%nat with (length w) by lia.
  rewrite take_app_length. split; [done|lia].
Qed.

Lemma findall_from_reads (Q : N → Prop) (r : regex) (pos skip : nat) (rest : str) :
  chars_in Q r → Forall (Forall Q) (findall_from r pos skip rest).
Proof.
  intros Hq. revert pos skip. induction rest as [|c t IH]; intros pos skip; cbn.
  - constructor.
  - destruct skip as [|k]; [|apply IH].
    destruct (match_at r pos (c :: t)) as [m|] eqn:Hm; [|apply IH].
    constructor; [|apply IH]. by apply (match_at_reads Q r pos (c :: t) m Hq) in Hm as [? _].
Qed.

Ltac in_table Hin :=
  vm_compute in Hin;
  repeat (destruct Hin as [<-|Hin];
          [first [left; reflexivity | right; left; reflexivity
                 | right; right; reflexivity]|]);
  try contradiction.

Lemma lowered_url_items (x : N) :
  mem x (lowered_items URL_CLASS) = true → url_or_dotless x.
Proof.
  unfold mem. intros (e & Hin & ->%N.eqb_eq)%existsb_exists.
  unfold url_or_dotless. in_table Hin.
Qed.

Lemma lit_i_link_char (c : N) :
  mem c [104; 116; 112; 115; 58; 47] = true → chars_in link_char (lit_i c).
Proof.
  unfold mem. intros (e & Hin & ->%N.eqb_eq)%existsb_exists.
  cbn in Hin. unfold link_char, url_or_dotless.
  repeat (destruct Hin as [<-|Hin]; [|]); try contradiction;
    unfold lit_i;
    match goal with
    | |- context [iscased ?c] =>
      let b := eval vm_compute in (iscased c) in change (iscased c) with b
    end; cbv iota beta zeta; cbn [chars_in]; intros ch Hch.
  1-4: unfold mem in Hch; apply existsb_exists in Hch as (e & Hin & ->%N.eqb_eq);
       in_table Hin.
  1-2: apply N.eqb_eq in Hch as <-; left; reflexivity.
Qed.

Lemma URL_RE_link_char : chars_in link_char URL_RE.
Proof.
  unfold URL_RE, lits_i, HTTP, COLON_SLASHES, Plus. cbn [map Seqs chars_in].
  repeat split; try (apply lit_i_link_char; reflexivity).
  all: unfold cls_i;
    match goal with
    | |- context [existsb iscased ?l] =>
      let b := eval vm_compute in (existsb iscased l) in
      change (existsb iscased l) with b
    end; cbv iota; cbn [chars_in]; intros ch Hch; by apply lowered_url_items.
Qed.

Lemma ascii_link_char (c : N) : c < 128 → link_char c → url_char c = true.
Proof.
  intros Hc. unfold link_char, url_or_dotless, tolower.
  apply N.ltb_lt in Hc as Hc'. rewrite Hc'.
  assert (Hall : forallb (λ c, implb
            (url_char (if (65 <=? c) && (c <=? 90) then c + 32 else c))
            (url_char c))
            (map N.of_nat (seq 0 128)) = true) by (vm_compute; reflexivity).
  rewrite forallb_forall in Hall. specialize (Hall c).
  assert (Hin : In c (map N.of_nat (seq 0 128))).
  { apply in_map_iff. exists (N.to_nat c). split; [lia|]. apply in_seq. lia. }
  specialize (Hall Hin).
  intros [Hu|[Hu|Hu]].
  - rewrite Hu in Hall. exact Hall.
  - destruct ((65 <=? c) && (c <=? 90)); lia.
  - destruct ((65 <=? c) && (c <=? 90)); lia.
Qed.

Lemma elem_of_extract_zoom_links (text link : str) :
  link ∈ extract_zoom_links text →
  link ∈ re_findall URL_RE (_normalize_for_links text).
Proof.
  unfold extract_zoom_links. cbv zeta.
  rewrite elem_of_app, !list_elem_of_filter. tauto.
Qed.

Lemma extract_zoom_links_link_char (text link : str) (c : N) :
  link ∈ extract_zoom_links text → c ∈ link → link_char c.
Proof.
  intros Hl%elem_of_extract_zoom_links Hc.
  pose proof (findall_from_reads link_char URL_RE 0 0
                (_normalize_for_links text) URL_RE_link_char) as Hall.
  rewrite Forall_forall in Hall. specialize (Hall link Hl).
  rewrite Forall_forall in Hall. exact (Hall c Hc).
Qed.

(** X14. Every code point of a link the extractor returns is, once
    lowered, a code point of the class of the pattern or one of the two
    letters U+0131 and U+017F; a code point of ASCII in a link is of the
    class itself, so a link holds no blank, no quote, no angle bracket and
    no backslash. *)
Theorem extract_zoom_links_charset (text link : str) (c : N) :
  link ∈ extract_zoom_links text → c ∈ link →
  link_char c ∧ (c < 128 → url_char c = true).
Proof.
  intros Hl Hc. pose proof (extract_zoom_links_link_char text link c Hl Hc).
  split; [done|]. intros Hlt. by apply ascii_link_char.
Qed.

Lemma filter_not_in_filter (P : str → Prop) `{!∀ l, Decision (P l)} (links sub : list str) :
  sub ⊆ links →
  filter (λ l, l ∉ filter P links) sub = filter (λ l, ¬ P l) sub.
Proof.
  induction sub as [|l sub IH]; intros Hsub; [done|].
  assert (l ∈ links) by (apply Hsub; left).
  assert (sub ⊆ links) by (intros x Hx; apply Hsub; by right).
  rewrite !filter_cons, IH by done.
  destruct (decide (P l)) as [HP|HP].
  - rewrite decide_False; [by rewrite decide_False by tauto|].
    intros Hnot. apply Hnot. by apply list_elem_of_filter.
  - rewrite decide_True; [by rewrite decide_True|].
    by intros [? _]%list_elem_of_filter.
Qed.

(** X12. The links returned are the matches of the pattern in the
    normalized text, the ones whose lowercase form holds zoom.us first and
    the others after them, each group in the order of the text: the result
    is a rearrangement of the matches, none lost and none added. *)
Theorem extract_zoom_links_partition (text : str) :
  let links := re_findall URL_RE (_normalize_for_links text) in
  extract_zoom_links text
  = filter is_zoom_link links ++ filter (λ l, ¬ is_zoom_link l) links
  ∧ extract_zoom_links text ≡ₚ links.
Proof.
  intros links. unfold extract_zoom_links. fold links.
  change (λ l : str, contains ZOOM_US (str_lower l) = true) with is_zoom_link.
  rewrite (filter_not_in_filter is_zoom_link links links) by done.
  split; [done|]. apply filter_app_complement.
Qed.

Lemma replace_escaped_nl_absent (new s : str) :
  92 ∉ s → replace ESCAPED_NL new s = s.
Proof.
  unfold replace, ESCAPED_NL. induction s as [|a s IH]; [done|].
  intros [Hne Hnot]%not_elem_of_cons. cbn [replace_from startswith].
  apply N.eqb_neq in Hne. rewrite Hne. cbn [andb]. by rewrite IH.
Qed.

Lemma remove_char_filter (c : N) (s : str) :
  replace [c] [] s = filter (λ x, x ≠ c) s.
Proof.
  rewrite replace_char. induction s as [|a s IH]; [done|].
  cbn [flat_map]. rewrite filter_cons, IH. destruct (N.eqb_spec a c) as [->|Hne].
  - by rewrite decide_False by tauto.
  - by rewrite decide_True.
Qed.

Lemma normalize_no_backslash (text : str) :
  92 ∉ text → _normalize_for_links text = filter (λ x, x ≠ 8203) text.
Proof.
  intros Hbs. unfold _normalize_for_links. destruct text as [|c t]; [done|].
  rewrite replace_escaped_nl_absent by done. apply remove_char_filter.
Qed.

(** X13. In a text without a backslash, zero-width spaces do not count:
    the links are those of the text with its zero-width spaces taken out,
    so a zero-width space inside a link does not cut it.  No zero-width
    space is left in the normalized text. *)
Theorem extract_zoom_links_skips_zero_width (text : str) :
  92 ∉ text →
  extract_zoom_links text = extract_zoom_links (filter (λ x, x ≠ 8203) text)
  ∧ (8203 ∉ _normalize_for_links text).
Proof.
  intros Hbs.
  assert (Hbs' : 92 ∉ filter (λ x, x ≠ 8203) text).
  { by intros [_ ?]%list_elem_of_filter. }
  split.
  - unfold extract_zoom_links.
    rewrite (normalize_no_backslash text Hbs), (normalize_no_backslash _ Hbs').
    by rewrite list_filter_filter_l.
  - rewrite normalize_no_backslash by done. by intros [? _]%list_elem_of_filter.
Qed.

End RegexProps.

(** ** Event block parser, once more *)

Section ParserEdges.
Context `{Unicode} `{TzDatabase} `{Sorter}.

(** Outside a block only the opening marker is looked at. *)
Lemma run_lines_outside (lines : list str) (c : gmap str (option str * str))
  (evs : list Event) :
  BEGIN_VEVENT ∉ lines →
  run_lines lines (PState false c evs) = OK (PState false c evs).
Proof.
  induction lines as [|l lines IH]; [done|].
  intros [Hne Hnot]%not_elem_of_cons. cbn [run_lines].
  unfold parse_line. rewrite bool_decide_eq_false_2 by done.
  case_bool_decide; cbn; by apply IH.
Qed.

(** X4. A feed none of whose logical lines is exactly the opening marker
    holds no event: the parser returns the empty list and raises nothing,
    whatever else the feed holds. *)
Theorem parse_ics_events_without_begin (ics_text : str) :
  BEGIN_VEVENT ∉ _unfold_ics_lines ics_text →
  parse_ics_events ics_text = OK [].
Proof.
  intros Hnot. unfold parse_ics_events, collect_events.
  rewrite run_lines_outside by done. cbn. f_equal.
  apply Permutation_nil_r. apply list_sort_permutation.
Qed.

(** Lines other than the closing marker leave the events as they are and
    raise nothing. *)
Lemma parse_line_no_end (st : pstate) (line : str) :
  line ≠ END_VEVENT →
  ∃ b c, parse_line st line = OK (PState b c (events st)).
Proof.
  intros Hne. unfold parse_line. case_bool_decide; [by eexists _, _|].
  rewrite bool_decide_eq_false_2 by done.
  destruct st as [b c evs]. destruct b; cbn; by eexists _, _.
Qed.

Lemma run_lines_no_end (lines : list str) (st : pstate) :
  END_VEVENT ∉ lines →
  ∃ b c, run_lines lines st = OK (PState b c (events st)).
Proof.
  revert st. induction lines as [|l lines IH]; intros st.
  - intros _. destruct st as [b c evs]. by eexists _, _.
  - intros [Hne Hnot]%not_elem_of_cons. cbn [run_lines].
    destruct (parse_line_no_end st l) as (b & c & ->); [done|]. cbn.
    apply (IH (PState b c (events st)) Hnot).
Qed.

(** X5. What follows the last closing marker never matters: a block that is
    opened and not closed, with whatever fields, is dropped without an
    error. *)
Theorem parse_ics_events_open_block_dropped (ics_text ics_text' : str)
  (tail : list str) :
  END_VEVENT ∉ tail →
  _unfold_ics_lines ics_text' = _unfold_ics_lines ics_text ++ tail →
  parse_ics_events ics_text' = parse_ics_events ics_text.
Proof.
  intros Hnot Heq. unfold parse_ics_events, collect_events.
  rewrite Heq, run_lines_app.
  destruct (run_lines (_unfold_ics_lines ics_text) _) as [st|e]; cbn; [|done].
  by destruct (run_lines_no_end tail st Hnot) as (b & c & ->).
Qed.

(** The events the parser holds have trimmed texts. *)
Lemma flush_trimmed (c c' : gmap str (option str * str)) (evs evs' : list Event) :
  Forall event_trimmed evs → flush c evs = OK (c', evs') →
  Forall event_trimmed evs'.
Proof.
  intros Hall. unfold flush. destruct (decide (c = ∅)); [by intros [= _ <-]|].
  destruct (field c DTSTART) as [tz1 v1], (field c DTEND) as [tz2 v2].
  destruct (_ || _); [by intros [= _ <-]|].
  destruct (_parse_dt v1 tz1) as [s|]; cbn; [|done].
  destruct (_parse_dt v2 tz2) as [e|]; cbn; [|done].
  intros [= _ <-]. apply Forall_app. split; [done|].
  constructor; [|constructor]. repeat split; apply strip_idem.
Qed.

Lemma parse_line_trimmed (st st' : pstate) (line : str) :
  Forall event_trimmed (events st) → parse_line st line = OK st' →
  Forall event_trimmed (events st').
Proof.
  intros Hall. unfold parse_line. repeat case_bool_decide.
  - by intros [= <-].
  - destruct (in_event st); [|by intros [= <-]].
    destruct (flush (cur st) (events st)) as [[c' evs']|] eqn:Hf; cbn; [|done].
    intros [= <-]. cbn. by eapply flush_trimmed.
  - destruct (in_event st); cbn; by intros [= <-].
Qed.

Lemma run_lines_trimmed (lines : list str) (st st' : pstate) :
  Forall event_trimmed (events st) → run_lines lines st = OK st' →
  Forall event_trimmed (events st').
Proof.
  revert st. induction lines as [|l lines IH]; intros st Hall; cbn.
  - by intros [= <-].
  - destruct (parse_line st l) as [st1|] eqn:Hl; cbn; [|done].
    apply IH. by eapply parse_line_trimmed.
Qed.

(** X6. Every event the parser returns has its summary, description and
    location already trimmed: trimming them again changes nothing. *)
Theorem parse_ics_events_trims_fields (ics_text : str) (out : list Event) :
  parse_ics_events ics_text = OK out → Forall event_trimmed out.
Proof.
  unfold parse_ics_events, collect_events.
  destruct (run_lines _ _) as [st|e] eqn:Hrun; cbn; [|done].
  intros [= <-]. rewrite list_sort_permutation.
  eapply run_lines_trimmed; [|exact Hrun]. constructor.
Qed.

(** An item that no item of a list exceeds is put at its end. *)
Lemma insert_by_last {A : Type} (key : A → Z) (x : A) (l : list A) :
  Forall (λ y, (key y <= key x)%Z) l → insert_by key x l = l ++ [x].
Proof.
  induction 1 as [|y l Hy _ IH]; cbn; [done|].
  apply Z.ltb_ge in Hy. by rewrite Hy, IH.
Qed.

Lemma StronglySorted_middle {A : Type} (R : A → A → Prop) (l1 l2 : list A) (x : A) :
  StronglySorted R (l1 ++ x :: l2) → Forall (λ y, R y x) l1.
Proof.
  induction l1 as [|y l1 IH]; cbn; [constructor|].
  intros Hs. apply StronglySorted_inv in Hs as [Hs Hall].
  constructor; [|by apply IH].
  rewrite Forall_forall in Hall. apply Hall. rewrite elem_of_app, elem_of_cons. tauto.
Qed.

Lemma foldl_insert_by_sorted {A : Type} (key : A → Z) (l sorted : list A) :
  StronglySorted (key_le key) (sorted ++ l) →
  foldl (λ sorted x, insert_by key x sorted) sorted l = sorted ++ l.
Proof.
  revert sorted. induction l as [|x l IH]; intros sorted Hs; cbn.
  - by rewrite app_nil_r.
  - rewrite insert_by_last.
    + rewrite IH; rewrite <- (assoc_L (++)); done.
    + by apply (StronglySorted_middle (key_le key)) in Hs.
Qed.

(** X7. When every start of a feed carries the Kyiv zone and the blocks
    come in non-decreasing order of the wall-clock time of their start in
    Kyiv, the parser returns the events in the order of the feed: sorting
    moves nothing. *)
Theorem parse_ics_events_keeps_sorted_feed (ics_text : str) (blocks : list Event) :
  collect_events ics_text = OK blocks →
  Forall (λ e, tz (start e) = KYIV_TZ) blocks →
  StronglySorted (λ a b, (wall (start a) <= wall (start b))%Z) blocks →
  parse_ics_events ics_text = OK blocks.
Proof.
  intros Hc Hzone Hs. unfold parse_ics_events. rewrite Hc. cbn. f_equal.
  rewrite (list_sort_by_key _ _ (λ e, wall (start e))).
  - by apply (foldl_insert_by_sorted (λ e, wall (start e)) blocks []).
  - intros a b Ha Hb. rewrite Forall_forall in Hzone.
    unfold datetime_lt. by rewrite decide_True by (by rewrite !Hzone).
Qed.

(** ** Range filter *)

Lemma StronglySorted_filter {A : Type} (R : A → A → Prop) (P : A → Prop)
  `{!∀ x, Decision (P x)} (l : list A) :
  StronglySorted R l → StronglySorted R (filter P l).
Proof.
  induction 1 as [|x l Hs IH Hall]; [constructor|].
  rewrite filter_cons. destruct (decide (P x)); [|done].
  constructor; [done|]. apply Forall_forall. intros y [_ Hy]%list_elem_of_filter.
  rewrite Forall_forall in Hall. by apply Hall.
Qed.

Lemma events_in_range_converts (events : list Event) (a b : Z) :
  Forall start_converts events →
  events_in_range events a b = OK (filter (starts_within a b) events).
Proof.
  intros Hall. pose proof (events_in_range_spec events a b) as Hspec.
  destruct (events_in_range events a b) as [out|e].
  - by destruct Hspec as [_ ->].
  - by destruct Hspec as [_ Hnot].
Qed.

(** X9. The range filter converts the start of every event to Kyiv time
    before it compares, so it returns exactly when every start can be
    converted, and raises the overflow error otherwise, whatever the range.
    When it returns, it has kept the events whose Kyiv start date lies in
    the range, bounds included, in the order given: a range that ends
    before it starts keeps nothing, filtering the result again is filtering
    by the intersection of the two ranges, and a list sorted by any order
    stays sorted. *)
Theorem events_in_range_narrows (events : list Event) (a b c d : Z) :
  match events_in_range events a b with
  | OK out =>
    Forall start_converts events
    ∧ out = filter (starts_within a b) events
    ∧ out `sublist_of` events
    ∧ ((b < a)%Z → out = [])
    ∧ events_in_range out c d = events_in_range events (Z.max a c) (Z.min b d)
    ∧ ∀ R : Event → Event → Prop, StronglySorted R events → StronglySorted R out
  | Raise e =>
    e = OverflowError
    ∧ ¬ Forall start_converts events
    ∧ events_in_range events c d = Raise OverflowError
  end.
Proof.
  pose proof (events_in_range_spec events a b) as Hspec.
  destruct (events_in_range events a b) as [out|e].
  - destruct Hspec as [Hall ->]. split; [done|]. split; [done|].
    split; [apply sublist_filter|]. split; [|split].
    + intros Hlt. induction events as [|ev events IH]; [done|].
      apply Forall_cons in Hall as [_ Hall].
      rewrite filter_cons_False; [by apply IH|].
      intros (d' & _ & Hr). lia.
    + rewrite (events_in_range_converts events) by done.
      rewrite events_in_range_converts.
      * f_equal. rewrite list_filter_filter. apply list_filter_iff.
        intros ev. unfold starts_within. split.
        -- intros [(d1 & Hd1 & Hr1) (d2 & Hd2 & Hr2)].
           rewrite Hd1 in Hd2. injection Hd2 as <-. exists d1. split; [done|lia].
        -- intros (d1 & Hd1 & Hr). split; exists d1; (split; [done|lia]).
      * apply Forall_forall. intros ev [_ Hev]%list_elem_of_filter.
        rewrite Forall_forall in Hall. by apply Hall.
    + intros R. apply StronglySorted_filter.
  - destruct Hspec as [-> Hnot]. split; [done|]. split; [done|].
    pose proof (events_in_range_spec events c d) as Hspec.
    destruct (events_in_range events c d) as [out|e].
    + by destruct Hspec as [Hall _].
    + by destruct Hspec as [-> _].
Qed.

End ParserEdges.

(** ** Message composer, once more *)

Section ComposerLayout.
Context `{Unicode} `{TzDatabase}.

Lemma concat_day_events_nil (days : list Z) :
  concat (map (day_events []) days) = [].
Proof. induction days as [|d days IH]; [done|]. cbn. by rewrite IH. Qed.

Lemma concat_day_events_cons (ev : Event) (events : list Event) (days : list Z) :
  NoDup days →
  concat (map (day_events (ev :: events)) days)
  ≡ₚ match kyiv_date (start ev) with
     | OK d => if decide (d ∈ days) then [ev] else []
     | Raise _ => []
     end ++ concat (map (day_events events) days).
Proof.
  induction 1 as [|d days Hd Hnd IH]; cbn [map concat].
  - destruct (kyiv_date (start ev)); [|done].
    by rewrite decide_False by apply not_elem_of_nil.
  - rewrite day_events_cons, IH, <- !(assoc_L (++)).
    destruct (kyiv_date (start ev)) as [d0|e] eqn:Hd0.
    + destruct (decide (OK d0 = OK d)) as [[= ->]|Hne].
      * rewrite (decide_True (P := _ ∈ d :: days)) by left.
        by rewrite decide_False by done.
      * destruct (decide (d0 ∈ days)) as [Hin|Hout].
        -- rewrite (decide_True (P := _ ∈ d :: days)) by (by right).
           cbn. by rewrite Permutation_middle.
        -- rewrite (decide_False (P := _ ∈ d :: days)); [done|].
           intros [->|?]%elem_of_cons; done.
    + by rewrite decide_False by done.
Qed.

Lemma NoDup_week_days (start_day end_day : Z) : NoDup (week_days start_day end_day).
Proof.
  unfold week_days. apply NoDup_fmap_2; [|apply NoDup_seq].
  intros i j Hij. lia.
Qed.

Lemma filter_starts_within_by_day (events : list Event) (a b : Z) :
  filter (starts_within a b) events
  ≡ₚ concat (map (day_events events) (week_days a b)).
Proof.
  induction events as [|ev events IH].
  - by rewrite concat_day_events_nil.
  - rewrite concat_day_events_cons by apply NoDup_week_days.
    rewrite filter_cons, <- IH.
    destruct (decide (starts_within a b ev)) as [(d & Hd & Hr)|Hout].
    + rewrite Hd. by rewrite decide_True by (by apply elem_of_week_days).
    + destruct (kyiv_date (start ev)) as [d|e] eqn:Hd; [|done].
      rewrite decide_False; [done|].
      intros Hr%elem_of_week_days. apply Hout. by exists d.
Qed.

Lemma filter_starts_within_day (events : list Event) (a : Z) :
  filter (starts_within a a) events = day_events events a.
Proof.
  unfold day_events. apply list_filter_iff. intros ev. split.
  - intros (d & Hd & Hr). rewrite Hd. f_equal. lia.
  - intros Hd. exists a. split; [done|lia].
Qed.

(** X10. When the start of every event can be converted to Kyiv, the range
    filter returns, and the events it keeps for a range are, each exactly
    as often, the events of the days from the start of the range to its
    end; for the range from a day to itself it returns the events of that
    day in the order given.  When the start of some event cannot be
    converted, it raises the overflow error. *)
Theorem events_in_range_by_day (events : list Event) (a b : Z) :
  (Forall start_converts events →
   ∃ out, events_in_range events a b = OK out
          ∧ out ≡ₚ concat (map (day_events events) (week_days a b))
          ∧ events_in_range events a a = OK (day_events events a))
  ∧ (¬ Forall start_converts events →
     events_in_range events a b = Raise OverflowError).
Proof.
  pose proof (events_in_range_spec events a b) as Hab.
  pose proof (events_in_range_spec events a a) as Haa.
  split.
  - intros Hall.
    destruct (events_in_range events a b) as [out|e]; [|by destruct Hab].
    destruct (events_in_range events a a) as [out'|e]; [|by destruct Haa].
    destruct Hab as [_ ->], Haa as [_ ->]. eexists. split; [done|]. split.
    + apply filter_starts_within_by_day.
    + by rewrite filter_starts_within_day.
  - intros Hnot. destruct (events_in_range events a b) as [out|e].
    + by destruct Hab.
    + by destruct Hab as [-> _].
Qed.

(** The blocks of the days are a separator and a text for each day in turn. *)
Lemma day_blocks_texts (by_day : gmap Z (list Event)) (days : list Z)
  (blocks : list str) :
  day_blocks by_day days = OK blocks →
  ∃ texts,
    Forall2 (λ d text, format_day (default [] (by_day !! d)) d = OK text) days texts
    ∧ blocks = flat_map (λ text, [separator; text]) texts.
Proof.
  revert blocks. induction days as [|d days IH]; intros blocks; cbn.
  - intros [= <-]. exists []. split; [constructor|done].
  - destruct (format_day (default [] (by_day !! d)) d) as [text|e] eqn:Hf;
      cbn; [|done].
    destruct (day_blocks by_day days) as [more|e]; cbn; [|done].
    intros [= <-]. destruct (IH more eq_refl) as (texts & Hall & ->).
    exists (text :: texts). split; [by constructor|done].
Qed.

(** X23. When every event starts on a day of the range and the start and the
    end of every event can be converted to Kyiv, every day of the range has
    a block, built from just the events that start on that day in the order
    given, and the week message is the header, then for every day of the
    range in turn a separator and the block of that day, then a closing
    separator and the time of the update. *)
Theorem format_week_message_day_blocks (now : datetime) (events : list Event)
  (start_day end_day : Z) :
  Forall (starts_within start_day end_day) events →
  Forall times_convert events →
  ∃ texts,
    Forall2 (λ d text, format_day (day_events events d) d = OK text)
      (week_days start_day end_day) texts
    ∧ format_week_message now events start_day end_day
      = OK (week_header start_day end_day
            ++ join NL (flat_map (λ text, [separator; text]) texts ++ [separator])
            ++ NL ++ NL ++ UPDATED ++ strftime_HM (wall now)).
Proof.
  intros Hin Hall. unfold format_week_message. cbv zeta.
  edestruct (bucket_all_in_range events) as [by_day Hb].
  { eapply Forall_impl; [exact Hin|]. intros ev (d & Hd & Hr). cbn.
    exists d. split; [done|]. by rewrite empty_buckets_lookup, elem_of_week_days. }
  rewrite Hb. cbn [mbind result_bind].
  assert (Hdays : Forall (λ d, Forall times_convert (default [] (by_day !! d)))
                    (week_days start_day end_day)).
  { apply Forall_forall. intros d Hd. rewrite (week_buckets _ _ _ _ Hb d Hd).
    apply Forall_forall. intros ev [_ Hev]%list_elem_of_filter.
    rewrite Forall_forall in Hall. by apply Hall. }
  apply day_blocks_OK in Hdays as [blocks Hblocks]. rewrite Hblocks.
  cbn [mbind result_bind].
  apply day_blocks_texts in Hblocks as (texts & Htexts & ->).
  exists texts. split.
  - pose proof (week_buckets _ _ _ _ Hb) as Hw. revert Htexts Hw.
    generalize (week_days start_day end_day). intros days Htexts.
    induction Htexts as [|d text days texts Hd Hrest IH]; intros Hw; constructor.
    + rewrite <- Hw by left. done.
    + apply IH. intros d' Hd'. apply Hw. by right.
  - unfold week_header. by rewrite <- !(assoc_L (++)).
Qed.

(** *** The block of one day *)

Lemma join_app (sep : str) (l1 l2 : list str) :
  l1 ≠ [] → l2 ≠ [] → join sep (l1 ++ l2) = join sep l1 ++ sep ++ join sep l2.
Proof.
  intros H1 H2. induction l1 as [|a l1 IH]; [done|].
  destruct l1 as [|b l1].
  - destruct l2; done.
  - cbn [app join] in *. rewrite IH by done. by rewrite <- !(assoc_L (++)).
Qed.

Lemma pop_blank_lines_snoc (lines : list str) (l : str) :
  l ≠ [] → pop_blank_lines (lines ++ [l]) = lines ++ [l].
Proof.
  intros Hl. unfold pop_blank_lines. rewrite rev_app_distr. cbn.
  destruct l; [done|]. cbn. by rewrite rev_involutive.
Qed.

Lemma pop_blank_lines_blank (lines : list str) :
  pop_blank_lines (lines ++ [[]]) = pop_blank_lines lines.
Proof. unfold pop_blank_lines. by rewrite rev_app_distr. Qed.

Lemma escape_html_nonempty (s : str) : s ≠ [] → escape_html s ≠ [].
Proof.
  rewrite escape_html_flat_map. destruct s as [|c s]; [done|]. intros _. cbn.
  unfold escape_char. by repeat destruct (_ =? _).
Qed.

Lemma classify_place_nonempty (location description : str) :
  classify_place location description ≠ [].
Proof.
  unfold classify_place. cbv zeta. by repeat case_match.
Qed.

(** The lines of an event are non-empty lines followed by one empty line. *)
Lemma event_lines_block (ev : Event) (lines : list str) :
  event_lines ev = OK lines →
  ∃ block, lines = block ++ [[]] ∧ Forall (λ l, l ≠ []) block ∧ block ≠ [].
Proof.
  unfold event_lines.
  destruct (split_summary (summary ev)) as [discipline etype].
  destruct (hhmm (start ev)) as [t_start|e]; cbn [mbind result_bind]; [|done].
  destruct (hhmm (end_ ev)) as [t_end|e]; cbn [mbind result_bind]; [|done].
  intros Heq.
  match type of Heq with
  | OK (?a ++ ?b ++ ?m1 ++ ?m2 ++ ?p ++ ?m3 ++ ?m4 ++ [[]]) = _ =>
    exists (a ++ b ++ m1 ++ m2 ++ p ++ m3 ++ m4);
    assert (Hlines : lines = a ++ b ++ m1 ++ m2 ++ p ++ m3 ++ m4 ++ [[]])
      by congruence
  end.
  clear Heq. split; [by rewrite Hlines, <- !(assoc_L (++))|]. split; [|done].
  pose proof (classify_place_nonempty (location ev) (description ev)) as Hp.
  apply escape_html_nonempty in Hp.
  repeat (apply Forall_app; split); repeat case_match;
    repeat constructor; done.
Qed.

Lemma events_lines_blocks (events : list Event) (lines : list str) :
  events_lines events = OK lines →
  ∃ blocks,
    Forall2 (λ ev block, event_lines ev = OK (block ++ [[]])
                         ∧ Forall (λ l, l ≠ []) block
                         ∧ block ≠ []) events blocks
    ∧ lines = flat_map (λ block, block ++ [[]]) blocks.
Proof.
  revert lines. induction events as [|ev events IH]; intros lines; cbn.
  - intros [= <-]. exists []. split; [constructor|done].
  - destruct (event_lines ev) as [first|e] eqn:Hev; cbn; [|done].
    destruct (events_lines events) as [more|e]; cbn; [|done].
    intros [= <-]. destruct (IH more eq_refl) as (blocks & Hall & ->).
    destruct (event_lines_block ev first Hev) as (block & -> & Hlines & Hne).
    exists (block :: blocks). split; [by constructor|done].
Qed.

Lemma join_cons (sep a : str) (l : list str) :
  l ≠ [] → join sep (a :: l) = a ++ sep ++ join sep l.
Proof. by destruct l. Qed.

Lemma join_block_lines (blocks : list (list str)) (rest : list str) :
  Forall (λ block, block ≠ []) blocks → rest ≠ [] →
  join NL (flat_map (λ block, block ++ [[]]) blocks ++ rest)
  = flat_map (λ block, join NL block ++ NL ++ NL) blocks ++ join NL rest.
Proof.
  intros Hall Hrest. induction Hall as [|block blocks Hne Hall IH]; [done|].
  cbn [flat_map].
  assert (Hmore : flat_map (λ block, block ++ [[]]) blocks ++ rest ≠ []).
  { intros [_ ?]%app_eq_nil. done. }
  rewrite <- !(assoc_L (++)). rewrite join_app by done.
  cbn [app]. rewrite join_cons by done. rewrite IH. done.
Qed.

Lemma join_map_snoc {A : Type} (sep : str) (g : A → str) (l : list A) (x : A) :
  join sep (map g (l ++ [x])) = flat_map (λ y, g y ++ sep) l ++ g x.
Proof.
  induction l as [|a l IH]; [done|]. cbn [map app flat_map].
  rewrite join_cons by (by destruct l). by rewrite IH, <- !(assoc_L (++)).
Qed.

(** The text of a day that has events, from the blocks of its events. *)
Lemma join_day_blocks (header : str) (blocks : list (list str)) :
  blocks ≠ [] →
  Forall (λ block, Forall (λ l, l ≠ []) block ∧ block ≠ []) blocks →
  join NL (pop_blank_lines ([header; []] ++ flat_map (λ block, block ++ [[]]) blocks))
  = header ++ NL ++ NL ++ join (NL ++ NL) (map (join NL) blocks).
Proof.
  intros Hblocks Hall.
  destruct (nonempty_snoc blocks Hblocks) as (before & block & ->).
  apply Forall_app in Hall as [Hbefore [[Hlines Hne] _]%Forall_cons].
  rewrite join_map_snoc, flat_map_app. cbn [flat_map]. rewrite app_nil_r.
  destruct (nonempty_snoc block Hne) as (lines & l & Hblock).
  assert (Hl : l ≠ []).
  { rewrite Hblock in Hlines. by apply Forall_app in Hlines as [_ [? _]%Forall_cons]. }
  rewrite !(assoc_L (++) _ _ [[]]), pop_blank_lines_blank.
  rewrite Hblock, !(assoc_L (++) _ _ [l]), pop_blank_lines_snoc by done.
  rewrite <- !(assoc_L (++)), <- Hblock. cbn [app].
  rewrite join_cons by done.
  rewrite join_cons by (by intros [_ ?]%app_eq_nil).
  rewrite join_block_lines; [done| |done].
  eapply Forall_impl; [exact Hbefore|]. by intros ? [_ ?].
Qed.

(** X22. The block of a day is built exactly when the start and the end of
    every event can be converted to Kyiv; otherwise the overflow error is
    raised.  The block starts with the header of the day and an empty line.
    For a day without events the placeholder follows; otherwise the events
    follow in the order given, each as its own non-empty lines, with
    exactly one empty line between two events and none after the last. *)
Theorem format_day_layout (events : list Event) (day : Z) :
  match format_day events day with
  | OK text =>
    Forall times_convert events
    ∧ ∃ blocks,
        Forall2 (λ ev block, event_lines ev = OK (block ++ [[]])
                             ∧ Forall (λ l, l ≠ []) block
                             ∧ block ≠ []) events blocks
        ∧ text = day_header day ++ NL ++ NL
                 ++ match blocks with
                    | [] => NO_PAIRS
                    | _ => join (NL ++ NL) (map (join NL) blocks)
                    end
  | Raise e => e = OverflowError ∧ ¬ Forall times_convert events
  end.
Proof.
  destruct (format_day events day) as [text|e] eqn:Hf.
  - split; [apply (format_day_OK events day); by eexists|].
    unfold format_day in Hf. destruct events as [|ev0 events0].
    + injection Hf as <-. exists []. split; [constructor|done].
    + destruct (events_lines (ev0 :: events0)) as [more|e] eqn:Hl;
        cbn [mbind result_bind] in Hf; [|done].
      apply events_lines_blocks in Hl as (blocks & Hall & ->).
      exists blocks. split; [done|].
      assert (Hshape : Forall (λ block, Forall (λ l, l ≠ []) block ∧ block ≠ [])
                         blocks).
      { clear -Hall.
        induction Hall as [|ev block evs blocks (_ & ? & ?) _ IH]; by constructor. }
      destruct blocks as [|block blocks]; [by inversion Hall|].
      rewrite <- (join_day_blocks (day_header day) (block :: blocks)) by done.
      congruence.
  - split; [by eapply format_day_raises|].
    intros Hall. apply (format_day_OK events day) in Hall as [text Ht]. congruence.
Qed.

End ComposerLayout.

(** ** Temporal normalizer, once more *)

Section NormalizerEdges.
Context `{Unicode} `{TzDatabase}.

Lemma fullmatch_reads (Q : N → Prop) (r : regex) (s : str) (m : rmatch_obj) :
  chars_in Q r → re_fullmatch r s = Some m → Forall Q s.
Proof.
  intros Hq Hm. unfold re_fullmatch in Hm.
  apply (rmatch_reads Q r Hq) in Hm as (s' & (w & Hr & _ & Hw) & Hk).
  destruct (m_rest s'); [|done]. cbn in Hr. rewrite app_nil_r in Hr. by subst.
Qed.

Lemma elem_of_rev (x : N) (s : str) : x ∈ rev s ↔ x ∈ s.
Proof. rewrite !list_elem_of_In. symmetry. apply in_rev. Qed.

Lemma endswith_elem_of (c : N) (s : str) : endswith [c] s = true → c ∈ s.
Proof.
  unfold endswith. cbn [rev app]. intros Hs. apply elem_of_rev.
  destruct (rev s) as [|a t]; [done|]. cbn in Hs.
  apply andb_true_iff in Hs as [->%N.eqb_eq _]. left.
Qed.

(** X8. A value that ends in Z is read as a UTC time whatever zone
    identifier comes with it: the identifier is not looked up, so an
    identifier that the zone database lacks cannot make the normalizer
    raise. *)
Theorem parse_dt_utc_ignores_tzid (value : str) (tzid tzid' : option str) :
  endswith [90] (strip value) = true →
  _parse_dt value tzid = _parse_dt value tzid'.
Proof.
  intros Hz. unfold _parse_dt. cbv zeta.
  destruct (re_fullmatch RE_8DIGITS (strip value)) as [m|] eqn:Hm.
  - exfalso. apply (fullmatch_reads (λ c, isdecimal c = true)) in Hm.
    + apply endswith_elem_of in Hz. rewrite Forall_forall in Hm.
      specialize (Hm 90 Hz). vm_compute in Hm. discriminate.
    + unfold RE_8DIGITS, digit. cbn. tauto.
  - by rewrite Hz.
Qed.

Lemma hour_of_wall (w : Z) : (w mod 86400 / 3600 = w / 3600 mod 24)%Z.
Proof. Z.div_mod_to_equations. lia. Qed.

Lemma minute_of_wall (w : Z) : (w mod 86400 mod 3600 / 60 = w / 60 mod 60)%Z.
Proof. Z.div_mod_to_equations. lia. Qed.

(** X21. The clock text exists exactly when the datetime can be converted to
    Kyiv, as a datetime that carries the Kyiv zone always can; otherwise the
    overflow error is raised.  The text has five characters with a colon in
    the middle, and what stands before and after the colon reads back as
    the hour and the minute of the wall-clock time in Kyiv. *)
Theorem hhmm_reads_back (t : datetime) :
  match hhmm t with
  | OK s =>
    ∃ k, astimezone t KYIV_TZ = OK k
         ∧ length s = 5%nat ∧ s !! 2%nat = Some 58%N
         ∧ py_int (take 2 s) = OK (wall k / 3600 mod 24)%Z
         ∧ py_int (drop 3 s) = OK (wall k / 60 mod 60)%Z
  | Raise e => e = OverflowError ∧ astimezone t KYIV_TZ = Raise OverflowError
  end
  ∧ (tz t = KYIV_TZ → ∃ s, hhmm t = OK s).
Proof.
  split.
  - unfold hhmm.
    destruct (astimezone t KYIV_TZ) as [k|e] eqn:Hk; cbn [mbind result_bind].
    + exists k. split; [done|]. unfold strftime_HM. cbv zeta.
      rewrite hour_of_wall, minute_of_wall.
      split; [done|]. split; [done|].
      split; apply py_int_two_digits.
      * pose proof (Z.mod_pos_bound (wall k / 3600) 24). lia.
      * pose proof (Z.mod_pos_bound (wall k / 60) 60). lia.
    + apply astimezone_raises in Hk as Hov. by subst.
  - intros Hz. apply hhmm_OK. exists t. unfold astimezone.
    by rewrite decide_True.
Qed.

End NormalizerEdges.

(** ** Semantic extractors, once more *)

Section ExtractorEdges.
Context `{Unicode}.

Lemma strip_elem_of (x : N) (s : str) : x ∈ strip s → x ∈ s.
Proof.
  unfold strip, rstrip. rewrite elem_of_rev. intros Hx.
  pose proof (elem_of_sublist _ _ _ Hx (lstrip_sublist (rev (lstrip s)))) as Hx'.
  rewrite elem_of_rev in Hx'. exact (elem_of_sublist _ _ _ Hx' (lstrip_sublist s)).
Qed.

Lemma split_absent (sep : N) (s : str) : sep ∉ s → split sep s = [s].
Proof.
  induction s as [|c s IH]; [done|].
  intros [Hne Hnot]%not_elem_of_cons. cbn.
  apply not_eq_sym, N.eqb_neq in Hne. by rewrite Hne, IH.
Qed.

Lemma type_of_tail_label (words : list (str * str)) (tail v : str) :
  type_of_tail words tail = Some v → v ∈ map snd words.
Proof.
  induction words as [|[k w] words IH]; cbn; [done|].
  destruct (contains k tail); [intros [= <-]; left|right; by apply IH].
Qed.

Lemma split_attempt_label (sep : N) (s v : str) :
  (if (2 <=? length (map strip (split sep s)))%nat
   then type_of_tail TYPE_WORDS (str_lower (last_part (map strip (split sep s))))
   else None) = Some v →
  v ∈ map snd TYPE_WORDS ∧ sep ∈ s.
Proof.
  destruct (decide (sep ∈ s)) as [Hin|Hout].
  - destruct (_ <=? _)%nat; [|done]. intros Hv. split; [|done].
    by eapply type_of_tail_label.
  - by rewrite split_absent.
Qed.

(** X11. The discipline returned for a title is always trimmed; a session
    type, when one is returned, is one of the four labels of the table and
    the title holds an em-dash or a hyphen; and without a session type the
    discipline is the whole trimmed title. *)
Theorem split_summary_result (title : str) :
  let r := split_summary title in
  trimmed (fst r)
  ∧ (snd r = None → fst r = strip title)
  ∧ (∀ t, snd r = Some t →
          t ∈ map snd TYPE_WORDS ∧ (EM_DASH ∈ title ∨ HYPHEN ∈ title)).
Proof.
  unfold split_summary. cbv zeta.
  destruct (if (2 <=? length (map strip (split EM_DASH (strip title))))%nat
            then _ else None) as [v|] eqn:Hem.
  - apply split_attempt_label in Hem as [Hv Hin%strip_elem_of]. cbn.
    split; [apply strip_idem|]. split; [done|]. intros t [= <-]. auto.
  - destruct (if (2 <=? length (map strip (split HYPHEN (strip title))))%nat
              then _ else None) as [v|] eqn:Hhy.
    + apply split_attempt_label in Hhy as [Hv Hin%strip_elem_of]. cbn.
      split; [apply strip_idem|]. split; [done|]. intros t [= <-]. auto.
    + cbn. split; [apply strip_idem|]. done.
Qed.

(** *** Teacher patterns *)

Lemma lit_i_case_pair (upper lower : N) :
  case_pair upper lower → lit_i upper = lit_i lower.
Proof.
  intros (Hne & Hup & Hlo & Hcased). unfold lit_i, iscased.
  rewrite Hup, Hlo.
  apply N.eqb_neq in Hne. rewrite Hne.
  apply not_eq_sym, N.eqb_neq in Hcased. rewrite Hcased.
  by rewrite N.eqb_refl.
Qed.

(** X16. With the case pairs of the three Cyrillic initials as Unicode has
    them, the three capitalized patterns of the list never decide: matching
    ignores case, so each of them is the same pattern as its lowercase
    twin earlier in the list, and teacher detection with the first four
    patterns alone gives the same answer on every description. *)
Theorem extract_teacher_capitalized_redundant (description : str) :
  case_pair 1044 1076 → case_pair 1042 1074 → case_pair 1055 1087 →
  drop 4 teacher_patterns = take 3 teacher_patterns
  ∧ extract_teacher description
    = match description with
      | [] => None
      | _ => match_lines (take 4 teacher_patterns)
               (stripped_lines (replace ESCAPED_NL NL description))
      end.
Proof.
  intros Hd Hv Hp.
  assert (Hdrop : drop 4 teacher_patterns = take 3 teacher_patterns).
  { unfold teacher_patterns, TEACHER_TITLES, teacher_pattern, lits_i.
    cbn [map fst snd drop take].
    by rewrite (lit_i_case_pair _ _ Hd), (lit_i_case_pair _ _ Hv),
               (lit_i_case_pair _ _ Hp). }
  split; [exact Hdrop|].
  unfold extract_teacher. destruct description as [|c t]; [done|].
  generalize (stripped_lines (replace ESCAPED_NL NL (c :: t))). intros lines.
  rewrite <- (take_drop 4 teacher_patterns) at 1. rewrite Hdrop.
  unfold teacher_patterns, TEACHER_TITLES. cbn [map take app].
  induction lines as [|l lines IH]; [done|].
  cbn [match_lines match_patterns]. rewrite IH.
  repeat (destruct (re_match _ l); [done|]). done.
Qed.

(** *** Links and their escaping *)

Lemma flat_map_ext_elem_of {A B : Type} (f g : A → list B) (l : list A) :
  (∀ x, x ∈ l → f x = g x) → flat_map f l = flat_map g l.
Proof.
  induction l as [|x l IH]; intros Hfg; cbn; [done|].
  rewrite Hfg by left. rewrite IH; [done|]. intros y Hy. apply Hfg. by right.
Qed.

Lemma link_char_plain (c : N) : link_char c → c ≠ 34 ∧ c ≠ 60 ∧ c ≠ 62.
Proof.
  intros Hc. repeat split; intros ->;
    (apply ascii_link_char in Hc; [vm_compute in Hc; discriminate|reflexivity]).
Qed.

(** X15. A link returned by the extractor holds no quote and no angle
    bracket, so escaping it for an attribute and escaping it for text give
    the same result: only its ampersands are rewritten. *)
Theorem extract_zoom_links_escaping (text link : str) :
  link ∈ extract_zoom_links text →
  escape_html_attr link = escape_html link
  ∧ escape_html link = replace [38] AMP link.
Proof.
  intros Hl.
  assert (Hplain : ∀ c, c ∈ link → c ≠ 34 ∧ c ≠ 60 ∧ c ≠ 62).
  { intros c Hc. apply link_char_plain.
    by apply (extract_zoom_links_link_char text link). }
  rewrite escape_html_attr_flat_map, escape_html_flat_map, replace_char.
  split; apply flat_map_ext_elem_of; intros c Hc;
    destruct (Hplain c Hc) as (H34 & H60 & H62);
    apply N.eqb_neq in H34, H60, H62;
    unfold escape_attr_char, escape_char; by rewrite ?H34, ?H60, ?H62.
Qed.

End ExtractorEdges.

(** *** What teacher detection returns *)

Section TeacherResult.
Context `{Unicode}.

Lemma chars_in_any (r : regex) : chars_in (λ _, True) r.
Proof. induction r; cbn; auto. Qed.

(** A pattern in front of others reads some of the text and hands over. *)
Lemma rmatch_seq_reads {A : Type} (r1 r2 : regex) (s : mstate)
  (k : mstate → option A) (a : A) :
  rmatch (Seq r1 r2) s k = Some a →
  ∃ s', reads (λ _, True) s s' ∧ rmatch r2 s' k = Some a.
Proof.
  rewrite rmatch_seq. apply (rmatch_reads _ r1 (chars_in_any r1)).
Qed.

Lemma strip_last (s l : str) (c : N) : strip s = l ++ [c] → isspace c = false.
Proof.
  unfold strip, rstrip. intros Hs. apply (f_equal (@rev N)) in Hs.
  rewrite rev_involutive, rev_app_distr in Hs. cbn in Hs.
  destruct (lstrip_head (rev (lstrip s))) as [Hnil|(c' & t & Hc & Hsp)];
    congruence.
Qed.

Lemma lstrip_suffix (s : str) : lstrip s `suffix_of` s.
Proof.
  induction s as [|c s IH]; cbn; [done|].
  destruct (isspace c); [by apply suffix_cons_r|done].
Qed.

Lemma strip_snoc (s : str) (c : N) :
  isspace c = false → ∃ s', strip (s ++ [c]) = s' ++ [c] ∧ s' `suffix_of` s.
Proof.
  intros Hc. unfold strip.
  assert (Hl : ∃ s', lstrip (s ++ [c]) = s' ++ [c] ∧ s' `suffix_of` s).
  { induction s as [|a s IH]; cbn.
    - rewrite Hc. by exists [].
    - destruct (isspace a).
      + destruct IH as (s' & -> & Hs'). exists s'. split; [done|].
        by apply suffix_cons_r.
      + by exists (a :: s). }
  destruct Hl as (s' & -> & Hs'). exists s'. split; [|done].
  unfold rstrip. rewrite rev_app_distr. cbn. rewrite Hc. cbn.
  by rewrite rev_involutive.
Qed.

(** A match of a teacher pattern on a trimmed line captures the text from
    some offset to the end of the line. *)
Lemma teacher_pattern_group (names : str * str) (line0 : str) (m : rmatch_obj) :
  re_match (teacher_pattern names) (strip line0) = Some m →
  ∃ before c rest,
    strip line0 = before ++ c :: rest
    ∧ group (strip line0) m 1 = c :: rest
    ∧ Forall (λ x, x ≠ 10) (c :: rest).
Proof.
  unfold re_match, match_at, teacher_pattern. cbn [Seqs].
  set (line := strip line0). intros Hm.
  apply rmatch_seq_reads in Hm as (s1 & Hr1 & Hm).
  apply rmatch_seq_reads in Hm as (s2 & Hr2 & Hm).
  apply rmatch_seq_reads in Hm as (s3 & Hr3 & Hm).
  apply rmatch_seq_reads in Hm as (s4 & Hr4 & Hm).
  apply rmatch_seq_reads in Hm as (s5 & Hr5 & Hm).
  pose proof (reads_trans _ _ _ _ (reads_trans _ _ _ _ (reads_trans _ _ _ _
                (reads_trans _ _ _ _ Hr1 Hr2) Hr3) Hr4) Hr5)
    as (before & Hline & Hpos & _).
  cbn in Hline, Hpos. clear Hr1 Hr2 Hr3 Hr4 Hr5 s1 s2 s3 s4.
  rewrite rmatch_seq, rmatch_group in Hm. unfold Plus in Hm.
  rewrite rmatch_seq in Hm. destruct s5 as [pos5 rest5 caps5]. cbn in Hline, Hpos.
  destruct rest5 as [|c rest5]; [done|]. unfold any at 1 in Hm.
  rewrite rmatch_chr in Hm. destruct (negb (c =? 10)) eqn:Hc; [|done].
  apply (rmatch_reads (λ x, x ≠ 10) (Star any)) in Hm
    as (s7 & (w & Hrest & Hpos7 & Hw) & Hm).
  2:{ cbn. intros x Hx. apply negb_true_iff, N.eqb_neq in Hx. done. }
  cbn in Hrest, Hpos7, Hm.
  assert (Htail : m_rest s7 = []).
  { destruct (m_rest s7) as [|x tail] eqn:Hs7; [done|]. exfalso.
    assert (Hx : x = 10 ∧ tail = []) by (repeat case_match; simplify_eq; done).
    destruct Hx as [-> ->]. rewrite Hrest in Hline.
    assert (Hsp : isspace 10 = false); [|done].
    apply (strip_last line0 (before ++ c :: w)).
    fold line. rewrite Hline, <- (assoc_L (++)). done. }
  rewrite Htail in Hm, Hrest. rewrite app_nil_r in Hrest. subst rest5.
  cbn in Hm. injection Hm as <-.
  exists before, c, w. split; [done|]. split.
  - unfold group. cbn [mo_caps cap_lookup Nat.eqb]. unfold slice. rewrite Hline, Hpos, Hpos7.
    replace (0 + length before)%nat with (length before) by lia.
    rewrite drop_app_length. apply take_ge. cbn. lia.
  - constructor; [|done]. apply negb_true_iff, N.eqb_neq in Hc. done.
Qed.

(** X17. A teacher returned for a description is never empty: it is a
    trimmed text without a line feed that ends one of the trimmed lines of
    the description. *)
Theorem extract_teacher_result (description t : str) :
  extract_teacher description = Some t →
  t ≠ [] ∧ trimmed t ∧ (10 ∉ t)
  ∧ ∃ line, line ∈ stripped_lines (replace ESCAPED_NL NL description)
            ∧ t `suffix_of` line.
Proof.
  unfold extract_teacher. destruct description as [|d0 d]; [done|].
  intros (i & line & Hi & Hp & _)%match_lines_some.
  apply match_patterns_some in Hp as (j & pat & m & Hj & Hm & -> & _).
  apply list_elem_of_lookup_2 in Hi as Hline, Hj as Hpat.
  unfold teacher_patterns in Hpat.
  apply list_elem_of_fmap in Hpat as (names & -> & _).
  unfold stripped_lines in Hline.
  apply list_elem_of_fmap in Hline as Hl0. destruct Hl0 as (line0 & -> & _).
  apply teacher_pattern_group in Hm as (before & c & rest & Hsplit & -> & Hnl).
  destruct (nonempty_snoc (c :: rest)) as (body & z & Hbody); [done|].
  assert (Hz : isspace z = false).
  { apply (strip_last line0 (before ++ body)).
    by rewrite Hsplit, Hbody, (assoc_L (++)). }
  destruct (strip_snoc body z Hz) as (body' & Hstrip & Hsuffix).
  split; [|split; [|split]].
  - rewrite Hbody, Hstrip. by destruct body'.
  - apply strip_idem.
  - intros Hin%strip_elem_of. rewrite Forall_forall in Hnl. by apply (Hnl 10).
  - exists (strip line0). split; [done|].
    rewrite Hsplit, Hbody, Hstrip. apply suffix_app_r. by apply suffix_app.
Qed.

End TeacherResult.
(** ** The further properties on concrete inputs *)

Lemma unfold_ics_lines_undoes_folding_witness :
  _unfold_ics_lines (write_lines CRLF (flat_map (fold_line 32) FOLDED_LINES))
  = map (λ chunks, fst chunks ++ concat (snd chunks)) FOLDED_LINES.
Proof.
  apply (unfold_ics_lines_undoes_folding 32 CRLF FOLDED_LINES).
  - by left.
  - by right.
  - repeat constructor.
Defined.

Lemma parse_ics_events_without_begin_witness :
  @parse_ics_events ucd tzdata insertion FEED_MARKER_BLANK = OK [].
Proof.
  apply (@parse_ics_events_without_begin ucd tzdata insertion FEED_MARKER_BLANK).
  apply (bool_decide_unpack _). vm_compute. exact I.
Defined.

Lemma parse_ics_events_open_block_dropped_witness :
  @parse_ics_events ucd tzdata insertion FEED_OPEN_BLOCK
  = @parse_ics_events ucd tzdata insertion FEED_LECTURE.
Proof.
  apply (@parse_ics_events_open_block_dropped ucd tzdata insertion FEED_LECTURE
           FEED_OPEN_BLOCK
           (BEGIN_VEVENT :: BODY_MALFORMED)).
  - apply (bool_decide_unpack _). vm_compute. exact I.
  - vm_compute. reflexivity.
Defined.

Lemma parse_ics_events_trims_fields_witness :
  Forall event_trimmed EVENTS_TWO_DAYS.
Proof.
  apply (@parse_ics_events_trims_fields ucd tzdata insertion FEED_TWO_DAYS
           EVENTS_TWO_DAYS).
  vm_compute. reflexivity.
Defined.

Lemma parse_ics_events_keeps_sorted_feed_witness :
  @parse_ics_events ucd tzdata insertion FEED_TWO_DAYS = OK EVENTS_TWO_DAYS.
Proof.
  apply (@parse_ics_events_keeps_sorted_feed ucd tzdata insertion FEED_TWO_DAYS
           EVENTS_TWO_DAYS).
  - vm_compute. reflexivity.
  - repeat constructor.
  - repeat constructor; vm_compute; discriminate.
Defined.

Lemma parse_dt_utc_ignores_tzid_witness :
  @_parse_dt ucd tzdata TOKEN_UTC (Some UNKNOWN_KEY)
  = @_parse_dt ucd tzdata TOKEN_UTC None.
Proof.
  apply (@parse_dt_utc_ignores_tzid ucd tzdata TOKEN_UTC (Some UNKNOWN_KEY) None).
  vm_compute. reflexivity.
Defined.

Lemma extract_zoom_links_skips_zero_width_witness :
  @extract_zoom_links ucd TEXT_LINK_ZERO_WIDTH
  = @extract_zoom_links ucd (filter (λ x, x ≠ 8203) TEXT_LINK_ZERO_WIDTH)
  ∧ (8203 ∉ _normalize_for_links TEXT_LINK_ZERO_WIDTH).
Proof.
  apply (@extract_zoom_links_skips_zero_width ucd TEXT_LINK_ZERO_WIDTH).
  apply (bool_decide_unpack _). vm_compute. exact I.
Defined.

Lemma extract_zoom_links_charset_witness :
  @link_char ucd 305 ∧ (305 < 128 → url_char 305 = true).
Proof.
  apply (@extract_zoom_links_charset ucd TEXT_LINK_TURKISH LINK_WITH_DOTLESS_I 305).
  - apply (bool_decide_unpack _). vm_compute. exact I.
  - apply (bool_decide_unpack _). vm_compute. exact I.
Defined.

Lemma extract_zoom_links_escaping_witness :
  escape_html_attr LINK_WITH_AMPERSAND = escape_html LINK_WITH_AMPERSAND
  ∧ escape_html LINK_WITH_AMPERSAND = replace [38] AMP LINK_WITH_AMPERSAND.
Proof.
  apply (@extract_zoom_links_escaping ucd LINK_WITH_AMPERSAND LINK_WITH_AMPERSAND).
  apply (bool_decide_unpack _). vm_compute. exact I.
Defined.

Lemma extract_teacher_capitalized_redundant_witness :
  drop 4 (@teacher_patterns ucd) = take 3 (@teacher_patterns ucd)
  ∧ @extract_teacher ucd DESCRIPTION_TEACHER
    = match DESCRIPTION_TEACHER with
      | [] => None
      | _ => match_lines (take 4 (@teacher_patterns ucd))
               (stripped_lines (replace ESCAPED_NL NL DESCRIPTION_TEACHER))
      end.
Proof.
  refine (@extract_teacher_capitalized_redundant ucd DESCRIPTION_TEACHER _ _ _);
    repeat split; vm_compute; discriminate.
Defined.

Lemma extract_teacher_result_witness :
  TEACHER_RUDENKO ≠ [] ∧ trimmed TEACHER_RUDENKO ∧ (10 ∉ TEACHER_RUDENKO)
  ∧ ∃ line, line ∈ stripped_lines (replace ESCAPED_NL NL DESCRIPTION_TEACHER)
            ∧ TEACHER_RUDENKO `suffix_of` line.
Proof.
  apply (@extract_teacher_result ucd DESCRIPTION_TEACHER TEACHER_RUDENKO).
  vm_compute. reflexivity.
Defined.

Lemma format_week_message_day_blocks_witness :
  ∃ texts,
    Forall2 (λ d text, @format_day ucd tzdata (@day_events tzdata EVENTS_TWO_DAYS d) d
                       = OK text)
      (week_days MONDAY (MONDAY + 6)) texts
    ∧ @format_week_message ucd tzdata NOW_SUNDAY EVENTS_TWO_DAYS MONDAY (MONDAY + 6)
      = OK (week_header MONDAY (MONDAY + 6)
            ++ join NL (flat_map (λ text, [separator; text]) texts ++ [separator])
            ++ NL ++ NL ++ UPDATED ++ strftime_HM (wall NOW_SUNDAY)).
Proof.
  apply (@format_week_message_day_blocks ucd tzdata NOW_SUNDAY EVENTS_TWO_DAYS
           MONDAY (MONDAY + 6)).
  - apply (bool_decide_unpack _). vm_compute. exact I.
  - repeat constructor; eexists; vm_compute; reflexivity.
Defined.
